(** * frog-game: the authoritative server (server/src/index.js)

    A shallow embedding of the game server and the proofs of its
    specification.

    - Numbers.  Health, xp, level and timestamps are integer-valued in the
      server (they start at integers and only move by integer steps), so
      they are [Z].  Coordinates and sizes are genuine IEEE doubles
      ([0.7 + (level-1)*0.05], random pad positions): they are primitive
      binary64 [float]s, compared with [PrimFloat.eqb] / [PrimFloat.ltb]
      as [===] and [<] do.  [Infinity] only occurs as an xp requirement:
      type [num].
    - Objects.  Player objects are mutable and are captured by the
      [setTimeout] closure of the push logic, so the model has an object
      store [heap] (allocation order) and the registry
      [gameState.players] maps socket ids to references, in insertion
      order as a JS [Map] iterates.
    - Strings.  A JS string is held as the bytes of its (generalised)
      UTF-8 encoding, which is how a string literal of this file is read;
      [===] is equality of the bytes and [.length] counts UTF-16 code
      units ([JsString.length]).
    - Effects.  Every handler is a function from the server state to a new
      state and the list of emitted messages; [None] is an uncaught
      [TypeError].  [Date.now()], [Math.random()] and [generateFly()] are
      inputs of the event.
    - Time.  A [setTimeout] callback runs when the event loop first turns
      at or after its due time, before the inbound event of that turn.
    - The world.  [generateLilyPads()] and the 60 Hz [setInterval] loop
      that moves the flies are modelled in [World], over the results of
      [Math.random()], [Math.cos], [Math.sin], [Math.sqrt] and
      [Math.pow], which are arbitrary.  The event model starts from the
      result of the generator (the center pad followed by the pads its
      random placement accepted); the fly loop writes only the position,
      heading and direction-change time of each fly, never an id, the
      population or a player, and is not interleaved with the events.
    - Left out.  [generateFly()] is kept as its results.
*)

From Stdlib Require Import ZArith Floats.
From Equations Require Import Equations.
From stdpp Require Import gmap strings list fin_maps pretty.

Set Warnings "-inexact-float".
Open Scope Z_scope.

(** ** ProgressionModel *)

Module Progression.

(** JS numbers that may be [Infinity]. *)
Inductive num : Type :=
| Fin (z : Z)
| Infinity.

(** [a + b] *)
Definition num_add (a b : num) : num :=
  match a, b with
  | Fin x, Fin y => Fin (x + y)
  | _, _ => Infinity
  end.

(** [xp < b] for a finite [xp] *)
Definition num_ltb (xp : Z) (b : num) : bool :=
  match b with
  | Fin y => xp <? y
  | Infinity => true
  end.

Definition num_lt (xp : Z) (b : num) : Prop := num_ltb xp b = true.

(** [function getRequiredXPForLevel(level)] *)
Definition getRequiredXPForLevel (level : Z) : num :=
  if 10 <=? level then Infinity (* Cap at level 10 *)
  else Fin ((level * 3) + 2).

(** The [while (level < 10)] loop of [getLevelFromXP], from the loop
    head with the current [level] and [xpRequired]. *)
Equations? levelLoop (xp : Z) (level : Z) (xpRequired : num) : Z
  by wf (Z.to_nat (10 - level)) lt :=
  levelLoop xp level xpRequired with Z_lt_dec level 10 => {
    | left _ =>
        let xpRequired' := num_add xpRequired (getRequiredXPForLevel level) in
        if num_ltb xp xpRequired' then level
        else levelLoop xp (level + 1) xpRequired'
    | right _ => 10 (* Maximum level *) }.
Proof. lia. Qed.

(** [function getLevelFromXP(xp)] *)
Definition getLevelFromXP (xp : Z) : Z := levelLoop xp 1 (Fin 0).

(** [function getSizeForLevel(level)] *)
Definition getSizeForLevel (level : Z) : float :=
  (0.7 + (PrimFloat.of_uint63 (Uint63.of_Z (level - 1)) * 0.05))%float.

(** Cumulative required XP for the levels [1..L]. *)
Definition cumulativeXP (L : Z) : num :=
  foldl num_add (Fin 0)
    (map (fun l => getRequiredXPForLevel (Z.of_nat l)) (seq 1 (Z.to_nat L))).

(** [r] is the smallest level [L >= 1] at which the bound [cum L]
    exceeds [xp], capped at 10. *)
Definition smallest_level_capped (cum : Z -> num) (xp r : Z) : Prop :=
  exists L, 1 <= L /\ num_lt xp (cum L) /\
            (forall L', 1 <= L' < L -> ~ num_lt xp (cum L')) /\
            r = Z.min L 10.

(** The level as the specification words it: the bound at [L] is the
    cumulative requirement of the levels [1..L-1]. *)
Definition levelFromXp_spec (xp r : Z) : Prop :=
  smallest_level_capped (fun L => cumulativeXP (L - 1)) xp r.

End Progression.

Import Progression.


(** ** World data *)

Module LilyPad.
Record t : Type := mk {
  id : string;
  x : float;
  y : float;
  isSpawnPoint : bool
}.
End LilyPad.

Module Fly.
Record t : Type := mk {
  id : string;
  x : float;
  y : float;
  angle : float;
  angularVelocity : float;
  speed : float;
  nextDirectionChange : float
}.
End Fly.

Module Player.
Record t : Type := mk {
  id : string;
  name : string;
  x : float;
  y : float;
  size : float;
  health : Z;
  maxHealth : Z;
  isSwimming : bool;
  lastPushTime : Z;
  level : Z;
  xp : Z
}.

(** [player.x = px; player.y = py] *)
Definition set_pos (px py : float) (p : t) : t :=
  mk (id p) (name p) px py (size p) (health p) (maxHealth p)
     (isSwimming p) (lastPushTime p) (level p) (xp p).

(** [player.health = h] *)
Definition set_health (h : Z) (p : t) : t :=
  mk (id p) (name p) (x p) (y p) (size p) h (maxHealth p)
     (isSwimming p) (lastPushTime p) (level p) (xp p).

(** [player.maxHealth = m] *)
Definition set_maxHealth (m : Z) (p : t) : t :=
  mk (id p) (name p) (x p) (y p) (size p) (health p) m
     (isSwimming p) (lastPushTime p) (level p) (xp p).

(** [player.isSwimming = b] *)
Definition set_isSwimming (b : bool) (p : t) : t :=
  mk (id p) (name p) (x p) (y p) (size p) (health p) (maxHealth p)
     b (lastPushTime p) (level p) (xp p).

(** [player.lastPushTime = time] *)
Definition set_lastPushTime (time : Z) (p : t) : t :=
  mk (id p) (name p) (x p) (y p) (size p) (health p) (maxHealth p)
     (isSwimming p) time (level p) (xp p).

(** [player.xp = n] *)
Definition set_xp (n : Z) (p : t) : t :=
  mk (id p) (name p) (x p) (y p) (size p) (health p) (maxHealth p)
     (isSwimming p) (lastPushTime p) (level p) n.

(** [player.level = l] *)
Definition set_level (l : Z) (p : t) : t :=
  mk (id p) (name p) (x p) (y p) (size p) (health p) (maxHealth p)
     (isSwimming p) (lastPushTime p) l (xp p).

(** [player.size = sz] *)
Definition set_size (sz : float) (p : t) : t :=
  mk (id p) (name p) (x p) (y p) sz (health p) (maxHealth p)
     (isSwimming p) (lastPushTime p) (level p) (xp p).

(** The object literal of [newPlayer] and [respawn]: level-1 defaults. *)
Definition fresh (sid nm : string) (spawnPad : LilyPad.t) : t :=
  {| id := sid;
     name := nm;
     x := LilyPad.x spawnPad;
     y := LilyPad.y spawnPad;
     size := 0.7;
     health := 50;
     maxHealth := 50;
     isSwimming := false;
     lastPushTime := 0;
     level := 1;
     xp := 0 |}.
End Player.

(** ** A JS [Map] with string keys: entries in insertion order *)

Module JsMap.
Section JsMap.
Context {V : Type}.

(** [m.get(k)] *)
Fixpoint get (k : string) (m : list (string * V)) : option V :=
  match m with
  | [] => None
  | (k', v) :: m' => if decide (k' = k) then Some v else get k m'
  end.

(** [m.has(k)] *)
Definition has (k : string) (m : list (string * V)) : bool :=
  match get k m with Some _ => true | None => false end.

(** [m.set(k, v)]: an existing key keeps its place, a new one goes last. *)
Fixpoint set (k : string) (v : V) (m : list (string * V)) : list (string * V) :=
  match m with
  | [] => [(k, v)]
  | (k', v') :: m' =>
      if decide (k' = k) then (k', v) :: m' else (k', v') :: set k v m'
  end.

(** [m.delete(k)] *)
Fixpoint delete (k : string) (m : list (string * V)) : list (string * V) :=
  match m with
  | [] => []
  | (k', v') :: m' =>
      if decide (k' = k) then delete k m' else (k', v') :: delete k m'
  end.
End JsMap.
End JsMap.

(** ** JS strings

    [s.length] is the number of UTF-16 code units of [s].  In the UTF-8
    bytes of [s] a byte [0xxxxxxx], [110xxxxx] or [1110xxxx] starts a code
    point of one unit (a lone surrogate included), a byte [11110xxx]
    starts a code point of two units (a surrogate pair), and a byte
    [10xxxxxx] continues a code point. *)

Module JsString.

Definition units (c : Ascii.ascii) : nat :=
  let b := Ascii.nat_of_ascii c in
  if (b <? 128)%nat then 1%nat
  else if (b <? 192)%nat then 0%nat
  else if (b <? 240)%nat then 1%nat
  else 2%nat.

Fixpoint length (s : string) : nat :=
  match s with
  | EmptyString => 0%nat
  | String c rest => (units c + length rest)%nat
  end.

End JsString.

(** ** The server *)

Module Server.

(** A reference to a player object: its index in the object store. *)
Abbreviation ref := nat.

(** The per-connection state: [socket.playerName] (undefined until a
    successful join) and the [lastAttackTime] map of the connection
    closure. *)
Record Socket : Type := mkSocket {
  playerName : option string;
  lastAttackTime : gmap string Z
}.

(** A pending [setTimeout] of the push logic: the closure holds
    [otherId] and the object [otherPlayer]. *)
Record Timer : Type := mkTimer {
  due : Z;
  otherId : string;
  otherPlayer : ref
}.

(** [gameState] ([players], [flies], [lilyPads]; [worldSize] is the
    constant below), the object store, the module-level [playerNames] and
    [takenUsernames], the open connections and the pending timers. *)
Record State : Type := mkState {
  players : list (string * ref);
  flies : list Fly.t;
  lilyPads : list LilyPad.t;
  heap : list Player.t;
  playerNames : gmap string string;
  takenUsernames : gset string;
  sockets : gmap string Socket;
  timers : list Timer
}.

Definition worldSize_width : float := 2400%float.
Definition worldSize_height : float := 1800%float.

Definition set_players (v : list (string * ref)) (s : State) : State :=
  mkState v (flies s) (lilyPads s) (heap s) (playerNames s)
          (takenUsernames s) (sockets s) (timers s).
Definition set_flies (v : list Fly.t) (s : State) : State :=
  mkState (players s) v (lilyPads s) (heap s) (playerNames s)
          (takenUsernames s) (sockets s) (timers s).
Definition set_heap (v : list Player.t) (s : State) : State :=
  mkState (players s) (flies s) (lilyPads s) v (playerNames s)
          (takenUsernames s) (sockets s) (timers s).
Definition set_playerNames (v : gmap string string) (s : State) : State :=
  mkState (players s) (flies s) (lilyPads s) (heap s) v
          (takenUsernames s) (sockets s) (timers s).
Definition set_takenUsernames (v : gset string) (s : State) : State :=
  mkState (players s) (flies s) (lilyPads s) (heap s) (playerNames s)
          v (sockets s) (timers s).
Definition set_sockets (v : gmap string Socket) (s : State) : State :=
  mkState (players s) (flies s) (lilyPads s) (heap s) (playerNames s)
          (takenUsernames s) v (timers s).
Definition set_timers (v : list Timer) (s : State) : State :=
  mkState (players s) (flies s) (lilyPads s) (heap s) (playerNames s)
          (takenUsernames s) (sockets s) v.

(** Outbound messages. *)
Inductive Msg : Type :=
| gameState_msg (ps : list Player.t) (fs : list Fly.t) (pads : list LilyPad.t)
| playerJoined (p : Player.t)
| playerHealthUpdate (id : string) (health maxHealth : Z)
| playerMoved (id : string) (x y : float) (health maxHealth : Z)
| playerPushed (id pushedBy : string) (fromX fromY : float)
| playerCanMove (id : string)
| playerDied (id : string)
| playerDamaged (id : string) (health maxHealth damage : Z)
| flyCaught (flyId playerId : string) (size : float)
            (health maxHealth level xp : Z) (didLevelUp : bool)
| newFly (f : Fly.t)
| playerDisconnected (id : string)
| checkName_reply (isAvailable : bool).

(** [socket.emit] (and the reply callback), [socket.broadcast.emit],
    [io.emit]. *)
Inductive Dest : Type :=
| to_socket (sid : string)
| to_others (sid : string)
| to_all.

Definition Out : Type := Dest * Msg.

(** Inbound events of one connection.  [rnd] is the draw of
    [Math.random()] used to pick the spawn pad, [generated] the result of
    [generateFly()]. *)
Inductive Event : Type :=
| connection
| checkName (name : string)
| newPlayer (playerName : string) (rnd : nat)
| respawn (rnd : nat)
| moveToLilyPad (padId : string)
| tongueAttack (targetId : string)
| catchFly (flyId : string) (generated : Fly.t)
| disconnect.

(** [gameState.players.get(id)], dereferenced. *)
Definition player_ref (s : State) (id : string) : option ref :=
  JsMap.get id (players s).

Definition player_of (s : State) (id : string) : option Player.t :=
  r ← player_ref s id; heap s !! r.

(** [Array.from(gameState.players.values())] *)
Definition player_values (s : State) : list Player.t :=
  omap (fun e : string * ref => heap s !! e.2) (players s).

(** [function findUnoccupiedLilyPad()].  [Math.floor(Math.random() * n)]
    is some index below [n]: [rnd mod n].  The result is [None] where JS
    yields [undefined] (no pad at all). *)
Definition occupied (s : State) (pad : LilyPad.t) : bool :=
  existsb (fun player =>
             PrimFloat.eqb (Player.x player) (LilyPad.x pad) &&
             PrimFloat.eqb (Player.y player) (LilyPad.y pad))
          (player_values s).

Definition findUnoccupiedLilyPad (rnd : nat) (s : State) : option LilyPad.t :=
  let unoccupiedPads := List.filter (fun pad => negb (occupied s pad)) (lilyPads s) in
  if (length unoccupiedPads =? 0)%nat then lilyPads s !! 0%nat
  else unoccupiedPads !! (rnd mod length unoccupiedPads)%nat.

(** [gameState.lilyPads.find(pad => pad.id === padId)] *)
Definition find_pad (padId : string) (s : State) : option LilyPad.t :=
  snd <$> list_find (fun pad => LilyPad.id pad = padId) (lilyPads s).

(** [gameState.flies.findIndex(fly => fly.id === flyId)], [None] for -1 *)
Definition findIndex_fly (flyId : string) (s : State) : option nat :=
  fst <$> list_find (fun fly => Fly.id fly = flyId) (flies s).

(** [a || d] on a possibly undefined string: the empty string is falsy. *)
Definition or_else (a : option string) (d : string) : string :=
  match a with
  | Some v => if decide (v = "") then d else v
  | None => d
  end.

(** *** Handlers

    Each takes the connection id [sid] (its [socket.id]) and, where the
    source reads them, the connection state [sk] and [now = Date.now()]. *)

(** [socket.on('checkName', (name, callback) => ...)] *)
Definition on_checkName (sid name : string) (s : State) : State * list Out :=
  let isAvailable := negb (bool_decide (name ∈ takenUsernames s)) in
  (s, [(to_socket sid, checkName_reply isAvailable)]).

(** [socket.on('disconnect', () => ...)] *)
Definition on_disconnect (sid : string) (sk : Socket) (s : State) : State * list Out :=
  if JsMap.has sid (players s) then
    let s1 := set_players (JsMap.delete sid (players s)) s in
    let s2 := set_playerNames (delete sid (playerNames s1)) s1 in
    (* Remove username from taken set *)
    let s3 :=
      match playerName sk with
      | Some nm =>
          (* [if (socket.playerName)]: the empty string is falsy *)
          if decide (nm = "") then s2
          else set_takenUsernames (takenUsernames s2 ∖ {[nm]}) s2
      | None => s2
      end in
    (s3, [(to_all, playerDisconnected sid)])
  else (s, []).

(** The transport closes the connection: the ['disconnect'] handler runs
    and the socket receives no further event.  This is what a client
    leaving and [socket.disconnect()] both do. *)
Definition close_socket (sid : string) (sk : Socket) (s : State) : State * list Out :=
  let '(s1, out) := on_disconnect sid sk s in
  (set_sockets (delete sid (sockets s1)) s1, out).

(** [socket.on('newPlayer', (playerName) => ...)] *)
Definition on_newPlayer (sid : string) (sk : Socket) (nm : string) (rnd : nat)
    (s : State) : option (State * list Out) :=
  (* Double-check username length and availability *)
  if (16 <? JsString.length nm)%nat || bool_decide (nm ∈ takenUsernames s) then
    Some (close_socket sid sk s)
  else
    (* Add username to taken set *)
    let s1 := set_takenUsernames ({[nm]} ∪ takenUsernames s) s in
    let s2 := set_sockets (<[sid := mkSocket (Some nm) (lastAttackTime sk)]> (sockets s1)) s1 in
    spawnPad ← findUnoccupiedLilyPad rnd s2;
    (* Store the player name *)
    let s3 := set_playerNames (<[sid := nm]> (playerNames s2)) s2 in
    let player := Player.fresh sid nm spawnPad in
    let r := length (heap s3) in
    let s4 := set_players (JsMap.set sid r (players s3))
                          (set_heap (heap s3 ++ [player]) s3) in
    Some (s4,
          [ (to_socket sid, gameState_msg (player_values s4) (flies s4) (lilyPads s4));
            (to_others sid, playerJoined player);
            (to_all, playerHealthUpdate sid (Player.health player) (Player.maxHealth player)) ]).

(** [socket.on('respawn', () => ...)] *)
Definition on_respawn (sid : string) (rnd : nat) (s : State) : option (State * list Out) :=
  spawnPad ← findUnoccupiedLilyPad rnd s;
  let existingPlayer := player_of s sid in
  let nm := or_else (Player.name <$> existingPlayer)
                    (or_else (playerNames s !! sid) "Anonymous") in
  let player := Player.fresh sid nm spawnPad in
  let r := length (heap s) in
  let s1 := set_players (JsMap.set sid r (players s))
                        (set_heap (heap s ++ [player]) s) in
  Some (s1,
        [ (to_all, playerJoined player);
          (to_all, playerHealthUpdate sid (Player.health player) (Player.maxHealth player)) ]).

(** The test of the push loop of [moveToLilyPad] for one registry entry. *)
Definition pushable (currentTime : Z) (sid : string) (targetPad : LilyPad.t)
    (player : Player.t) (otherId : string) (otherPlayer : Player.t) : bool :=
  bool_decide (otherId ≠ sid) &&
  PrimFloat.eqb (Player.x otherPlayer) (LilyPad.x targetPad) &&
  PrimFloat.eqb (Player.y otherPlayer) (LilyPad.y targetPad) &&
  PrimFloat.ltb (Player.size otherPlayer) (Player.size player) &&
  negb (Player.isSwimming otherPlayer) &&
  (2000 <? currentTime - Player.lastPushTime otherPlayer). (* Prevent rapid pushing *)

(** One iteration of [for (const [otherId, otherPlayer] of
    gameState.players.entries())]; [r] is the mover's object. *)
Definition push_step (currentTime : Z) (sid : string) (r : ref) (targetPad : LilyPad.t)
    (acc : list Player.t * list Timer * list Out) (e : string * ref)
    : list Player.t * list Timer * list Out :=
  let '(h, ts, out) := acc in
  match h !! e.2, h !! r with
  | Some otherPlayer, Some player =>
      if pushable currentTime sid targetPad player e.1 otherPlayer then
        (* Push the smaller frog into water *)
        let pushed := Player.set_lastPushTime currentTime
                        (Player.set_isSwimming true otherPlayer) in
        (<[e.2 := pushed]> h,
         (* After 1 second, allow the frog to move again *)
         ts ++ [mkTimer (currentTime + 1000) e.1 e.2],
         out ++ [(to_all, playerPushed e.1 sid (Player.x otherPlayer) (Player.y otherPlayer))])
      else acc
  | _, _ => acc
  end.

Definition push_loop (currentTime : Z) (sid : string) (r : ref) (targetPad : LilyPad.t)
    (s : State) : list Player.t * list Timer * list Out :=
  foldl (push_step currentTime sid r targetPad) (heap s, timers s, []) (players s).

(** [socket.on('moveToLilyPad', (padId) => ...)] *)
Definition on_moveToLilyPad (now : Z) (sid padId : string) (s : State) : State * list Out :=
  match player_ref s sid with
  | None => (s, [])
  | Some r =>
  match heap s !! r with
  | None => (s, [])
  | Some player =>
      (* Can't move while swimming *)
      if Player.isSwimming player then (s, []) else
      match find_pad padId s with
      | None => (s, [])
      | Some targetPad =>
          (* Store current health values *)
          let currentHealth := Player.health player in
          let currentMaxHealth := Player.maxHealth player in
          (* Check for smaller frogs on the target pad *)
          let currentTime := now in
          let '(h1, ts1, out1) := push_loop currentTime sid r targetPad s in
          (* Move player to the target lily pad; ensure health values
             haven't changed during movement *)
          let h2 := alter (fun p =>
                       Player.set_maxHealth currentMaxHealth
                         (Player.set_health currentHealth
                            (Player.set_pos (LilyPad.x targetPad) (LilyPad.y targetPad) p)))
                          r h1 in
          (set_timers ts1 (set_heap h2 s),
           out1 ++
           [ (to_all, playerMoved sid (LilyPad.x targetPad) (LilyPad.y targetPad)
                                  currentHealth currentMaxHealth);
             (to_all, playerHealthUpdate sid currentHealth currentMaxHealth) ])
      end
  end
  end.

(** [socket.on('tongueAttack', (targetId) => ...)].  [typeof
    target.health !== 'number'] never holds: [health] is a number in
    every object the server builds. *)
Definition on_tongueAttack (now : Z) (sid : string) (sk : Socket) (targetId : string)
    (s : State) : State * list Out :=
  match player_of s sid, player_ref s targetId with
  | Some attacker, Some rt =>
  match heap s !! rt with
  | None => (s, [])
  | Some target =>
      (* Check cooldown (500ms between attacks) *)
      let lastAttack := default 0 (lastAttackTime sk !! targetId) in
      if now - lastAttack <? 500 then (s, []) else
      let s1 := set_sockets
                  (<[sid := mkSocket (playerName sk)
                                     (<[targetId := now]> (lastAttackTime sk))]> (sockets s)) s in
      (* Always do exactly 10 damage *)
      let newHealth := Z.max 0 (Player.health target - 10) in
      let s2 := set_heap (<[rt := Player.set_health newHealth target]> (heap s1)) s1 in
      (* If health drops to 0 or below, player dies *)
      if newHealth <=? 0 then
        (set_players (JsMap.delete targetId (players s2)) s2,
         [(to_all, playerDied targetId)])
      else
        (s2, [(to_all, playerDamaged targetId newHealth (Player.maxHealth target) 10)])
  end
  | _, _ => (s, [])
  end.

(** [socket.on('catchFly', (flyId) => ...)] *)
Definition on_catchFly (sid flyId : string) (generated : Fly.t) (s : State)
    : State * list Out :=
  match player_ref s sid with
  | None => (s, [])
  | Some r =>
  match heap s !! r with
  | None => (s, [])
  | Some player =>
      match findIndex_fly flyId s with
      | None => (s, [])
      | Some flyIndex =>
          (* Remove caught fly *)
          let flies1 := delete flyIndex (flies s) in
          (* Add XP and check for level up *)
          let player1 := Player.set_xp (Player.xp player + 1) player in
          let newLevel := getLevelFromXP (Player.xp player1) in
          let didLevelUp := Player.level player1 <? newLevel in
          let player2 :=
            if didLevelUp then
              (* Level up! Update size and max health *)
              let maxHealth := 50 + ((newLevel - 1) * 10) in
              Player.set_health maxHealth
                (Player.set_maxHealth maxHealth
                   (Player.set_size (getSizeForLevel newLevel)
                      (Player.set_level newLevel player1)))
            else player1 in
          (* Generate one new fly when one is caught *)
          let newFly_ := generated in
          (set_flies (flies1 ++ [newFly_]) (set_heap (<[r := player2]> (heap s)) s),
           [ (to_all, flyCaught flyId sid (Player.size player2) (Player.health player2)
                                (Player.maxHealth player2) (Player.level player2)
                                (Player.xp player2) didLevelUp);
             (to_all, newFly newFly_) ])
      end
  end
  end.

(** [io.on('connection', (socket) => ...)]: a new connection closure with
    an empty [lastAttackTime]. *)
Definition on_connection (sid : string) (s : State) : State * list Out :=
  (set_sockets (<[sid := mkSocket None ∅]> (sockets s)) s, []).

(** Dispatch of one inbound event.  A socket id that is not connected
    sends nothing; an id that is connected does not connect again. *)
Definition handle (now : Z) (sid : string) (ev : Event) (s : State)
    : option (State * list Out) :=
  match sockets s !! sid, ev with
  | None, connection => Some (on_connection sid s)
  | None, _ => Some (s, [])
  | Some sk, connection => Some (s, [])
  | Some sk, checkName nm => Some (on_checkName sid nm s)
  | Some sk, newPlayer nm rnd => on_newPlayer sid sk nm rnd s
  | Some sk, respawn rnd => on_respawn sid rnd s
  | Some sk, moveToLilyPad padId => Some (on_moveToLilyPad now sid padId s)
  | Some sk, tongueAttack targetId => Some (on_tongueAttack now sid sk targetId s)
  | Some sk, catchFly flyId generated => Some (on_catchFly sid flyId generated s)
  | Some sk, disconnect => Some (close_socket sid sk s)
  end.

(** *** Timers

    The callback of the push logic's [setTimeout]. *)
Definition fire (acc : list Player.t * list Out) (t : Timer) : list Player.t * list Out :=
  let '(h, out) := acc in
  match h !! otherPlayer t with
  | Some p =>
      if Player.isSwimming p then
        (<[otherPlayer t := Player.set_isSwimming false p]> h,
         out ++ [(to_all, playerCanMove (otherId t))])
      else acc
  | None => acc
  end.

(** The event loop runs every timer that is due at [now], in the order
    they were set, before the next inbound event is handled. *)
Definition run_timers (now : Z) (s : State) : State * list Out :=
  let expired := List.filter (fun t => due t <=? now) (timers s) in
  let pending := List.filter (fun t => now <? due t) (timers s) in
  let '(h, out) := foldl fire (heap s, []) expired in
  (set_timers pending (set_heap h s), out).

(** One turn of the event loop at time [now]. *)
Definition step (now : Z) (sid : string) (ev : Event) (s : State)
    : option (State * list Out) :=
  let '(s1, out1) := run_timers now s in
  '(s2, out2) ← handle now sid ev s1;
  Some (s2, out1 ++ out2).

(** A run of the event loop over timestamped inbound events. *)
Fixpoint run (trace : list (Z * string * Event)) (s : State) : option (State * list Out) :=
  match trace with
  | [] => Some (s, [])
  | (now, sid, ev) :: rest =>
      '(s1, out1) ← step now sid ev s;
      '(s2, out2) ← run rest s1;
      Some (s2, out1 ++ out2)
  end.

(** *** Start-up

    [generateLilyPads()] pushes the center pad first and then the pads
    its random placement accepts ([generatedPads]); the flies are the
    results of the ten initial [generateFly()] calls. *)
Definition centerPad : LilyPad.t :=
  {| LilyPad.id := "pad-center";
     LilyPad.x := (worldSize_width / 2)%float;
     LilyPad.y := (worldSize_height / 2)%float;
     LilyPad.isSpawnPoint := true |}.

Definition init (generatedPads : list LilyPad.t) (generatedFlies : list Fly.t) : State :=
  {| players := [];
     flies := generatedFlies;
     lilyPads := centerPad :: generatedPads;
     heap := [];
     playerNames := ∅;
     takenUsernames := ∅;
     sockets := ∅;
     timers := [] |}.

(** The states the server can be in. *)
Inductive reachable : State -> Prop :=
| reachable_init generatedPads generatedFlies :
    reachable (init generatedPads generatedFlies)
| reachable_step s now sid ev s' out :
    reachable s -> step now sid ev s = Some (s', out) -> reachable s'.

End Server.

(** ** Properties of one event, as the specification states them *)

Module Spec.
Import Server.

(** The catch of [flyId] took exactly one fly, one named [flyId], out of
    the population and added exactly the freshly generated one. *)
Definition catch_replaces (s : State) (flyId : string) (generated : Fly.t)
    (s' : State) : Prop :=
  exists i fly, flies s !! i = Some fly /\ Fly.id fly = flyId /\
                flies s' = delete i (flies s) ++ [generated].

(** [s2] is reached from [s1] by events that are all handled less than
    500ms after [now1] and that leave the connection [sid] open. *)
Inductive cooldown_window (sid : string) (now1 : Z) (s1 : State) : State -> Prop :=
| window_start : cooldown_window sid now1 s1 s1
| window_step s2 s3 now sid' ev out :
    cooldown_window sid now1 s1 s2 ->
    now - now1 < 500 ->
    step now sid' ev s2 = Some (s3, out) ->
    is_Some (sockets s3 !! sid) ->
    cooldown_window sid now1 s1 s3.

(** The object [p] after the push loop pushed it at [currentTime]. *)
Definition pushed (currentTime : Z) (p : Player.t) : Player.t :=
  Player.set_lastPushTime currentTime (Player.set_isSwimming true p).


(** The name is available for a join. *)
Definition name_available (s : State) (nm : string) : Prop :=
  nm ∉ takenUsernames s.

End Spec.

(** ** Invariants of the server state *)

Module Invariant.
Import Server Spec.

(** Health is a multiple of the flat damage between 0 and [maxHealth]. *)
Definition healthy (p : Player.t) : Prop :=
  0 <= Player.health p <= Player.maxHealth p /\ (10 | Player.health p).

(** Every pending timer belongs to a swimming object that was pushed one
    second before it is due, no object has two pending timers, and every
    swimming object has one. *)
Record timers_ok (h : list Player.t) (ts : list Timer) : Prop := {
  timer_swimming : forall t, t ∈ ts ->
    exists p, h !! otherPlayer t = Some p /\ Player.isSwimming p = true /\
              due t = Player.lastPushTime p + 1000;
  timer_NoDup : NoDup (otherPlayer <$> ts);
  swimming_timer : forall r p, h !! r = Some p -> Player.isSwimming p = true ->
    r ∈ otherPlayer <$> ts
}.

Record wf (s : State) : Prop := {
  wf_pads : lilyPads s ≠ [];
  wf_refs : forall e, e ∈ players s -> (e.2 < length (heap s))%nat;
  wf_keys : NoDup (players s).*1;
  wf_vals : NoDup (players s).*2;
  wf_healthy : Forall healthy (heap s);
  wf_alive : forall e p, e ∈ players s -> heap s !! e.2 = Some p -> 0 < Player.health p;
  wf_timers : timers_ok (heap s) (timers s)
}.

(** An update that leaves the push state of an object alone. *)
Definition same_push (p p' : Player.t) : Prop :=
  Player.isSwimming p' = Player.isSwimming p /\
  Player.lastPushTime p' = Player.lastPushTime p.

(** What the push loop keeps of the store [h0] it starts from: its
    length, the health fields of every object and the timer invariant. *)
Definition loop_ok (h0 : list Player.t) (acc : list Player.t * list Timer * list Out) : Prop :=
  length acc.1.1 = length h0 /\
  (forall r p', acc.1.1 !! r = Some p' ->
     exists p, h0 !! r = Some p /\ Player.health p' = Player.health p /\
               Player.maxHealth p' = Player.maxHealth p) /\
  timers_ok acc.1.1 acc.1.2.

(** Every object of the store is, after the loop, what it was or what
    it was pushed into; an object is only pushed when it was not
    swimming and its last push is more than two seconds old. *)
Definition loop_objects (currentTime : Z) (h0 : list Player.t)
    (acc : list Player.t * list Timer * list Out) : Prop :=
  forall ro q', acc.1.1 !! ro = Some q' ->
    exists q, h0 !! ro = Some q /\
      (q' = q \/ (q' = pushed currentTime q /\ Player.isSwimming q = false /\
                  2000 < currentTime - Player.lastPushTime q)).



(** Every timer that is due at [now] has run. *)
Definition settled (now : Z) (s : State) : Prop :=
  forall t, t ∈ timers s -> now < due t.

End Invariant.

(** ** A small world used for the concrete runs *)

Module Scenario.
Import Server.

Definition pad1 : LilyPad.t := LilyPad.mk "pad-0-0" 200 200 false.
Definition fly1 : Fly.t := Fly.mk "fly-1" 100 100 0 0 3 5000.
Definition fly2 : Fly.t := Fly.mk "fly-2" 300 300 0 0 5 6000.
Definition world : State := init [pad1] [fly1].

(** The state a run ends in (the start state if it throws). *)
Definition state_after (trace : list (Z * string * Event)) (s : State) : State :=
  match run trace s with
  | Some (s', _) => s'
  | None => s
  end.

(** Connections [a] and [b] are open; nobody joined. *)
Definition connected_trace : list (Z * string * Event) :=
  [(1000, "a", connection); (1000, "b", connection)].
Definition connected : State :=
  Eval vm_compute in state_after connected_trace world.

(** [a] joined as "A" on the center pad, [b] as "B" on the other pad. *)
Definition joined_trace : list (Z * string * Event) :=
  [(1100, "a", newPlayer "A" 0); (1200, "b", newPlayer "B" 0)].
Definition joined : State :=
  Eval vm_compute in state_after joined_trace connected.

(** [a] caught five flies and reached level 2. *)
Definition a_level2_trace : list (Z * string * Event) :=
  [(1300, "a", catchFly "fly-1" fly2); (1400, "a", catchFly "fly-2" fly1);
   (1500, "a", catchFly "fly-1" fly2); (1600, "a", catchFly "fly-2" fly1);
   (1700, "a", catchFly "fly-1" fly2)].
Definition a_level2 : State :=
  Eval vm_compute in state_after a_level2_trace joined.

(** [c] connected and joined as "C"; both pads are taken, it stands on
    the center pad with [a]. *)
Definition three_joined_trace : list (Z * string * Event) :=
  [(1250, "c", connection); (1300, "c", newPlayer "C" 0)].
Definition three_joined : State :=
  Eval vm_compute in state_after three_joined_trace joined.

(** [b] hit [a] five times, half a second apart: [a] is dead. *)
Definition a_dead_trace : list (Z * string * Event) :=
  [(2000, "b", tongueAttack "a"); (2500, "b", tongueAttack "a");
   (3000, "b", tongueAttack "a"); (3500, "b", tongueAttack "a");
   (4000, "b", tongueAttack "a")].
Definition a_dead : State :=
  Eval vm_compute in state_after a_dead_trace joined.


(** The letter e with an acute accent is one UTF-16 unit and two bytes
    (C3 A9); a name of nine of them. *)
Definition e_acute : string :=
  String (Ascii.ascii_of_nat 195) (String (Ascii.ascii_of_nat 169) EmptyString).
Definition nine_e_acute : string :=
  e_acute +:+ e_acute +:+ e_acute +:+ e_acute +:+ e_acute +:+
  e_acute +:+ e_acute +:+ e_acute +:+ e_acute.

End Scenario.

(** ** How objects, names and connections evolve *)

Module Evolution.
Import Server Spec Invariant.

(** The player object after a catch, as [catchFly] rewrites it. *)
Definition caught (player : Player.t) : Player.t :=
  let player1 := Player.set_xp (Player.xp player + 1) player in
  let newLevel := getLevelFromXP (Player.xp player1) in
  if Player.level player1 <? newLevel then
    let maxHealth := 50 + ((newLevel - 1) * 10) in
    Player.set_health maxHealth
      (Player.set_maxHealth maxHealth
         (Player.set_size (getSizeForLevel newLevel)
            (Player.set_level newLevel player1)))
  else player1.

(** The fields no handler but [catchFly] writes. *)
Definition same_stats (q q' : Player.t) : Prop :=
  Player.id q' = Player.id q /\ Player.name q' = Player.name q /\
  Player.size q' = Player.size q /\ Player.level q' = Player.level q /\
  Player.xp q' = Player.xp q /\ Player.maxHealth q' = Player.maxHealth q.

(** What one event makes of an object that is already in the store. *)
Definition object_step (q q' : Player.t) : Prop :=
  same_stats q q' \/ same_stats (caught q) q'.

(** Level, size and maxHealth are the ones of the xp. *)
Definition progression_ok (p : Player.t) : Prop :=
  0 <= Player.xp p /\
  Player.level p = getLevelFromXP (Player.xp p) /\
  Player.size p = getSizeForLevel (Player.level p) /\
  Player.maxHealth p = 50 + ((Player.level p - 1) * 10).

(** The stored name of a connection and the name of its player: the
    same, except that a player stored under the empty name is called
    'Anonymous' once it respawned. *)
Definition names_ok (s : State) : Prop :=
  forall sid nm p,
    playerNames s !! sid = Some nm -> player_of s sid = Some p ->
    Player.name p = nm \/ (nm = "" /\ Player.name p = "Anonymous").

(** The names the open connections joined under are reserved and
    pairwise different. *)
Definition sockets_ok (s : State) : Prop :=
  (forall sid sk nm, sockets s !! sid = Some sk -> playerName sk = Some nm ->
                     nm ∈ takenUsernames s) /\
  (forall sid1 sid2 sk1 sk2 nm,
      sockets s !! sid1 = Some sk1 -> sockets s !! sid2 = Some sk2 ->
      playerName sk1 = Some nm -> playerName sk2 = Some nm -> sid1 = sid2).

(** The push loop changes an object only by pushing it, and pushes or
    announces only where an entry of the registry passes the test against
    the mover [player0] in the store [h0] the loop started from. *)
Definition loop_exact (currentTime : Z) (sid : string) (targetPad : LilyPad.t)
    (player0 : Player.t) (entries : list (string * nat)) (h0 : list Player.t)
    (acc : list Player.t * list Timer * list Out) : Prop :=
  (forall ro q', acc.1.1 !! ro = Some q' ->
     exists q, h0 !! ro = Some q /\
       (q' = q \/
        (q' = pushed currentTime q /\
         exists e, e ∈ entries /\ e.2 = ro /\
                   pushable currentTime sid targetPad player0 e.1 q = true))) /\
  (forall o, o ∈ acc.2 ->
     exists e q, e ∈ entries /\ h0 !! e.2 = Some q /\
                 pushable currentTime sid targetPad player0 e.1 q = true /\
                 o = (to_all, playerPushed e.1 sid (Player.x q) (Player.y q))).

(** The object stands exactly on one of the pads. *)
Definition on_pad (pads : list LilyPad.t) (p : Player.t) : Prop :=
  exists pad, pad ∈ pads /\ Player.x p = LilyPad.x pad /\ Player.y p = LilyPad.y pad.

End Evolution.

(** ** The generated world: lily pads and the fly loop *)

Module World.
Import Server.

Definition Math_PI : float := 3.141592653589793%float.

(** [Math.floor] of a JS number as an integer: a finite double is
    [±m·2^e], and [Z.shiftl] with a negative shift rounds towards minus
    infinity.  [None] where the result is [NaN] or [±Infinity] (which is
    no array index). *)
Definition Math_floor (f : float) : option Z :=
  match Prim2SF f with
  | S754_zero _ => Some 0
  | S754_finite s m e => Some (Z.shiftl (if s then Z.neg m else Z.pos m) e)
  | _ => None
  end.

(** A loop counter or an array length as a JS number. *)
Definition number (n : nat) : float := PrimFloat.of_uint63 (Uint63.of_Z (Z.of_nat n)).

(** [array[index]] for a computed number; [None] is [undefined]. *)
Definition at_index {A} (array : list A) (index : option Z) : option A :=
  i ← index; if 0 <=? i then array !! Z.to_nat i else None.

Definition padRadius : float := 80.
Definition minDistance : float := padRadius * 3.
Definition maxDistance : float := padRadius * 4.
Definition padding : float := padRadius * 2.
Definition gridSize : float := 250.
Definition extraPads : nat := 30.

Definition cols : nat := Z.to_nat (default 0 (Math_floor (worldSize_width / gridSize))).
Definition rows : nat := Z.to_nat (default 0 (Math_floor (worldSize_height / gridSize))).

(** The cells in the order the two nested [for] loops visit them. *)
Definition cells : list (nat * nat) :=
  row ← seq 0 rows; (fun col => (row, col)) <$> seq 0 cols.

(** [Math.floor(cols/2) === col && Math.floor(rows/2) === row] *)
Definition isCenterCell (cell : nat * nat) : bool :=
  (Nat.div cols 2 =? cell.2)%nat && (Nat.div rows 2 =? cell.1)%nat.

Definition grid_id (cell : nat * nat) : string :=
  "pad-" +:+ pretty cell.1 +:+ "-" +:+ pretty cell.2.
Definition extra_id (i : nat) : string := "pad-extra-" +:+ pretty i.

Section Generated.

(** [Math_random k] is the result of the [k]-th call of [Math.random()];
    the generators thread the number of calls made so far. *)
Variable Math_random : nat -> float.
Variables Math_cos Math_sin Math_sqrt : float -> float.
Variable Math_pow : float -> float -> float.

Definition distance (x y : float) (pad : LilyPad.t) : float :=
  Math_sqrt (Math_pow (x - LilyPad.x pad) 2 + Math_pow (y - LilyPad.y pad) 2).

(** The distance check of a grid cell: [(validPosition, hasNearbyPad)]
    when the [for ... of] loop ends or breaks. *)
Fixpoint check_grid (randX randY : float) (pads : list LilyPad.t) (hasNearbyPad : bool)
    : bool * bool :=
  match pads with
  | [] => (true, hasNearbyPad)
  | pad :: rest =>
      let distance := distance randX randY pad in
      if PrimFloat.ltb distance minDistance then (false, hasNearbyPad)
      else check_grid randX randY rest
             (if PrimFloat.leb distance maxDistance then true else hasNearbyPad)
  end.

(** One iteration of the inner grid loop on [(pads, calls of Math.random)]. *)
Definition grid_cell (acc : list LilyPad.t * nat) (cell : nat * nat) : list LilyPad.t * nat :=
  let '(pads, k) := acc in
  if isCenterCell cell then (pads, k)
  else if PrimFloat.ltb (Math_random k) 0.8 then
    let baseX := (number cell.2 * gridSize + padding)%float in
    let baseY := (number cell.1 * gridSize + padding)%float in
    let randX := (baseX + Math_random (k + 1)%nat * (gridSize - padding * 2))%float in
    let randY := (baseY + Math_random (k + 2)%nat * (gridSize - padding * 2))%float in
    let '(validPosition, hasNearbyPad) := check_grid randX randY pads false in
    if validPosition && ((length pads <? 5)%nat || hasNearbyPad)
    then (pads ++ [LilyPad.mk (grid_id cell) randX randY false], (k + 3)%nat)
    else (pads, (k + 3)%nat)
  else (pads, (k + 1)%nat).

(** The distance check of a connecting pad: [validPosition]. *)
Fixpoint check_extra (x y : float) (pads : list LilyPad.t) : bool :=
  match pads with
  | [] => true
  | pad :: rest =>
      if PrimFloat.ltb (distance x y pad) minDistance then false
      else check_extra x y rest
  end.

(** The [while (!validPosition && attempts < 50)] loop with [remaining]
    attempts left: the accepted position, if any, and the calls of
    [Math.random] made.  [None] is the [TypeError] of [sourcePad.x] on an
    [undefined] source pad. *)
Fixpoint place_extra (remaining : nat) (pads : list LilyPad.t) (k : nat)
    : option (option (float * float) * nat) :=
  match remaining with
  | O => Some (None, k)
  | S remaining' =>
      sourcePad ← at_index pads (Math_floor (Math_random k * number (length pads)));
      let angle := (Math_random (k + 1)%nat * Math_PI * 2)%float in
      let distance :=
        (minDistance + Math_random (k + 2)%nat * (maxDistance - minDistance))%float in
      let x := (LilyPad.x sourcePad + Math_cos angle * distance)%float in
      let y := (LilyPad.y sourcePad + Math_sin angle * distance)%float in
      if PrimFloat.ltb x padding || PrimFloat.ltb (worldSize_width - padding) x ||
         PrimFloat.ltb y padding || PrimFloat.ltb (worldSize_height - padding) y
      then place_extra remaining' pads (k + 3)%nat
      else if check_extra x y pads then Some (Some (x, y), (k + 3)%nat)
      else place_extra remaining' pads (k + 3)%nat
  end.

(** One iteration of the [extraPads] loop. *)
Definition extra_pad (acc : option (list LilyPad.t * nat)) (i : nat)
    : option (list LilyPad.t * nat) :=
  '(pads, k) ← acc;
  '(placed, k') ← place_extra 50 pads k;
  match placed with
  | Some (x, y) => Some (pads ++ [LilyPad.mk (extra_id i) x y false], k')
  | None => Some (pads, k')
  end.

Definition grid_pads : list LilyPad.t * nat := foldl grid_cell ([centerPad], 0%nat) cells.

Definition generateLilyPads : option (list LilyPad.t) :=
  fst <$> foldl extra_pad (Some grid_pads) (seq 0 extraPads).

(** *** The fly loop ([setInterval], 60 times a second) *)

Definition bounce_x (fly : Fly.t) : Fly.t :=
  let padding := 50%float in
  if PrimFloat.ltb (Fly.x fly) padding then
    Fly.mk (Fly.id fly) padding (Fly.y fly) (Math_PI - Fly.angle fly)
           (Fly.angularVelocity fly * -0.5) (Fly.speed fly) (Fly.nextDirectionChange fly)
  else if PrimFloat.ltb (worldSize_width - padding) (Fly.x fly) then
    Fly.mk (Fly.id fly) (worldSize_width - padding) (Fly.y fly) (Math_PI - Fly.angle fly)
           (Fly.angularVelocity fly * -0.5) (Fly.speed fly) (Fly.nextDirectionChange fly)
  else fly.

Definition bounce_y (fly : Fly.t) : Fly.t :=
  let padding := 50%float in
  if PrimFloat.ltb (Fly.y fly) padding then
    Fly.mk (Fly.id fly) (Fly.x fly) padding (- Fly.angle fly)
           (Fly.angularVelocity fly * -0.5) (Fly.speed fly) (Fly.nextDirectionChange fly)
  else if PrimFloat.ltb (worldSize_height - padding) (Fly.y fly) then
    Fly.mk (Fly.id fly) (Fly.x fly) (worldSize_height - padding) (- Fly.angle fly)
           (Fly.angularVelocity fly * -0.5) (Fly.speed fly) (Fly.nextDirectionChange fly)
  else fly.

(** The body of [forEach] on one fly, after [k] calls of [Math.random]. *)
Definition updateFly (currentTime : float) (fly : Fly.t) (k : nat) : Fly.t * nat :=
  let '(angularVelocity, nextDirectionChange, k1) :=
    if PrimFloat.leb (Fly.nextDirectionChange fly) currentTime
    then (((Math_random k - 0.5) * 0.1)%float,
          (currentTime + 2000 + Math_random (k + 1)%nat * 3000)%float, (k + 2)%nat)
    else (Fly.angularVelocity fly, Fly.nextDirectionChange fly, k) in
  let angle := (Fly.angle fly + angularVelocity)%float in
  let x := (Fly.x fly + Math_cos angle * Fly.speed fly)%float in
  let y := (Fly.y fly + Math_sin angle * Fly.speed fly)%float in
  let x := (x + (Math_random k1 - 0.5) * 0.2)%float in
  let y := (y + (Math_random (k1 + 1)%nat - 0.5) * 0.2)%float in
  (bounce_y (bounce_x
     (Fly.mk (Fly.id fly) x y angle angularVelocity (Fly.speed fly) nextDirectionChange)),
   (k1 + 2)%nat).

Fixpoint updateFlies (currentTime : float) (flies : list Fly.t) (k : nat)
    : list Fly.t * nat :=
  match flies with
  | [] => ([], k)
  | fly :: rest =>
      let '(fly', k1) := updateFly currentTime fly k in
      let '(rest', k2) := updateFlies currentTime rest k1 in
      (fly' :: rest', k2)
  end.

(** One tick: the new state, the payload of [fliesUpdated] if it is
    emitted ([id], [x], [y], [angle] of every fly), the calls of
    [Math.random]. *)
Definition tick (currentTime : float) (s : State) (k : nat)
    : State * option (list (string * float * float * float)) * nat :=
  let '(flies', k') := updateFlies currentTime (flies s) k in
  (set_flies flies' s,
   if (0 <? length flies')%nat
   then Some ((fun fly => (Fly.id fly, Fly.x fly, Fly.y fly, Fly.angle fly)) <$> flies')
   else None,
   k').

End Generated.

(** *** What the generated pads satisfy *)

(** No pad is closer than [minDistance] to a pad placed before it. *)
Definition spaced (Math_sqrt : float -> float) (Math_pow : float -> float -> float)
    (pads : list LilyPad.t) : Prop :=
  forall i j p q, (i < j)%nat -> pads !! i = Some p -> pads !! j = Some q ->
    PrimFloat.ltb (distance Math_sqrt Math_pow (LilyPad.x q) (LilyPad.y q) p) minDistance
    = false.

(** Not left of, right of, above or below the rectangle [lo .. w-lo] x [lo .. h-lo]. *)
Definition inside (lo : float) (x y : float) : Prop :=
  PrimFloat.ltb x lo = false /\ PrimFloat.ltb (worldSize_width - lo) x = false /\
  PrimFloat.ltb y lo = false /\ PrimFloat.ltb (worldSize_height - lo) y = false.

(** Every id the generator can give, in the order of creation. *)
Definition candidate_ids : list string :=
  "pad-center" :: (grid_id <$> filter (fun cell => isCenterCell cell = false) cells)
               ++ (extra_id <$> seq 0 extraPads).

(** What the loops maintain: [ids] are the ids handed out so far. *)
Record generated (Math_sqrt : float -> float) (Math_pow : float -> float -> float)
    (ids : list string) (pads : list LilyPad.t) : Prop := {
  generated_center : exists rest,
      pads = centerPad :: rest /\ Forall (fun p => LilyPad.isSpawnPoint p = false) rest;
  generated_ids : (LilyPad.id <$> pads) `sublist_of` ids;
  generated_spaced : spaced Math_sqrt Math_pow pads;
  generated_inside : forall p,
      p ∈ pads -> String.prefix "pad-extra-" (LilyPad.id p) = true ->
      inside padding (LilyPad.x p) (LilyPad.y p)
}.

(** A run of the generator for examples: every call of [Math.random]
    gives [r], and connecting pads are tried to the right of their source. *)
Definition example_pads (r : float) : option (list LilyPad.t) :=
  generateLilyPads (fun _ => r) (fun _ => 1%float) (fun _ => 0%float)
                   PrimFloat.sqrt (fun a _ => (a * a)%float).

(** With [r = 0.5] every cell is tried: a grid of pads 250 apart, and no
    connecting pad fits.  With [r = 0.9] no cell is tried: the center pad
    and three connecting pads in a row to its right. *)
Definition example_grid : list LilyPad.t :=
  Eval vm_compute in default [] (example_pads 0.5).
Definition example_connectors : list LilyPad.t :=
  Eval vm_compute in default [] (example_pads 0.9).

End World.

(** * Proofs *)

Import Server Spec Invariant Evolution.

(** ** ProgressionModel *)

Section ProgressionFacts.

Lemma levelLoop_unfold xp level xpRequired :
  levelLoop xp level xpRequired =
  if decide (level < 10) then
    let xpRequired' := num_add xpRequired (getRequiredXPForLevel level) in
    if num_ltb xp xpRequired' then level else levelLoop xp (level + 1) xpRequired'
  else 10.
Proof.
  rewrite levelLoop_equation_1.
  destruct (Z_lt_dec level 10); simpl; case_decide; try lia; reflexivity.
Qed.

(** The nine iterations of the loop, unrolled: the thresholds are the
    cumulative requirements 5, 13, 24, ..., 153. *)
Lemma getLevelFromXP_closed xp :
  getLevelFromXP xp =
    if xp <? 5 then 1 else if xp <? 13 then 2 else if xp <? 24 then 3
    else if xp <? 38 then 4 else if xp <? 55 then 5 else if xp <? 75 then 6
    else if xp <? 98 then 7 else if xp <? 124 then 8 else if xp <? 153 then 9
    else 10.
Proof.
  unfold getLevelFromXP.
  repeat (rewrite levelLoop_unfold; simpl; try (destruct (xp <? _); [reflexivity|])).
  reflexivity.
Qed.

Lemma getLevelFromXP_range xp : 1 <= getLevelFromXP xp <= 10.
Proof.
  rewrite getLevelFromXP_closed.
  repeat (destruct (xp <? _); [lia|]). lia.
Qed.

Lemma getLevelFromXP_mono xp1 xp2 :
  xp1 <= xp2 -> getLevelFromXP xp1 <= getLevelFromXP xp2.
Proof.
  intros Hle. rewrite !getLevelFromXP_closed.
  repeat match goal with
         | |- context [?a <? ?b] => destruct (Z.ltb_spec a b)
         end; lia.
Qed.

Lemma getLevelFromXP_saturates xp : 153 <= xp -> getLevelFromXP xp = 10.
Proof.
  intros Hle. rewrite getLevelFromXP_closed.
  repeat match goal with
         | |- context [?a <? ?b] => destruct (Z.ltb_spec a b)
         end; lia.
Qed.

Lemma cumulativeXP_values :
  map cumulativeXP [0; 1; 2; 3; 4; 5; 6; 7; 8; 9; 10] =
  [Fin 0; Fin 5; Fin 13; Fin 24; Fin 38; Fin 55; Fin 75; Fin 98; Fin 124;
   Fin 153; Infinity].
Proof. reflexivity. Qed.

End ProgressionFacts.

Example getLevelFromXP_0 : getLevelFromXP 0 = 1.
Proof. reflexivity. Qed.
Example getLevelFromXP_4 : getLevelFromXP 4 = 1.
Proof. reflexivity. Qed.
Example getLevelFromXP_5 : getLevelFromXP 5 = 2.
Proof. reflexivity. Qed.
Example getLevelFromXP_152 : getLevelFromXP 152 = 9.
Proof. vm_compute. reflexivity. Qed.
Example getLevelFromXP_153 : getLevelFromXP 153 = 10.
Proof. vm_compute. reflexivity. Qed.

(** C3, as the specification words it, fails: with the cumulative
    requirement taken over the levels [1..L-1], the smallest level whose
    bound exceeds [xp = 0] is 2 (the empty sum 0 does not exceed 0), while
    [getLevelFromXP 0] is 1. *)
Lemma levelFromXp_spec_wording_fails :
  0 <= 0 /\ levelFromXp_spec 0 2 /\ ~ levelFromXp_spec 0 (getLevelFromXP 0).
Proof.
  split; [lia|]. split.
  - exists 2. repeat split; try lia; try reflexivity.
    intros L' HL'. assert (L' = 1) as -> by lia. vm_compute. discriminate.
  - intros (L & HL & Hlt & _ & Hr).
    change (getLevelFromXP 0) with 1 in Hr.
    assert (L = 1) as -> by lia.
    vm_compute in Hlt. discriminate.
Qed.

(** C3 (amended): for every [xp >= 0], [getLevelFromXP xp] is the smallest
    level [L] such that the cumulative required XP for the levels [1..L]
    exceeds [xp], capped at 10. *)
Theorem getLevelFromXP_smallest_level (xp : Z) :
  0 <= xp -> smallest_level_capped cumulativeXP xp (getLevelFromXP xp).
Proof.
  intros _.
  assert (cumulativeXP 1 = Fin 5) as H1 by reflexivity.
  assert (cumulativeXP 2 = Fin 13) as H2 by reflexivity.
  assert (cumulativeXP 3 = Fin 24) as H3 by reflexivity.
  assert (cumulativeXP 4 = Fin 38) as H4 by reflexivity.
  assert (cumulativeXP 5 = Fin 55) as H5 by reflexivity.
  assert (cumulativeXP 6 = Fin 75) as H6 by reflexivity.
  assert (cumulativeXP 7 = Fin 98) as H7 by reflexivity.
  assert (cumulativeXP 8 = Fin 124) as H8 by reflexivity.
  assert (cumulativeXP 9 = Fin 153) as H9 by reflexivity.
  assert (cumulativeXP 10 = Infinity) as H10 by reflexivity.
  assert (forall L L', 1 <= L' < L -> 1 <= L <= 10 ->
            L' = 1 \/ L' = 2 \/ L' = 3 \/ L' = 4 \/ L' = 5 \/ L' = 6 \/
            L' = 7 \/ L' = 8 \/ L' = 9) as Hcases by (intros; lia).
  rewrite getLevelFromXP_closed. unfold smallest_level_capped, num_lt.
  repeat match goal with
         | |- context [?a <? ?b] => destruct (Z.ltb_spec a b)
         end;
    match goal with
    | |- exists L, _ /\ _ /\ _ /\ ?r = _ => exists r
    end;
    (split; [lia|]); (split; [|split; [|reflexivity]]);
    try (intros L' HL'; destruct (Hcases _ _ HL' ltac:(lia)) as
            [->|[->|[->|[->|[->|[->|[->|[->| ->]]]]]]]]; try lia);
    rewrite ?H1, ?H2, ?H3, ?H4, ?H5, ?H6, ?H7, ?H8, ?H9, ?H10; simpl;
    rewrite ?Z.ltb_lt, ?Z.ltb_nlt; try lia; try reflexivity.
Qed.

Lemma getLevelFromXP_smallest_level_witness :
  smallest_level_capped cumulativeXP 7 (getLevelFromXP 7).
Proof. apply (getLevelFromXP_smallest_level 7). lia. Defined.

(** C4: for every level [L >= 1] below the cap, the requirement is
    [3*L + 2]; from the cap of 10 on it is [Infinity], so that xp beyond
    the requirement of the cap (the cumulative 153) never advances the
    level further: the level stays 10. *)
Theorem getRequiredXPForLevel_formula (L : Z) :
  1 <= L ->
  (L < 10 -> getRequiredXPForLevel L = Fin (3 * L + 2)) /\
  (10 <= L -> getRequiredXPForLevel L = Infinity) /\
  cumulativeXP 9 = Fin 153 /\
  (forall xp, 153 <= xp -> getLevelFromXP xp = 10) /\
  (forall xp, getLevelFromXP xp <= 10).
Proof.
  intros HL. unfold getRequiredXPForLevel. repeat split.
  - intros Hlt. destruct (Z.leb_spec 10 L); [lia|]. f_equal. lia.
  - intros Hge. destruct (Z.leb_spec 10 L); [reflexivity|lia].
  - apply getLevelFromXP_saturates.
  - intros xp. apply getLevelFromXP_range.
Qed.

Lemma getRequiredXPForLevel_formula_witness :
  getRequiredXPForLevel 4 = Fin 14 /\ getRequiredXPForLevel 10 = Infinity.
Proof.
  split.
  - apply (getRequiredXPForLevel_formula 4); lia.
  - apply (getRequiredXPForLevel_formula 10); lia.
Defined.

(** C9: [getLevelFromXP] is monotonically non-decreasing in xp, returns
    exactly 10 for every xp at or above the cumulative requirement through
    level 10 (153), and never returns a level above 10. *)
Theorem getLevelFromXP_monotone_saturating :
  (forall xp1 xp2, xp1 <= xp2 -> getLevelFromXP xp1 <= getLevelFromXP xp2) /\
  (forall xp c, cumulativeXP 9 = Fin c -> c <= xp -> getLevelFromXP xp = 10) /\
  (forall xp, getLevelFromXP xp <= 10).
Proof.
  repeat split.
  - apply getLevelFromXP_mono.
  - intros xp c Hc Hle. apply getLevelFromXP_saturates.
    vm_compute in Hc. injection Hc as <-. exact Hle.
  - apply getLevelFromXP_range.
Qed.

Lemma getLevelFromXP_monotone_saturating_witness :
  getLevelFromXP 12 <= getLevelFromXP 13 /\ getLevelFromXP 153 = 10.
Proof.
  destruct getLevelFromXP_monotone_saturating as (Hmono & Hsat & _).
  split.
  - apply Hmono. lia.
  - apply (Hsat 153 153); [reflexivity | lia].
Defined.

(** ** Runs *)

Section RunFacts.

Lemma reachable_run trace s s' out :
  reachable s -> run trace s = Some (s', out) -> reachable s'.
Proof.
  revert s s' out. induction trace as [|[[now sid] ev] rest IH]; intros s s' out Hs; simpl.
  - intros [= <- _]. done.
  - destruct (step now sid ev s) as [[s1 out1]|] eqn:Hstep; simpl; [|done].
    destruct (run rest s1) as [[s2 out2]|] eqn:Hrun; simpl; [|done].
    intros [= <- _]. eapply IH; [|done]. eapply reachable_step; eauto.
Qed.

Lemma reachable_state_after trace s :
  reachable s -> reachable (Scenario.state_after trace s).
Proof.
  intros Hs. unfold Scenario.state_after.
  destruct (run trace s) as [[s' out]|] eqn:Hrun; [|done].
  eapply reachable_run; eauto.
Qed.

Lemma reachable_connected : reachable Scenario.connected.
Proof.
  assert (Scenario.connected =
          Scenario.state_after Scenario.connected_trace Scenario.world) as ->
    by (vm_compute; reflexivity).
  apply reachable_state_after, reachable_init.
Qed.

Lemma reachable_joined : reachable Scenario.joined.
Proof.
  assert (Scenario.joined =
          Scenario.state_after Scenario.joined_trace Scenario.connected) as ->
    by (vm_compute; reflexivity).
  apply reachable_state_after, reachable_connected.
Qed.

Lemma reachable_a_level2 : reachable Scenario.a_level2.
Proof.
  assert (Scenario.a_level2 =
          Scenario.state_after Scenario.a_level2_trace Scenario.joined) as ->
    by (vm_compute; reflexivity).
  apply reachable_state_after, reachable_joined.
Qed.

Lemma reachable_three_joined : reachable Scenario.three_joined.
Proof.
  assert (Scenario.three_joined =
          Scenario.state_after Scenario.three_joined_trace Scenario.joined) as ->
    by (vm_compute; reflexivity).
  apply reachable_state_after, reachable_joined.
Qed.

Lemma reachable_a_dead : reachable Scenario.a_dead.
Proof.
  assert (Scenario.a_dead =
          Scenario.state_after Scenario.a_dead_trace Scenario.joined) as ->
    by (vm_compute; reflexivity).
  apply reachable_state_after, reachable_joined.
Qed.

End RunFacts.

(** ** The registry as a JS [Map] *)

Section JsMapFacts.
Context {V : Type}.
Implicit Types (m : list (string * V)) (k : string) (v : V).

Lemma get_set_eq k v m : JsMap.get k (JsMap.set k v m) = Some v.
Proof.
  induction m as [|[k' v'] m IH]; simpl.
  - case_decide; congruence.
  - case_decide; simpl; case_decide; congruence.
Qed.

Lemma get_set_ne k k' v m : k ≠ k' -> JsMap.get k' (JsMap.set k v m) = JsMap.get k' m.
Proof.
  intros Hne. induction m as [|[k0 v0] m IH]; simpl.
  - case_decide; congruence.
  - case_decide; simpl; repeat case_decide; congruence.
Qed.

Lemma get_delete_eq k m : JsMap.get k (JsMap.delete k m) = None.
Proof.
  induction m as [|[k0 v0] m IH]; simpl; [done|].
  case_decide; simpl; [done|]. case_decide; congruence.
Qed.

Lemma get_delete_ne k k' m : k ≠ k' -> JsMap.get k' (JsMap.delete k m) = JsMap.get k' m.
Proof.
  intros Hne. induction m as [|[k0 v0] m IH]; simpl; [done|].
  case_decide; simpl; repeat case_decide; congruence.
Qed.

Lemma get_Some_elem_of k v m : JsMap.get k m = Some v -> (k, v) ∈ m.
Proof.
  induction m as [|[k0 v0] m IH]; simpl; [done|].
  case_decide; intros Hg.
  - injection Hg as <-. subst. left.
  - right. auto.
Qed.

Lemma get_None_not_elem_of k m : JsMap.get k m = None -> k ∉ m.*1.
Proof.
  induction m as [|[k0 v0] m IH]; simpl.
  - intros _. apply not_elem_of_nil.
  - case_decide; [done|]. intros Hg. apply not_elem_of_cons. auto.
Qed.

Lemma elem_of_get k v m : NoDup m.*1 -> (k, v) ∈ m -> JsMap.get k m = Some v.
Proof.
  induction m as [|[k0 v0] m IH]; simpl.
  - intros _ H. by apply elem_of_nil in H.
  - rewrite NoDup_cons. intros [Hnin Hnd] Hin.
    apply elem_of_cons in Hin as [Heq|Hin].
    + injection Heq as <- <-. by case_decide.
    + case_decide; [|auto]. subst k0. exfalso. apply Hnin.
      apply list_elem_of_fmap. by exists (k, v).
Qed.

Lemma elem_of_set e k v m : e ∈ JsMap.set k v m -> e = (k, v) \/ e ∈ m.
Proof.
  induction m as [|[k0 v0] m IH]; simpl.
  - intros H. apply list_elem_of_singleton in H. by left.
  - case_decide.
    + subst k0. intros H. apply elem_of_cons in H as [->|H]; [by left|].
      right. by right.
    + intros H'. apply elem_of_cons in H' as [->|H']; [right; left|].
      destruct (IH H') as [->|?]; [by left|right; by right].
Qed.

Lemma set_keys k v m :
  (JsMap.set k v m).*1 = if decide (k ∈ m.*1) then m.*1 else m.*1 ++ [k].
Proof.
  induction m as [|[k0 v0] m IH].
  - rewrite decide_False by apply not_elem_of_nil. done.
  - cbn [JsMap.set fmap list_fmap fst].
    destruct (decide (k0 = k)) as [->|Hk]; cbn [fmap list_fmap fst].
    + rewrite decide_True by left. done.
    + rewrite IH. destruct (decide (k ∈ m.*1)) as [Hin|Hin].
      * rewrite decide_True by (by right). done.
      * rewrite decide_False; [done|].
        intros [?|?]%elem_of_cons; congruence.
Qed.

Lemma set_NoDup_keys k v m : NoDup m.*1 -> NoDup (JsMap.set k v m).*1.
Proof.
  intros Hnd. rewrite set_keys. case_decide; [done|].
  apply NoDup_app. repeat split; [done| |apply NoDup_singleton].
  intros x Hx Hx'. apply list_elem_of_singleton in Hx'. by subst.
Qed.

Lemma set_NoDup_values k v m : NoDup m.*2 -> v ∉ m.*2 -> NoDup (JsMap.set k v m).*2.
Proof.
  induction m as [|[k0 v0] m IH]; simpl.
  - intros _ _. apply NoDup_singleton.
  - rewrite NoDup_cons, not_elem_of_cons. intros [Hv0 Hnd] [Hne Hv].
    case_decide; simpl; apply NoDup_cons; split; auto.
    intros Hin. apply list_elem_of_fmap in Hin as ([k1 v1] & Heq & Hin).
    simpl in Heq. subst v1.
    apply elem_of_set in Hin as [Heq|Hin]; [congruence|].
    apply Hv0. apply list_elem_of_fmap. by exists (k1, v0).
Qed.

Lemma delete_sublist k m : sublist (JsMap.delete k m) m.
Proof.
  induction m as [|[k0 v0] m IH]; simpl; [done|].
  case_decide; [by apply sublist_cons|by apply sublist_skip].
Qed.

Lemma elem_of_delete e k m : e ∈ JsMap.delete k m -> e ∈ m /\ e.1 ≠ k.
Proof.
  induction m as [|[k0 v0] m IH]; simpl.
  - intros H. by apply elem_of_nil in H.
  - case_decide.
    + intros H'. destruct (IH H'). split; [by right|done].
    + intros H'. apply elem_of_cons in H' as [->|H'].
      * split; [left|done].
      * destruct (IH H'). split; [by right|done].
Qed.

Lemma elem_of_delete_ne e k m : e ∈ m -> e.1 ≠ k -> e ∈ JsMap.delete k m.
Proof.
  induction m as [|[k0 v0] m IH]; simpl; [done|].
  intros Hin Hne. apply elem_of_cons in Hin as [->|Hin].
  - simpl in Hne. case_decide; [done|left].
  - case_decide; [auto|right; auto].
Qed.

Lemma delete_NoDup_keys k m : NoDup m.*1 -> NoDup (JsMap.delete k m).*1.
Proof. intros H. eapply sublist_NoDup; [exact H|apply fmap_sublist, delete_sublist]. Qed.

Lemma delete_NoDup_values k m : NoDup m.*2 -> NoDup (JsMap.delete k m).*2.
Proof. intros H. eapply sublist_NoDup; [exact H|apply fmap_sublist, delete_sublist]. Qed.

End JsMapFacts.

(** ** moveToLilyPad *)

Section MoveFacts.
Implicit Types (s : State) (h : list Player.t).

Lemma find_pad_None padId s :
  find_pad padId s = None <-> forall pad, pad ∈ lilyPads s -> LilyPad.id pad ≠ padId.
Proof.
  unfold find_pad. rewrite fmap_None, list_find_None, Forall_forall. done.
Qed.

Lemma find_pad_Some padId s pad :
  find_pad padId s = Some pad -> pad ∈ lilyPads s /\ LilyPad.id pad = padId.
Proof.
  unfold find_pad. intros Hf. apply fmap_Some in Hf as ([i pad'] & Hf & ->).
  apply list_find_Some in Hf as (Hl & Hid & _). simpl.
  split; [|done]. eapply list_elem_of_lookup_2; eauto.
Qed.

(** Whatever holds of the loop state before the push loop and is kept
    by one iteration holds after it. *)
Lemma push_loop_invariant (P : list Player.t * list Timer * list Out -> Prop)
    currentTime sid r targetPad acc entries :
  P acc ->
  (forall acc' e, e ∈ entries -> P acc' -> P (push_step currentTime sid r targetPad acc' e)) ->
  P (foldl (push_step currentTime sid r targetPad) acc entries).
Proof.
  revert acc. induction entries as [|e entries IH]; intros acc Hacc Hstep; simpl; [done|].
  apply IH.
  - apply Hstep; [left|done].
  - intros acc' e' He'. apply Hstep. by right.
Qed.

Lemma push_step_length currentTime sid r targetPad acc e :
  length (push_step currentTime sid r targetPad acc e).1.1 = length acc.1.1.
Proof.
  destruct acc as [[h ts] out]. unfold push_step. simpl.
  destruct (h !! e.2) as [po|]; [|done].
  destruct (h !! r) as [pl|]; [|done].
  destruct (pushable _ _ _ _ _ _); [|done].
  simpl. apply length_insert.
Qed.

Lemma push_loop_length currentTime sid r targetPad s :
  length (push_loop currentTime sid r targetPad s).1.1 = length (heap s).
Proof.
  unfold push_loop.
  apply (push_loop_invariant (fun acc => length acc.1.1 = length (heap s))); [done|].
  intros acc e _ Hacc. by rewrite push_step_length.
Qed.

End MoveFacts.

(** C8: a [moveToLilyPad] event changes nothing and emits nothing if the
    player is unknown, is swimming, or the pad id is unknown; on success
    the mover's position is exactly the destination pad's coordinates and
    its health and maxHealth are what they were. *)
Theorem moveToLilyPad_frame (now : Z) (sid padId : string) (s : State) :
  (player_of s sid = None -> on_moveToLilyPad now sid padId s = (s, [])) /\
  (forall p, player_of s sid = Some p -> Player.isSwimming p = true ->
             on_moveToLilyPad now sid padId s = (s, [])) /\
  ((forall pad, pad ∈ lilyPads s -> LilyPad.id pad ≠ padId) ->
   on_moveToLilyPad now sid padId s = (s, [])) /\
  (forall p targetPad,
      player_of s sid = Some p -> Player.isSwimming p = false ->
      find_pad padId s = Some targetPad ->
      exists p',
        player_of (on_moveToLilyPad now sid padId s).1 sid = Some p' /\
        Player.x p' = LilyPad.x targetPad /\
        Player.y p' = LilyPad.y targetPad /\
        Player.health p' = Player.health p /\
        Player.maxHealth p' = Player.maxHealth p).
Proof.
  unfold on_moveToLilyPad, player_of. repeat split.
  - destruct (player_ref s sid) as [r|]; simpl; [|done].
    by intros ->.
  - intros p Hp Hswim.
    destruct (player_ref s sid) as [r|]; simpl in *; [|done].
    rewrite Hp, Hswim. done.
  - intros Hpad. apply find_pad_None in Hpad. rewrite Hpad.
    destruct (player_ref s sid) as [r|]; [|done].
    destruct (heap s !! r) as [p|]; [|done].
    by destruct (Player.isSwimming p).
  - intros p targetPad Hp Hswim Hpad.
    destruct (player_ref s sid) as [r|] eqn:Hr; simpl in Hp; [|done].
    rewrite Hp, Hswim, Hpad.
    pose proof (push_loop_length now sid r targetPad s) as Hlen.
    destruct (push_loop now sid r targetPad s) as [[h1 ts1] out1]. simpl in *.
    unfold player_of, player_ref in *. simpl. rewrite Hr. simpl.
    destruct (lookup_lt_is_Some_2 h1 r) as [q Hq].
    { rewrite Hlen. eapply lookup_lt_Some; eauto. }
    rewrite list_lookup_alter, Hq. simpl. rewrite decide_True by done.
    eexists. split; [reflexivity|]. done.
Qed.

Lemma moveToLilyPad_frame_witness :
  on_moveToLilyPad 1000 "c" "pad-center" Scenario.joined = (Scenario.joined, []) /\
  exists p',
    player_of (on_moveToLilyPad 5000 "a" "pad-0-0" Scenario.joined).1 "a" = Some p' /\
    Player.x p' = LilyPad.x Scenario.pad1 /\ Player.y p' = LilyPad.y Scenario.pad1 /\
    Player.health p' = 50 /\ Player.maxHealth p' = 50.
Proof.
  split.
  - destruct (moveToLilyPad_frame 1000 "c" "pad-center" Scenario.joined) as (Hunknown & _).
    apply Hunknown. vm_compute. reflexivity.
  - destruct (moveToLilyPad_frame 5000 "a" "pad-0-0" Scenario.joined) as (_ & _ & _ & Hok).
    apply (Hok (Player.fresh "a" "A" centerPad) Scenario.pad1);
      vm_compute; reflexivity.
Defined.

(** ** catchFly *)

Section CatchFacts.

Lemma findIndex_fly_None flyId s :
  findIndex_fly flyId s = None <-> forall fly, fly ∈ flies s -> Fly.id fly ≠ flyId.
Proof.
  unfold findIndex_fly. rewrite fmap_None, list_find_None, Forall_forall. done.
Qed.

Lemma findIndex_fly_Some flyId s i :
  findIndex_fly flyId s = Some i ->
  exists fly, flies s !! i = Some fly /\ Fly.id fly = flyId.
Proof.
  unfold findIndex_fly. intros Hf. apply fmap_Some in Hf as ([i' fly] & Hf & ->).
  apply list_find_Some in Hf as (Hl & Hid & _). eauto.
Qed.

End CatchFacts.

(** C6, as stated, fails: a connection without a registered player (one
    that never joined, or whose player died) names a fly that is present,
    and the handler returns before touching the population. *)
Lemma catchFly_unregistered_keeps_fly :
  let s := Scenario.connected in
  let s' := (on_catchFly "a" "fly-1" Scenario.fly2 s).1 in
  reachable s /\
  (exists fly, fly ∈ flies s /\ Fly.id fly = "fly-1") /\
  flies s' = flies s /\
  ~ catch_replaces s "fly-1" Scenario.fly2 s'.
Proof.
  repeat split.
  - apply reachable_connected.
  - exists Scenario.fly1. split; [left|reflexivity].
  - intros (i & fly & Hi & Hid & Hfl). vm_compute in Hfl.
    destruct i as [|i]; vm_compute in Hi; [|discriminate].
    vm_compute in Hfl. discriminate.
Qed.

(** C6 (amended): for every [catchFly] event of a registered player that
    names a fly id present in the population, exactly one fly (one with
    that id) is removed and exactly the freshly generated fly is added, so
    the size of the population is unchanged; if the fly id is unknown, or
    the player is not registered, nothing changes. *)
Theorem catchFly_population (sid flyId : string) (generated : Fly.t) (s : State) :
  (forall p, player_of s sid = Some p ->
             (exists fly, fly ∈ flies s /\ Fly.id fly = flyId) ->
             let s' := (on_catchFly sid flyId generated s).1 in
             catch_replaces s flyId generated s' /\
             length (flies s') = length (flies s)) /\
  ((forall fly, fly ∈ flies s -> Fly.id fly ≠ flyId) ->
   on_catchFly sid flyId generated s = (s, [])) /\
  (player_of s sid = None -> on_catchFly sid flyId generated s = (s, [])).
Proof.
  unfold on_catchFly, player_of. split; [|split].
  - intros p Hp (fly & Hin & Hid).
    destruct (player_ref s sid) as [r|]; simpl in Hp; [|done].
    rewrite Hp.
    destruct (findIndex_fly flyId s) as [i|] eqn:Hi.
    + destruct (findIndex_fly_Some _ _ _ Hi) as (fly' & Hl & Hid').
      simpl. split.
      * exists i, fly'. done.
      * rewrite length_app, length_delete by eauto. simpl.
        apply lookup_lt_Some in Hl. lia.
    + rewrite findIndex_fly_None in Hi. by destruct (Hi fly Hin).
  - intros Hno. apply findIndex_fly_None in Hno. rewrite Hno.
    destruct (player_ref s sid) as [r|]; [|done].
    by destruct (heap s !! r).
  - destruct (player_ref s sid) as [r|]; simpl; [|done].
    by intros ->.
Qed.

Lemma catchFly_population_witness :
  let s' := (on_catchFly "a" "fly-1" Scenario.fly2 Scenario.joined).1 in
  catch_replaces Scenario.joined "fly-1" Scenario.fly2 s' /\
  length (flies s') = length (flies Scenario.joined).
Proof.
  destruct (catchFly_population "a" "fly-1" Scenario.fly2 Scenario.joined) as (Hcatch & _).
  eapply Hcatch.
  - vm_compute. reflexivity.
  - exists Scenario.fly1. split; [left|reflexivity].
Defined.

(** ** Objects, timers and the store *)

Section StoreFacts.
Implicit Types (h : list Player.t) (ts : list Timer) (p : Player.t) (r : ref).

Lemma timers_ok_alter f r h ts :
  (forall p, h !! r = Some p -> same_push p (f p)) ->
  timers_ok h ts -> timers_ok (alter f r h) ts.
Proof.
  intros Hf [Hsw Hnd Hts]. split; [|done|].
  - intros t Ht. destruct (Hsw t Ht) as (p & Hp & Hswim & Hdue).
    destruct (decide (r = otherPlayer t)) as [->|Hne].
    + exists (f p). rewrite list_lookup_alter_eq, Hp. split; [done|].
      destruct (Hf p Hp) as [-> ->]. done.
    + exists p. by rewrite list_lookup_alter_ne.
  - intros r' p Hp Hswim.
    destruct (decide (r = r')) as [->|Hne].
    + rewrite list_lookup_alter_eq in Hp.
      apply fmap_Some in Hp as (q & Hq & ->).
      apply (Hts r' q Hq). destruct (Hf q Hq) as [<- _]. done.
    + rewrite list_lookup_alter_ne in Hp by done. eauto.
Qed.

Lemma timers_ok_insert r p p' h ts :
  h !! r = Some p -> same_push p p' ->
  timers_ok h ts -> timers_ok (<[r := p']> h) ts.
Proof.
  intros Hp Hsame. rewrite list_insert_alter. apply timers_ok_alter.
  intros q Hq. congruence.
Qed.

Lemma timers_ok_alloc p h ts :
  Player.isSwimming p = false ->
  timers_ok h ts -> timers_ok (h ++ [p]) ts.
Proof.
  intros Hp [Hsw Hnd Hts]. split; [|done|].
  - intros t Ht. destruct (Hsw t Ht) as (q & Hq & ?). exists q.
    split; [|done]. by apply lookup_app_l_Some.
  - intros r q Hq Hswim.
    apply lookup_snoc_Some in Hq as [[_ Hq]|[_ <-]]; [eauto|congruence].
Qed.

Lemma timers_ok_push currentTime otherId r p h ts :
  h !! r = Some p -> Player.isSwimming p = false ->
  timers_ok h ts ->
  timers_ok (<[r := Player.set_lastPushTime currentTime (Player.set_isSwimming true p)]> h)
            (ts ++ [mkTimer (currentTime + 1000) otherId r]).
Proof.
  intros Hp Hns [Hsw Hnd Hts].
  assert (r ∉ otherPlayer <$> ts) as Hfresh.
  { intros Hin. apply list_elem_of_fmap in Hin as (t & -> & Ht).
    destruct (Hsw t Ht) as (q & Hq & Hswim & _). congruence. }
  assert (r < length h)%nat as Hlt by (eapply lookup_lt_Some; eauto).
  split.
  - intros t Ht. apply elem_of_app in Ht as [Ht|Ht].
    + destruct (Hsw t Ht) as (q & Hq & Hswim & Hdue).
      exists q. rewrite list_lookup_insert_ne; [done|].
      intros ->. congruence.
    + apply list_elem_of_singleton in Ht as ->. simpl.
      eexists. rewrite list_lookup_insert_eq by done. done.
  - rewrite fmap_app. apply NoDup_app. repeat split; [done| |apply NoDup_singleton].
    intros x Hx Hx'. apply list_elem_of_singleton in Hx'. simpl in Hx'. by subst.
  - intros r' q Hq Hswim. rewrite fmap_app. apply elem_of_app.
    destruct (decide (r = r')) as [->|Hne].
    + right. simpl. left.
    + left. rewrite list_lookup_insert_ne in Hq by done. eauto.
Qed.

End StoreFacts.

(** ** Timers *)

Section TimerFacts.
Implicit Types (h : list Player.t) (ts : list Timer) (p : Player.t) (r : ref).

Lemma elem_of_List_filter {A} (f : A -> bool) (l : list A) x :
  x ∈ List.filter f l <-> x ∈ l /\ f x = true.
Proof. rewrite !list_elem_of_In. apply filter_In. Qed.

Lemma set_isSwimming_id p b : Player.isSwimming p = b -> Player.set_isSwimming b p = p.
Proof. intros <-. by destruct p. Qed.

(** Whatever the branch, the callback leaves the store as the one in
    which its object is not swimming. *)
Lemma fire_heap h out t :
  (fire (h, out) t).1 = alter (Player.set_isSwimming false) (otherPlayer t) h.
Proof.
  unfold fire. destruct (h !! otherPlayer t) as [p|] eqn:Hp.
  - destruct (Player.isSwimming p) eqn:Hswim; simpl.
    + rewrite list_insert_alter. apply list_eq. intros i.
      rewrite !list_lookup_alter. case_decide; [|done]. subst. by rewrite Hp.
    + apply list_eq. intros i. rewrite list_lookup_alter. case_decide; [|done].
      subst. rewrite Hp. simpl. by rewrite set_isSwimming_id.
  - simpl. apply list_eq. intros i. rewrite list_lookup_alter. case_decide; [|done].
    subst. by rewrite Hp.
Qed.

Lemma fire_all_lookup ex h out r :
  (foldl fire (h, out) ex).1 !! r =
    if decide (r ∈ otherPlayer <$> ex)
    then Player.set_isSwimming false <$> h !! r else h !! r.
Proof.
  revert h out. induction ex as [|t ex IH]; intros h out.
  - rewrite decide_False by (rewrite fmap_nil; apply not_elem_of_nil). done.
  - cbn [foldl]. destruct (fire (h, out) t) as [h1 out1] eqn:Hfire.
    assert (h1 = alter (Player.set_isSwimming false) (otherPlayer t) h) as ->.
    { by rewrite <- (fire_heap h out t), Hfire. }
    rewrite IH, fmap_cons, list_lookup_alter.
    destruct (decide (r ∈ otherPlayer <$> ex)) as [Hin|Hnin];
      destruct (decide (otherPlayer t = r)) as [Heq|Hne];
      destruct (decide (r ∈ otherPlayer t :: (otherPlayer <$> ex))) as [Hin'|Hnin'];
      try done.
    all: try (subst; by destruct (h !! otherPlayer t)).
    all: try (exfalso; match goal with
                       | H : _ ∉ _ :: _ |- _ => apply H; apply elem_of_cons; by auto
                       end).
    all: match goal with
         | H : _ ∈ _ :: _ |- _ => apply elem_of_cons in H as [?|?]; congruence
         end.
Qed.

Lemma fire_all_length ex h out : length (foldl fire (h, out) ex).1 = length h.
Proof.
  revert h out. induction ex as [|t ex IH]; intros h out; [done|].
  cbn [foldl]. destruct (fire (h, out) t) as [h1 out1] eqn:Hfire.
  rewrite IH. assert (h1 = (fire (h, out) t).1) as -> by (by rewrite Hfire).
  rewrite fire_heap. apply length_alter.
Qed.

Lemma run_timers_players now s : players (run_timers now s).1 = players s.
Proof. unfold run_timers. by destruct (foldl fire _ _). Qed.

Lemma run_timers_frame now s :
  let s' := (run_timers now s).1 in
  players s' = players s /\ flies s' = flies s /\ lilyPads s' = lilyPads s /\
  playerNames s' = playerNames s /\ takenUsernames s' = takenUsernames s /\
  sockets s' = sockets s.
Proof. unfold run_timers. by destruct (foldl fire _ _). Qed.

Lemma run_timers_lookup now s r :
  heap (run_timers now s).1 !! r =
    if decide (r ∈ otherPlayer <$> List.filter (fun t => due t <=? now) (timers s))
    then Player.set_isSwimming false <$> heap s !! r else heap s !! r.
Proof.
  unfold run_timers.
  pose proof (fire_all_lookup (List.filter (fun t => due t <=? now) (timers s)) (heap s) [] r) as H.
  destruct (foldl fire _ _) as [h out]. exact H.
Qed.

Lemma run_timers_length now s : length (heap (run_timers now s).1) = length (heap s).
Proof.
  unfold run_timers.
  pose proof (fire_all_length (List.filter (fun t => due t <=? now) (timers s)) (heap s) []) as H.
  destruct (foldl fire _ _) as [h out]. exact H.
Qed.

Lemma run_timers_timers now s :
  timers (run_timers now s).1 = List.filter (fun t => now <? due t) (timers s).
Proof. unfold run_timers. by destruct (foldl fire _ _). Qed.

(** The fields a timer does not write. *)
Lemma run_timers_object now s r p' :
  heap (run_timers now s).1 !! r = Some p' ->
  exists p, heap s !! r = Some p /\
            p' = Player.set_isSwimming (Player.isSwimming p') p.
Proof.
  rewrite run_timers_lookup. case_decide.
  - intros (p & Hp & ->)%fmap_Some. eauto.
  - intros Hp. exists p'. split; [done|]. by rewrite set_isSwimming_id.
Qed.

Lemma settled_run_timers now s : settled now (run_timers now s).1.
Proof.
  intros t. rewrite run_timers_timers, elem_of_List_filter.
  intros [_ Hlt]. by apply Z.ltb_lt.
Qed.

Lemma filter_settled now ts :
  (forall t, t ∈ ts -> now < due t) ->
  List.filter (fun t => due t <=? now) ts = [] /\
  List.filter (fun t => now <? due t) ts = ts.
Proof.
  induction ts as [|t ts IH]; intros Hset; [done|]. simpl.
  assert (now < due t) as Hlt by (apply Hset; left).
  destruct IH as [IH1 IH2]; [intros t' Ht'; apply Hset; by right|].
  destruct (Z.leb_spec (due t) now); [lia|].
  destruct (Z.ltb_spec now (due t)); [|lia].
  by rewrite IH2.
Qed.

Lemma run_timers_settled now s : settled now s -> run_timers now s = (s, []).
Proof.
  intros Hset. unfold run_timers.
  destruct (filter_settled now (timers s) Hset) as [-> ->].
  simpl. by destruct s.
Qed.

Lemma timers_ok_run_timers now s :
  timers_ok (heap s) (timers s) ->
  timers_ok (heap (run_timers now s).1) (timers (run_timers now s).1).
Proof.
  intros [Hsw Hnd Hts]. rewrite run_timers_timers.
  set (expired := List.filter (fun t => due t <=? now) (timers s)).
  set (pending := List.filter (fun t => now <? due t) (timers s)).
  assert (forall t, t ∈ timers s -> t ∈ expired \/ t ∈ pending) as Hsplit.
  { intros t Ht. unfold expired, pending. rewrite !elem_of_List_filter.
    destruct (Z.leb_spec (due t) now); [left|right]; split; try done.
    by apply Z.ltb_lt. }
  assert (forall t t', t ∈ expired -> t' ∈ pending -> otherPlayer t ≠ otherPlayer t') as Hdisj.
  { intros t t' Ht Ht' Heq. unfold expired, pending in *.
    rewrite elem_of_List_filter in Ht, Ht'.
    destruct Ht as [Ht Hd], Ht' as [Ht' Hd'].
    assert (t = t') as ->.
    { apply list_elem_of_lookup in Ht as [i Hi], Ht' as [j Hj].
      assert (i = j) as ->.
      { eapply NoDup_lookup; [exact Hnd| |]; rewrite list_lookup_fmap.
        - by rewrite Hi.
        - rewrite Hj. simpl. by rewrite Heq. }
      congruence. }
    apply Z.leb_le in Hd. apply Z.ltb_lt in Hd'. lia. }
  split.
  - intros t Ht.
    assert (t ∈ timers s) as Ht0.
    { unfold pending in Ht. rewrite elem_of_List_filter in Ht. tauto. }
    destruct (Hsw t Ht0) as (p & Hp & Hrest). exists p. split; [|done].
    rewrite run_timers_lookup. fold expired. rewrite decide_False; [done|].
    intros (t' & Heq & Ht')%list_elem_of_fmap. by apply (Hdisj t' t).
  - eapply sublist_NoDup; [exact Hnd|]. apply fmap_sublist.
    unfold pending. clear. induction (timers s) as [|t ts IH]; simpl; [done|].
    destruct (now <? due t); [by apply sublist_skip|by apply sublist_cons].
  - intros r p. rewrite run_timers_lookup. fold expired. case_decide as Hex.
    + intros (q & _ & ->)%fmap_Some. done.
    + intros Hp Hswim. specialize (Hts r p Hp Hswim).
      apply list_elem_of_fmap in Hts as (t & -> & Ht).
      apply list_elem_of_fmap. exists t. split; [done|].
      destruct (Hsplit t Ht) as [Hin|Hin]; [|done].
      exfalso. apply Hex. apply list_elem_of_fmap. eauto.
Qed.

End TimerFacts.

(** ** The invariant holds in every reachable state *)

Section WfFacts.
Implicit Types (s : State) (h : list Player.t) (p : Player.t).

Lemma NoDup_values_inj {V} (m : list (string * V)) e e' :
  NoDup m.*2 -> e ∈ m -> e' ∈ m -> e.2 = e'.2 -> e = e'.
Proof.
  intros Hnd He He' Heq.
  apply list_elem_of_lookup in He as [i Hi], He' as [j Hj].
  assert (i = j) as ->; [|congruence].
  eapply NoDup_lookup; [exact Hnd| |]; rewrite list_lookup_fmap.
  - by rewrite Hi.
  - rewrite Hj. simpl. by rewrite Heq.
Qed.

Lemma Some_fst {A B} (x : A * B) a b : Some x = Some (a, b) -> a = x.1.
Proof. by intros [= ->]. Qed.

Lemma healthy_fresh sid nm pad : healthy (Player.fresh sid nm pad).
Proof. unfold healthy. simpl. split; [lia|]. by exists 5. Qed.

Lemma wf_init pads fl : wf (init pads fl).
Proof.
  split; simpl; try done; try apply NoDup_nil_2;
    try (intros e He; by apply elem_of_nil in He);
    try (intros e p He; by apply elem_of_nil in He).
  split; simpl; [|apply NoDup_nil_2|done].
  intros t Ht. by apply elem_of_nil in Ht.
Qed.

(** [wf] reads the registry, the pads, the store and the timers only. *)
Lemma wf_ext s s' :
  players s' = players s -> lilyPads s' = lilyPads s ->
  heap s' = heap s -> timers s' = timers s -> wf s -> wf s'.
Proof.
  intros Hp Hl Hh Ht [? ? ? ? ? ? ?].
  split; rewrite ?Hp, ?Hl, ?Hh, ?Ht; done.
Qed.

(** A new object enters the registry under [sid]. *)
Lemma wf_alloc sid p s :
  healthy p -> 0 < Player.health p -> Player.isSwimming p = false ->
  wf s ->
  wf (set_players (JsMap.set sid (length (heap s)) (players s))
                  (set_heap (heap s ++ [p]) s)).
Proof.
  intros Hp Hpos Hns [Hpads Hrefs Hkeys Hvals Hh Halive Hts].
  split; simpl.
  - done.
  - intros e He. rewrite length_app. simpl.
    apply elem_of_set in He as [->|He]; simpl; [lia|].
    specialize (Hrefs e He). lia.
  - by apply set_NoDup_keys.
  - apply set_NoDup_values; [done|].
    intros (e & Heq & He)%list_elem_of_fmap. specialize (Hrefs e He). lia.
  - apply Forall_app. split; [done|]. by apply Forall_singleton.
  - intros e q He Hq. apply elem_of_set in He as [->|He]; simpl in *.
    + rewrite list_lookup_middle in Hq by done. by injection Hq as <-.
    + rewrite lookup_app_l in Hq by auto. eauto.
  - by apply timers_ok_alloc.
Qed.

(** An entry leaves the registry. *)
Lemma wf_delete sid s : wf s -> wf (set_players (JsMap.delete sid (players s)) s).
Proof.
  intros [Hpads Hrefs Hkeys Hvals Hh Halive Hts]. split; simpl; try done.
  - intros e [He _]%elem_of_delete. auto.
  - by apply delete_NoDup_keys.
  - by apply delete_NoDup_values.
  - intros e q [He _]%elem_of_delete. eauto.
Qed.

Lemma wf_on_disconnect sid sk s : wf s -> wf (on_disconnect sid sk s).1.
Proof.
  intros Hwf. unfold on_disconnect.
  destruct (JsMap.has sid (players s)); [|done]. simpl.
  eapply wf_ext; [| | | |apply (wf_delete sid s Hwf)];
    destruct (playerName sk) as [nm|]; try case_decide; done.
Qed.

Lemma wf_close_socket sid sk s : wf s -> wf (close_socket sid sk s).1.
Proof.
  intros Hwf. unfold close_socket.
  pose proof (wf_on_disconnect sid sk s Hwf) as H.
  destruct (on_disconnect sid sk s) as [s1 out]. simpl in *.
  eapply wf_ext; [| | | |exact H]; done.
Qed.

Lemma wf_on_newPlayer sid sk nm rnd s s' out :
  wf s -> on_newPlayer sid sk nm rnd s = Some (s', out) -> wf s'.
Proof.
  intros Hwf. unfold on_newPlayer.
  destruct (_ || _).
  - intros ->%Some_fst. by apply wf_close_socket.
  - destruct (findUnoccupiedLilyPad _ _) as [spawnPad|]; simpl; [|done].
    intros [= <- _].
    eapply wf_ext; [| | | |apply (wf_alloc sid (Player.fresh sid nm spawnPad) s)];
      try done.
    apply healthy_fresh.
Qed.

Lemma wf_on_respawn sid rnd s s' out :
  wf s -> on_respawn sid rnd s = Some (s', out) -> wf s'.
Proof.
  intros Hwf. unfold on_respawn.
  destruct (findUnoccupiedLilyPad _ _) as [spawnPad|]; simpl; [|done].
  intros [= <- _]. apply wf_alloc; try done. apply healthy_fresh.
Qed.

Lemma push_step_ok currentTime sid r targetPad h0 acc e :
  loop_ok h0 acc -> loop_ok h0 (push_step currentTime sid r targetPad acc e).
Proof.
  destruct acc as [[h ts] out]. intros (Hlen & Hobj & Hts). unfold push_step.
  destruct (h !! e.2) as [po|] eqn:Hpo; [|done].
  destruct (h !! r) as [pl|] eqn:Hpl; [|done].
  destruct (pushable _ _ _ _ _ _) eqn:Hpush; [|done].
  unfold pushable in Hpush. rewrite !andb_true_iff, negb_true_iff in Hpush.
  destruct Hpush as [[_ Hns] _].
  split; [|split]; simpl.
  - by rewrite length_insert.
  - intros r' p' Hp'. apply list_lookup_insert_Some in Hp' as [(<- & <- & _)|[_ Hp']].
    + destruct (Hobj _ _ Hpo) as (p & ? & ? & ?). exists p. done.
    + eauto.
  - by apply timers_ok_push.
Qed.

Lemma push_loop_ok currentTime sid r targetPad s :
  timers_ok (heap s) (timers s) ->
  loop_ok (heap s) (push_loop currentTime sid r targetPad s).
Proof.
  intros Hts. unfold push_loop. apply push_loop_invariant.
  - split; [done|]. split; [|done]. intros r' p' Hp'. exists p'. done.
  - intros acc e _. apply push_step_ok.
Qed.

Lemma wf_on_moveToLilyPad now sid padId s : wf s -> wf (on_moveToLilyPad now sid padId s).1.
Proof.
  intros Hwf. unfold on_moveToLilyPad.
  destruct (player_ref s sid) as [r|] eqn:Hr; [|done].
  destruct (heap s !! r) as [player|] eqn:Hplayer; [|done].
  destruct (Player.isSwimming player); [done|].
  destruct (find_pad padId s) as [targetPad|]; [|done].
  pose proof (push_loop_ok now sid r targetPad s (wf_timers s Hwf)) as (Hlen & Hobj & Hts).
  destruct (push_loop now sid r targetPad s) as [[h1 ts1] out1]. simpl in *.
  destruct Hwf as [Hpads Hrefs Hkeys Hvals Hh Halive _].
  assert (forall r' p', alter (fun p =>
              Player.set_maxHealth (Player.maxHealth player)
                (Player.set_health (Player.health player)
                   (Player.set_pos (LilyPad.x targetPad) (LilyPad.y targetPad) p))) r h1
              !! r' = Some p' ->
            exists p, heap s !! r' = Some p /\ Player.health p' = Player.health p /\
                      Player.maxHealth p' = Player.maxHealth p) as Hobj'.
  { intros r' p'. rewrite list_lookup_alter. case_decide as Heq.
    - subst r'. intros (q & Hq & ->)%fmap_Some. exists player. done.
    - apply Hobj. }
  split; simpl; try done.
  - intros e He. rewrite length_alter, Hlen. auto.
  - apply Forall_lookup. intros r' p' Hp'.
    destruct (Hobj' _ _ Hp') as (p & Hp & Hhp & Hmh).
    pose proof (Forall_lookup_1 _ _ _ _ Hh Hp) as Hgood.
    unfold healthy in *. by rewrite Hhp, Hmh.
  - intros e p' He Hp'. destruct (Hobj' _ _ Hp') as (p & Hp & -> & _). eauto.
  - apply timers_ok_alter; [|done]. intros q _. done.
Qed.

Lemma healthy_damaged p :
  healthy p -> healthy (Player.set_health (Z.max 0 (Player.health p - 10)) p).
Proof.
  unfold healthy. simpl. intros [Hr [k Hk]]. split; [lia|].
  destruct (Z.max_spec 0 (Player.health p - 10)) as [[_ ->]|[_ ->]].
  - exists (k - 1). lia.
  - by exists 0.
Qed.

Lemma wf_on_tongueAttack now sid sk targetId s :
  wf s -> wf (on_tongueAttack now sid sk targetId s).1.
Proof.
  intros Hwf. unfold on_tongueAttack.
  destruct (player_of s sid) as [attacker|]; [|done].
  destruct (player_ref s targetId) as [rt|] eqn:Hrt; [|done].
  destruct (heap s !! rt) as [target|] eqn:Htarget; [|done].
  destruct (_ <? 500); [done|].
  destruct Hwf as [Hpads Hrefs Hkeys Hvals Hh Halive Hts].
  apply get_Some_elem_of in Hrt.
  assert (rt < length (heap s))%nat as Hlt by (eapply lookup_lt_Some; eauto).
  pose proof (Forall_lookup_1 _ _ _ _ Hh Htarget) as Hgood.
  destruct (Z.leb_spec (Z.max 0 (Player.health target - 10)) 0) as [Hdead|Hlive];
    split; simpl; try done.
  - intros e [He _]%elem_of_delete. rewrite length_insert. auto.
  - by apply delete_NoDup_keys.
  - by apply delete_NoDup_values.
  - apply Forall_insert; [done|]. by apply healthy_damaged.
  - intros e q [He Hne]%elem_of_delete Hq.
    rewrite list_lookup_insert_ne in Hq; [eauto|].
    intros Heq. apply Hne.
    by rewrite <- (NoDup_values_inj _ (targetId, rt) e Hvals Hrt He Heq).
  - eapply timers_ok_insert; eauto. done.
  - intros e He. rewrite length_insert. auto.
  - apply Forall_insert; [done|]. by apply healthy_damaged.
  - intros e q He Hq.
    apply list_lookup_insert_Some in Hq as [(_ & <- & _)|[_ Hq]]; [done|eauto].
  - eapply timers_ok_insert; eauto. done.
Qed.

(** A registered object is replaced by one that is alive and has the
    same push state. *)
Lemma wf_update_object r p p' fl s :
  heap s !! r = Some p -> healthy p' -> 0 < Player.health p' -> same_push p p' ->
  wf s -> wf (set_flies fl (set_heap (<[r := p']> (heap s)) s)).
Proof.
  intros Hp Hgood Hpos Hsame [Hpads Hrefs Hkeys Hvals Hh Halive Hts].
  split; simpl; try done.
  - intros e He. rewrite length_insert. auto.
  - by apply Forall_insert.
  - intros e q He Hq.
    apply list_lookup_insert_Some in Hq as [(_ & <- & _)|[_ Hq]]; [done|eauto].
  - eapply timers_ok_insert; eauto.
Qed.

Lemma wf_on_catchFly sid flyId generated s : wf s -> wf (on_catchFly sid flyId generated s).1.
Proof.
  intros Hwf. unfold on_catchFly.
  destruct (player_ref s sid) as [r|] eqn:Hr; [|done].
  destruct (heap s !! r) as [player|] eqn:Hplayer; [|done].
  destruct (findIndex_fly flyId s) as [flyIndex|]; [|done].
  apply get_Some_elem_of in Hr.
  pose proof (Forall_lookup_1 _ _ _ _ (wf_healthy s Hwf) Hplayer) as Hgood.
  pose proof (wf_alive s Hwf _ _ Hr Hplayer) as Hpos.
  pose proof (getLevelFromXP_range (Player.xp player + 1)) as Hrange.
  cbn [fst]. eapply wf_update_object; [exact Hplayer| | | |exact Hwf]; simpl;
    destruct (Player.level player <? getLevelFromXP (Player.xp player + 1));
    unfold healthy; simpl; try done; try lia.
  split; [lia|]. exists (5 + (getLevelFromXP (Player.xp player + 1) - 1)). lia.
Qed.

Lemma wf_handle now sid ev s s' out :
  wf s -> handle now sid ev s = Some (s', out) -> wf s'.
Proof.
  intros Hwf. unfold handle.
  destruct (sockets s !! sid) as [sk|], ev;
    try (by intros [= <- _]); try (intros ->%Some_fst).
  - by apply (wf_on_newPlayer _ _ _ _ _ _ _ Hwf).
  - by apply (wf_on_respawn _ _ _ _ _ Hwf).
  - by apply wf_on_moveToLilyPad.
  - by apply wf_on_tongueAttack.
  - by apply wf_on_catchFly.
  - by apply wf_close_socket.
  - eapply wf_ext; [| | | |exact Hwf]; done.
Qed.

Lemma wf_run_timers now s : wf s -> wf (run_timers now s).1.
Proof.
  intros [Hpads Hrefs Hkeys Hvals Hh Halive Hts].
  destruct (run_timers_frame now s) as (Hp & _ & Hl & _).
  split; rewrite ?Hp, ?Hl, ?run_timers_length; try done.
  - apply Forall_lookup. intros r p' Hp'.
    destruct (run_timers_object _ _ _ _ Hp') as (p & Hq & ->).
    by pose proof (Forall_lookup_1 _ _ _ _ Hh Hq).
  - intros e p' He Hp'.
    destruct (run_timers_object _ _ _ _ Hp') as (p & Hq & ->). simpl. eauto.
  - by apply timers_ok_run_timers.
Qed.

Lemma step_inv now sid ev s s' out :
  step now sid ev s = Some (s', out) ->
  exists out1 out2,
    handle now sid ev (run_timers now s).1 = Some (s', out2) /\
    (run_timers now s).2 = out1 /\ out = out1 ++ out2.
Proof.
  unfold step. destruct (run_timers now s) as [s1 out1]. simpl.
  destruct (handle now sid ev s1) as [[s2 out2]|]; simpl; [|done].
  intros [= <- <-]. eauto.
Qed.

Lemma wf_step now sid ev s s' out :
  wf s -> step now sid ev s = Some (s', out) -> wf s'.
Proof.
  intros Hwf (out1 & out2 & Hh & _)%step_inv.
  eapply wf_handle; [|exact Hh]. by apply wf_run_timers.
Qed.

Lemma wf_reachable s : reachable s -> wf s.
Proof.
  induction 1 as [pads fl|s now sid ev s' out _ IH Hstep].
  - apply wf_init.
  - eapply wf_step; eauto.
Qed.

End WfFacts.

(** C5: in every state the server reaches, that is after every handled
    event (join, respawn, move, attack, catch, disconnect), the health of
    every registered player is at least 0 and at most its current
    maxHealth. *)
Theorem health_within_bounds (s : State) (id : string) (p : Player.t) :
  reachable s -> player_of s id = Some p ->
  0 <= Player.health p <= Player.maxHealth p.
Proof.
  intros Hs Hp. apply wf_reachable in Hs.
  unfold player_of in Hp. destruct (player_ref s id) as [r|]; simpl in Hp; [|done].
  by destruct (Forall_lookup_1 _ _ _ _ (wf_healthy s Hs) Hp).
Qed.

Lemma health_within_bounds_witness :
  exists p, player_of Scenario.joined "a" = Some p /\
            0 <= Player.health p <= Player.maxHealth p.
Proof.
  eexists. split; [vm_compute; reflexivity|].
  apply (health_within_bounds Scenario.joined "a"); [apply reachable_joined|].
  vm_compute. reflexivity.
Defined.

(** ** respawn *)

Section RespawnFacts.

Lemma reachable_lilyPads s : reachable s -> lilyPads s ≠ [].
Proof. intros Hs. apply wf_reachable in Hs. apply Hs. Qed.

(** The unoccupied-pad policy: a pad no player stands on, or, when every
    pad is taken, the first pad. *)
Lemma findUnoccupiedLilyPad_Some rnd s :
  lilyPads s ≠ [] ->
  exists spawnPad,
    findUnoccupiedLilyPad rnd s = Some spawnPad /\
    spawnPad ∈ lilyPads s /\
    (occupied s spawnPad = false \/
     ((forall pad, pad ∈ lilyPads s -> occupied s pad = true) /\
      lilyPads s !! 0%nat = Some spawnPad)).
Proof.
  intros Hpads. unfold findUnoccupiedLilyPad.
  set (unoccupiedPads := List.filter (fun pad => negb (occupied s pad)) (lilyPads s)).
  destruct (Nat.eqb_spec (length unoccupiedPads) 0) as [Hnone|Hsome].
  - destruct (lilyPads s) as [|pad0 pads] eqn:Hl; [done|].
    exists pad0. split; [done|]. split; [left|]. right. split; [|done].
    intros pad Hpad. destruct (occupied s pad) eqn:Hocc; [done|].
    assert (pad ∈ unoccupiedPads) as Hin.
    { apply elem_of_List_filter. by rewrite Hocc. }
    apply nil_length_inv in Hnone. rewrite Hnone in Hin. by apply elem_of_nil in Hin.
  - destruct (lookup_lt_is_Some_2 unoccupiedPads (rnd mod length unoccupiedPads)%nat)
      as [spawnPad Hsp].
    { apply Nat.mod_upper_bound. done. }
    exists spawnPad. split; [done|].
    apply list_elem_of_lookup_2, elem_of_List_filter in Hsp as [Hin Hocc].
    split; [done|]. left. by apply negb_true_iff.
Qed.

End RespawnFacts.

(** C10: a [respawn] event never fails, whatever the connection: it
    registers a fresh player with the level-1 defaults (size 0.7, health
    50, maxHealth 50, level 1, xp 0) on the pad the unoccupied-pad policy
    chooses, and names it 'Anonymous' when the connection has neither a
    registered player nor a stored name. *)
Theorem respawn_never_fails (s : State) (sid : string) (rnd : nat) :
  reachable s ->
  exists spawnPad nm s' out p,
    findUnoccupiedLilyPad rnd s = Some spawnPad /\
    spawnPad ∈ lilyPads s /\
    (occupied s spawnPad = false \/
     ((forall pad, pad ∈ lilyPads s -> occupied s pad = true) /\
      lilyPads s !! 0%nat = Some spawnPad)) /\
    on_respawn sid rnd s = Some (s', out) /\
    player_of s' sid = Some p /\
    p = Player.fresh sid nm spawnPad /\
    Player.x p = LilyPad.x spawnPad /\ Player.y p = LilyPad.y spawnPad /\
    Player.size p = 0.7%float /\ Player.health p = 50 /\ Player.maxHealth p = 50 /\
    Player.level p = 1 /\ Player.xp p = 0 /\
    (player_of s sid = None -> playerNames s !! sid = None -> nm = "Anonymous").
Proof.
  intros Hs.
  destruct (findUnoccupiedLilyPad_Some rnd s (reachable_lilyPads s Hs))
    as (spawnPad & Hfind & Hin & Hpolicy).
  unfold on_respawn. rewrite Hfind. cbn [mbind option_bind].
  eexists spawnPad, _, _, _, _.
  repeat (split; [done || reflexivity|]).
  split; [|split; [reflexivity|]].
  - unfold player_of, player_ref. simpl. rewrite get_set_eq. simpl.
    apply list_lookup_middle. done.
  - repeat (split; [reflexivity|]).
    intros H1 H2. unfold player_of, player_ref in H1. rewrite H1, H2. reflexivity.
Qed.

Lemma respawn_never_fails_witness :
  exists s' out, on_respawn "a" 0 Scenario.a_dead = Some (s', out) /\
                 (Player.name <$> player_of s' "a") = Some "A".
Proof.
  destruct (respawn_never_fails Scenario.a_dead "a" 0 reachable_a_dead)
    as (spawnPad & nm & s' & out & p & _ & _ & _ & Hr & _).
  exists s', out. split; [exact Hr|].
  vm_compute in Hr. injection Hr as <- _. vm_compute. reflexivity.
Defined.

(** ** disconnect *)

Section DisconnectFacts.

(** What the handler does for a connection whose player is in the
    registry and whose name is not the empty string. *)
Lemma disconnect_registered sid sk nm s :
  JsMap.has sid (players s) = true -> playerName sk = Some nm -> nm ≠ "" ->
  let s' := (close_socket sid sk s).1 in
  player_of s' sid = None /\ name_available s' nm /\
  (close_socket sid sk s).2 = [(to_all, playerDisconnected sid)] /\
  sockets s' !! sid = None.
Proof.
  intros Hhas Hnm Hne. unfold close_socket, on_disconnect.
  rewrite Hhas, Hnm. rewrite decide_False by done. simpl.
  unfold player_of, player_ref, name_available. simpl.
  rewrite get_delete_eq, lookup_delete_eq. repeat split; try done.
  intros [_ Hn]%elem_of_difference. apply Hn. by apply elem_of_singleton.
Qed.

End DisconnectFacts.

(** C2 fails on the code: [a] joined as "A" and was killed, so it is out
    of the registry; its [disconnect] then does nothing (the handler is
    guarded by [gameState.players.has(socket.id)]): "A" stays reserved, no
    removal is broadcast, and a later connection cannot join as "A". *)
Lemma disconnect_after_death_keeps_name :
  let s := Scenario.a_dead in
  reachable s /\
  player_of s "a" = None /\
  (playerName <$> sockets s !! "a") = Some (Some "A") /\
  exists s',
    step 5000 "a" disconnect s = Some (s', []) /\
    ~ name_available s' "A" /\
    playerNames s' !! "a" = Some "A" /\
    exists s'' out,
      run [(6000, "c", connection); (6100, "c", newPlayer "A" 0)] s' = Some (s'', out) /\
      player_of s'' "c" = None /\ sockets s'' !! "c" = None.
Proof.
  split; [apply reachable_a_dead|].
  split; [vm_compute; reflexivity|].
  split; [vm_compute; reflexivity|].
  eexists. split; [vm_compute; reflexivity|].
  split.
  { unfold name_available. intros Hn. apply Hn.
    apply (bool_decide_unpack _). vm_compute. exact I. }
  split; [vm_compute; reflexivity|].
  eexists _, _. split; [vm_compute; reflexivity|].
  split; vm_compute; reflexivity.
Qed.

(** ** tongueAttack *)

Section AttackFacts.

(** The state in which an event is handled is itself reachable. *)
Lemma reachable_run_timers now s : reachable s -> reachable (run_timers now s).1.
Proof.
  intros Hs. destruct (sockets s !! "") as [sk|] eqn:Hsk.
  - apply (reachable_step s now "" connection _ (run_timers now s).2 Hs).
    unfold step. destruct (run_timers_frame now s) as (_ & _ & _ & _ & _ & Hso).
    destruct (run_timers now s) as [s1 out1]. simpl in *.
    unfold handle. rewrite Hso, Hsk. simpl. by rewrite app_nil_r.
  - apply (reachable_step s now "" disconnect _ (run_timers now s).2 Hs).
    unfold step. destruct (run_timers_frame now s) as (_ & _ & _ & _ & _ & Hso).
    destruct (run_timers now s) as [s1 out1]. simpl in *.
    unfold handle. rewrite Hso, Hsk. simpl. by rewrite app_nil_r.
Qed.

(** Inside the cooldown the handler returns before it touches anything. *)
Lemma attack_dropped now sid sk targetId t0 s :
  sockets s !! sid = Some sk -> lastAttackTime sk !! targetId = Some t0 ->
  now - t0 < 500 ->
  handle now sid (tongueAttack targetId) s = Some (s, []).
Proof.
  intros Hsk Ht0 Hlt. unfold handle, on_tongueAttack. rewrite Hsk, Ht0. simpl.
  destruct (player_of s sid); [|done].
  destruct (player_ref s targetId) as [rt|]; [|done].
  destruct (heap s !! rt); [|done].
  destruct (Z.ltb_spec (now - t0) 500); [done|lia].
Qed.

(** No event handled inside the cooldown moves the entry of the
    connection for the target. *)
Lemma handle_keeps_cooldown now sid sk targetId t0 sid' ev s s' out :
  sockets s !! sid = Some sk -> lastAttackTime sk !! targetId = Some t0 ->
  now - t0 < 500 ->
  handle now sid' ev s = Some (s', out) ->
  is_Some (sockets s' !! sid) ->
  exists sk', sockets s' !! sid = Some sk' /\ lastAttackTime sk' !! targetId = Some t0.
Proof.
  intros Hsk Ht0 Hlt Hh Hopen. unfold handle in Hh.
  destruct (decide (sid' = sid)) as [->|Hne].
  - rewrite Hsk in Hh. destruct ev; simpl in Hh.
    + injection Hh as <- _. eauto.
    + injection Hh as <- _. eauto.
    + unfold on_newPlayer in Hh. destruct (_ || _).
      * apply Some_fst in Hh. subst s'. exfalso. revert Hopen.
        unfold close_socket. destruct (on_disconnect sid sk s) as [s1 o1] eqn:Hd.
        simpl. rewrite lookup_delete_eq. by intros [? ?].
      * destruct (findUnoccupiedLilyPad _ _); simpl in Hh; [|done].
        injection Hh as <- _. simpl. rewrite lookup_insert_eq. eauto.
    + unfold on_respawn in Hh.
      destruct (findUnoccupiedLilyPad _ _); simpl in Hh; [|done].
      injection Hh as <- _. simpl. eauto.
    + apply Some_fst in Hh. subst s'. unfold on_moveToLilyPad.
      destruct (player_ref s sid) as [r|]; [|eauto].
      destruct (heap s !! r) as [pl|]; [|eauto].
      destruct (Player.isSwimming pl); [eauto|].
      destruct (find_pad padId s) as [pad|]; [|eauto].
      destruct (push_loop _ _ _ _ _) as [[h1 ts1] o1]. simpl. eauto.
    + apply Some_fst in Hh. subst s'. unfold on_tongueAttack.
      destruct (player_of s sid); [|eauto].
      destruct (player_ref s targetId0) as [rt|]; [|eauto].
      destruct (heap s !! rt) as [tg|]; [|eauto].
      destruct (Z.ltb_spec (now - default 0 (lastAttackTime sk !! targetId0)) 500)
        as [Hcool|Hpass]; [eauto|].
      assert (targetId0 ≠ targetId) as Hother.
      { intros ->. rewrite Ht0 in Hpass. simpl in Hpass. lia. }
      destruct (_ <=? 0); simpl; rewrite lookup_insert_eq;
        eexists; (split; [reflexivity|]); simpl; by rewrite lookup_insert_ne.
    + apply Some_fst in Hh. subst s'. unfold on_catchFly.
      destruct (player_ref s sid) as [r|]; [|eauto].
      destruct (heap s !! r) as [pl|]; [|eauto].
      destruct (findIndex_fly flyId s); simpl; eauto.
    + apply Some_fst in Hh. subst s'. exfalso. revert Hopen.
      unfold close_socket. destruct (on_disconnect sid sk s) as [s1 o1] eqn:Hd.
      simpl. rewrite lookup_delete_eq. by intros [? ?].
  - assert (forall s0 o0, Some (s, o0) = Some (s0, out) ->
              exists sk', sockets s0 !! sid = Some sk' /\
                          lastAttackTime sk' !! targetId = Some t0) as Hsame.
    { intros s0 o0 [= <- _]. eauto. }
    assert (forall sk0 s0, s0 = (close_socket sid' sk0 s).1 ->
              exists sk', sockets s0 !! sid = Some sk' /\
                          lastAttackTime sk' !! targetId = Some t0) as Hclose.
    { intros sk0 s0 ->. unfold close_socket, on_disconnect.
      destruct (JsMap.has sid' (players s)); simpl.
      - rewrite lookup_delete_ne by done.
        destruct (playerName sk0) as [nm|]; [case_decide|]; simpl; eauto.
      - rewrite lookup_delete_ne by done. eauto. }
    destruct (sockets s !! sid') as [sk0|] eqn:Hsk0, ev; simpl in Hh; eauto.
    + unfold on_newPlayer in Hh. destruct (_ || _).
      * apply Some_fst in Hh. eauto.
      * destruct (findUnoccupiedLilyPad _ _); simpl in Hh; [|done].
        injection Hh as <- _. simpl. rewrite lookup_insert_ne by done. eauto.
    + unfold on_respawn in Hh.
      destruct (findUnoccupiedLilyPad _ _); simpl in Hh; [|done].
      injection Hh as <- _. simpl. eauto.
    + apply Some_fst in Hh. subst s'. unfold on_moveToLilyPad.
      destruct (player_ref s sid') as [r|]; [|eauto].
      destruct (heap s !! r) as [pl|]; [|eauto].
      destruct (Player.isSwimming pl); [eauto|].
      destruct (find_pad padId s) as [pad|]; [|eauto].
      destruct (push_loop _ _ _ _ _) as [[h1 ts1] o1]. simpl. eauto.
    + apply Some_fst in Hh. subst s'. unfold on_tongueAttack.
      destruct (player_of s sid'); [|eauto].
      destruct (player_ref s targetId0) as [rt|]; [|eauto].
      destruct (heap s !! rt) as [tg|]; [|eauto].
      destruct (_ <? 500); [eauto|].
      destruct (_ <=? 0); simpl; rewrite lookup_insert_ne by done; eauto.
    + apply Some_fst in Hh. subst s'. unfold on_catchFly.
      destruct (player_ref s sid') as [r|]; [|eauto].
      destruct (heap s !! r) as [pl|]; [|eauto].
      destruct (findIndex_fly flyId s); simpl; eauto.
    + apply Some_fst in Hh. eauto.
    + injection Hh as <- _. simpl. rewrite lookup_insert_ne by done. eauto.
Qed.

Lemma window_keeps_cooldown sid now1 targetId sk1 s1 s2 :
  sockets s1 !! sid = Some sk1 -> lastAttackTime sk1 !! targetId = Some now1 ->
  cooldown_window sid now1 s1 s2 ->
  exists sk2, sockets s2 !! sid = Some sk2 /\ lastAttackTime sk2 !! targetId = Some now1.
Proof.
  intros Hsk1 Ht. induction 1 as [|s2 s3 now sid' ev out _ IH Hlt Hstep Hopen]; [eauto|].
  destruct IH as (sk2 & Hsk2 & Ht2).
  apply step_inv in Hstep as (o1 & o2 & Hh & _).
  eapply handle_keeps_cooldown; [| | |exact Hh|exact Hopen]; [|exact Ht2|exact Hlt].
  destruct (run_timers_frame now s2) as (_ & _ & _ & _ & _ & ->). exact Hsk2.
Qed.

End AttackFacts.

(** C1, as stated, fails: the cooldown map belongs to the attacker's
    connection, so two attackers [a] and [b] hit the same target [c] 100ms
    apart and both hits are applied (50, 40, 30). *)
Lemma second_attacker_not_rate_limited :
  let s := Scenario.three_joined in
  reachable s /\
  exists s1 out1 s2 out2,
    step 2000 "a" (tongueAttack "c") s = Some (s1, out1) /\
    step 2100 "b" (tongueAttack "c") s1 = Some (s2, out2) /\
    (Player.health <$> player_of s "c") = Some 50 /\
    (Player.health <$> player_of s1 "c") = Some 40 /\
    (Player.health <$> player_of s2 "c") = Some 30 /\
    out2 = [(to_all, playerDamaged "c" 30 50 10)].
Proof.
  split; [apply reachable_three_joined|].
  eexists _, _, _, _.
  split; [vm_compute; reflexivity|].
  split; [vm_compute; reflexivity|].
  repeat split; vm_compute; reflexivity.
Qed.

(** C1 (amended): for every target player id, if two [tongueAttack]
    events sent over the same connection land on that target within 500ms
    of each other, only the first is applied and the target's health
    decreases by exactly 10 for that one; the second is silently dropped
    with no state change.  The second is dropped whatever was handled in
    between, as long as the connection stayed open. *)
Theorem tongueAttack_cooldown (s : State) (now1 : Z) (sid targetId : string)
    (sk : Socket) (rt : nat) (target : Player.t) :
  reachable s ->
  sockets s !! sid = Some sk ->
  is_Some (player_of s sid) ->
  player_ref s targetId = Some rt ->
  heap s !! rt = Some target ->
  500 <= now1 - default 0 (lastAttackTime sk !! targetId) ->
  exists s1 out1,
    handle now1 sid (tongueAttack targetId) s = Some (s1, out1) /\
    heap s1 !! rt = Some (Player.set_health (Player.health target - 10) target) /\
    0 <= Player.health target - 10 /\
    forall s2 now2,
      cooldown_window sid now1 s1 s2 -> now2 - now1 < 500 ->
      handle now2 sid (tongueAttack targetId) s2 = Some (s2, []) /\
      step now2 sid (tongueAttack targetId) s2 = Some (run_timers now2 s2).
Proof.
  intros Hs Hsk [attacker Hatt] Hrt Htarget Hpass.
  apply wf_reachable in Hs.
  assert (10 <= Player.health target) as Hten.
  { pose proof (wf_alive s Hs (targetId, rt) target
                  (get_Some_elem_of _ _ _ Hrt) Htarget) as Hpos.
    destruct (Forall_lookup_1 _ _ _ _ (wf_healthy s Hs) Htarget) as [_ [k Hk]]. lia. }
  assert (rt < length (heap s))%nat as Hlt by (eapply lookup_lt_Some; eauto).
  assert (exists s1 out1,
            handle now1 sid (tongueAttack targetId) s = Some (s1, out1) /\
            heap s1 !! rt = Some (Player.set_health (Player.health target - 10) target) /\
            exists sk1, sockets s1 !! sid = Some sk1 /\
                        lastAttackTime sk1 !! targetId = Some now1)
    as (s1 & out1 & Hh & Hheap & sk1 & Hsk1 & Hlast).
  { unfold handle, on_tongueAttack. rewrite Hsk, Hatt, Hrt, Htarget.
    destruct (Z.ltb_spec (now1 - default 0 (lastAttackTime sk !! targetId)) 500); [lia|].
    rewrite Z.max_r by lia.
    destruct (_ <=? 0); eexists _, _; (split; [reflexivity|]); simpl;
      rewrite list_lookup_insert_eq by done; (split; [done|]);
      rewrite lookup_insert_eq; eexists; (split; [reflexivity|]); simpl;
      by rewrite lookup_insert_eq. }
  exists s1, out1. repeat (split; [done || lia|]).
  intros s2 now2 Hwin Hnow2.
  destruct (window_keeps_cooldown _ _ _ _ _ _ Hsk1 Hlast Hwin) as (sk2 & Hsk2 & Hlast2).
  split.
  - eapply attack_dropped; eauto.
  - unfold step. destruct (run_timers_frame now2 s2) as (_ & _ & _ & _ & _ & Hso).
    destruct (run_timers now2 s2) as [s2' o2'] eqn:Hrun. simpl in Hso.
    rewrite (attack_dropped now2 sid sk2 targetId now1 s2') by (by rewrite ?Hso).
    simpl. by rewrite app_nil_r.
Qed.

Lemma tongueAttack_cooldown_witness :
  exists s1 out1,
    handle 2000 "a" (tongueAttack "c") Scenario.three_joined = Some (s1, out1) /\
    handle 2100 "a" (tongueAttack "c") s1 = Some (s1, []).
Proof.
  destruct (tongueAttack_cooldown Scenario.three_joined 2000 "a" "c"
              (mkSocket (Some "A") ∅) 2
              (Player.fresh "c" "C" centerPad))
    as (s1 & out1 & Hh & _ & _ & Hdrop).
  - apply reachable_three_joined.
  - vm_compute. reflexivity.
  - eexists. vm_compute. reflexivity.
  - vm_compute. reflexivity.
  - vm_compute. reflexivity.
  - vm_compute. discriminate.
  - exists s1, out1. split; [exact Hh|].
    apply (Hdrop s1 2100); [apply window_start|lia].
Defined.

(** ** The push loop *)

Section PushFacts.
Implicit Types (h : list Player.t) (ts : list Timer) (p : Player.t).

(** The test reads the size of the mover only. *)
Lemma pushable_size currentTime sid targetPad player player' otherId other :
  Player.size player' = Player.size player ->
  pushable currentTime sid targetPad player' otherId other =
  pushable currentTime sid targetPad player otherId other.
Proof. unfold pushable. by intros ->. Qed.

Lemma pushable_inv currentTime sid targetPad player otherId other :
  pushable currentTime sid targetPad player otherId other = true ->
  otherId ≠ sid /\ Player.isSwimming other = false /\
  2000 < currentTime - Player.lastPushTime other.
Proof.
  unfold pushable. rewrite !andb_true_iff, negb_true_iff, bool_decide_eq_true, Z.ltb_lt.
  tauto.
Qed.

(** What one iteration does to the loop state. *)
Lemma push_step_cases currentTime sid r targetPad h ts out e :
  push_step currentTime sid r targetPad (h, ts, out) e = (h, ts, out) \/
  exists other player,
    h !! e.2 = Some other /\ h !! r = Some player /\
    pushable currentTime sid targetPad player e.1 other = true /\
    push_step currentTime sid r targetPad (h, ts, out) e =
      (<[e.2 := pushed currentTime other]> h,
       ts ++ [mkTimer (currentTime + 1000) e.1 e.2],
       out ++ [(to_all, playerPushed e.1 sid (Player.x other) (Player.y other))]).
Proof.
  unfold push_step.
  destruct (h !! e.2) as [other|]; [|by left].
  destruct (h !! r) as [player|]; [|by left].
  destruct (pushable _ _ _ _ _ _) eqn:Hp; [|by left].
  right. exists other, player. done.
Qed.

Lemma push_step_objects currentTime sid r targetPad h0 acc e :
  loop_objects currentTime h0 acc ->
  loop_objects currentTime h0 (push_step currentTime sid r targetPad acc e).
Proof.
  destruct acc as [[h ts] out]. intros Hobj.
  destruct (push_step_cases currentTime sid r targetPad h ts out e)
    as [->|(other & player & Ho & Hpl & Hpush & ->)]; [done|].
  intros ro q'. simpl.
  intros [(<- & <- & _)|[_ Hq']]%list_lookup_insert_Some; [|by apply Hobj].
  destruct (Hobj _ _ Ho) as (q & Hq & [->|(-> & _)]).
  - exists q. split; [done|]. right.
    apply pushable_inv in Hpush as (_ & ? & ?). done.
  - apply pushable_inv in Hpush as (_ & Hsw & _). done.
Qed.

Lemma push_loop_objects currentTime sid r targetPad s :
  loop_objects currentTime (heap s) (push_loop currentTime sid r targetPad s).
Proof.
  unfold push_loop. apply push_loop_invariant.
  - intros ro q' Hq'. exists q'. split; [done|by left].
  - intros acc e _. apply push_step_objects.
Qed.


End PushFacts.

(** ** The push state of an object along a run *)

Section ObjectFacts.
Implicit Types (s : State) (q : Player.t).



(** The mover, after a successful move. *)
Lemma on_moveToLilyPad_success now sid padId s p targetPad :
  player_of s sid = Some p -> Player.isSwimming p = false ->
  find_pad padId s = Some targetPad ->
  exists p',
    player_of (on_moveToLilyPad now sid padId s).1 sid = Some p' /\
    Player.x p' = LilyPad.x targetPad /\
    Player.y p' = LilyPad.y targetPad /\
    Player.health p' = Player.health p /\
    Player.maxHealth p' = Player.maxHealth p.
Proof.
  unfold on_moveToLilyPad, player_of. intros Hp Hswim Hpad.
  destruct (player_ref s sid) as [r|] eqn:Hr; simpl in Hp; [|done].
  rewrite Hp, Hswim, Hpad.
  pose proof (push_loop_length now sid r targetPad s) as Hlen.
  destruct (push_loop now sid r targetPad s) as [[h1 ts1] out1]. simpl in *.
  unfold player_of, player_ref in *. simpl. rewrite Hr. simpl.
  destruct (lookup_lt_is_Some_2 h1 r) as [q Hq].
  { rewrite Hlen. eapply lookup_lt_Some; eauto. }
  rewrite list_lookup_alter_eq, Hq. simpl.
  eexists. split; [reflexivity|]. done.
Qed.

(** The handlers that do not allocate keep the registry, except for the
    deaths of [tongueAttack]; [moveToLilyPad] keeps it. *)
Lemma on_moveToLilyPad_frame now sid padId s :
  let s' := (on_moveToLilyPad now sid padId s).1 in
  players s' = players s /\ lilyPads s' = lilyPads s /\ sockets s' = sockets s /\
  length (heap s') = length (heap s).
Proof.
  unfold on_moveToLilyPad.
  destruct (player_ref s sid) as [r|]; [|done].
  destruct (heap s !! r) as [pl|]; [|done].
  destruct (Player.isSwimming pl); [done|].
  destruct (find_pad padId s) as [pad|]; [|done].
  pose proof (push_loop_length now sid r pad s) as Hlen.
  destruct (push_loop _ _ _ _ _) as [[h1 ts1] o1]. simpl in *.
  by rewrite length_alter.
Qed.




(** In a settled state a swimming object is inside its second. *)
Lemma settled_swimming now s ro q :
  wf s -> settled now s -> heap s !! ro = Some q ->
  Player.isSwimming q = true -> now < Player.lastPushTime q + 1000.
Proof.
  intros Hwf Hset Hq Hswim. destruct (wf_timers s Hwf) as [Hsw _ Hts].
  specialize (Hts _ _ Hq Hswim).
  apply list_elem_of_fmap in Hts as (t & -> & Ht).
  destruct (Hsw t Ht) as (p & Hp & _ & Hd).
  assert (p = q) as -> by congruence.
  specialize (Hset t Ht). lia.
Qed.





End ObjectFacts.




(** ** Objects along a run *)

Section EvolutionFacts.
Implicit Types (s : State) (q : Player.t).

Lemma same_stats_refl q : same_stats q q.
Proof. by repeat split. Qed.

Lemma object_step_refl q : object_step q q.
Proof. left. apply same_stats_refl. Qed.

Lemma same_stats_pushed now q : same_stats q (pushed now q).
Proof. by repeat split. Qed.

(** The store after a move: every object keeps its stats. *)
Lemma on_moveToLilyPad_heap_inv now sid padId s r q' :
  heap (on_moveToLilyPad now sid padId s).1 !! r = Some q' ->
  exists q, heap s !! r = Some q /\ same_stats q q'.
Proof.
  unfold on_moveToLilyPad.
  destruct (player_ref s sid) as [rm|]; [|by eauto using same_stats_refl].
  destruct (heap s !! rm) as [pl|] eqn:Hpl; [|by eauto using same_stats_refl].
  destruct (Player.isSwimming pl); [by eauto using same_stats_refl|].
  destruct (find_pad padId s) as [pad|]; [|by eauto using same_stats_refl].
  pose proof (push_loop_objects now sid rm pad s) as Hobj.
  destruct (push_loop _ _ _ _ _) as [[h1 ts1] o1]. simpl in *.
  assert (forall r1 q1, h1 !! r1 = Some q1 ->
            exists q, heap s !! r1 = Some q /\ same_stats q q1) as Hh1.
  { intros r1 q1 Hq1. destruct (Hobj _ _ Hq1) as (q & Hq & [->|(-> & _)]).
    - eauto using same_stats_refl.
    - eauto using same_stats_pushed. }
  rewrite list_lookup_alter. case_decide as Heq; [|by apply Hh1].
  subst r. intros (q1 & Hq1 & ->)%fmap_Some.
  destruct (Hh1 _ _ Hq1) as (q & Hq & Hst). exists q. split; [done|].
  assert (q = pl) as -> by congruence.
  destruct Hst as (? & ? & ? & ? & ? & ?). by repeat split.
Qed.

(** Every object of the store after an event is an object of the store
    before it, with its stats or after a catch, or the object the event
    allocated. *)
Lemma handle_heap_inv now sid ev s s' out r q' :
  handle now sid ev s = Some (s', out) -> heap s' !! r = Some q' ->
  (exists q, heap s !! r = Some q /\ object_step q q') \/
  (r = length (heap s) /\ length (heap s') = S (length (heap s)) /\
   exists nm pad, q' = Player.fresh sid nm pad).
Proof.
  intros Hh Hq'. unfold handle in Hh.
  assert (forall sk, heap (close_socket sid sk s).1 = heap s) as Hclose.
  { intros sk. unfold close_socket, on_disconnect.
    destruct (JsMap.has sid (players s)); simpl; [|done].
    destruct (playerName sk) as [nm|]; [case_decide|]; done. }
  destruct (sockets s !! sid) as [sk|], ev; simpl in Hh;
    try (injection Hh as <- _; left; by eauto using object_step_refl).
  - unfold on_newPlayer in Hh. destruct (_ || _).
    + apply Some_fst in Hh. subst. rewrite Hclose in Hq'.
      left. eauto using object_step_refl.
    + destruct (findUnoccupiedLilyPad _ _) as [pad|]; simpl in Hh; [|done].
      injection Hh as <- _. simpl in *.
      apply lookup_snoc_Some in Hq' as [[_ Hq']|[-> <-]].
      * left. eauto using object_step_refl.
      * right. rewrite length_app. simpl. split; [done|]. split; [lia|]. eauto.
  - unfold on_respawn in Hh.
    destruct (findUnoccupiedLilyPad _ _) as [pad|]; simpl in Hh; [|done].
    injection Hh as <- _. simpl in *.
    apply lookup_snoc_Some in Hq' as [[_ Hq']|[-> <-]].
    + left. eauto using object_step_refl.
    + right. rewrite length_app. simpl. split; [done|]. split; [lia|]. eauto.
  - apply Some_fst in Hh. subst. left.
    destruct (on_moveToLilyPad_heap_inv _ _ _ _ _ _ Hq') as (q & ? & ?).
    exists q. split; [done|by left].
  - apply Some_fst in Hh. subst. left. revert Hq'. unfold on_tongueAttack.
    destruct (player_of s sid); [|by eauto using object_step_refl].
    destruct (player_ref s targetId) as [rt|]; [|by eauto using object_step_refl].
    destruct (heap s !! rt) as [tg|] eqn:Htg; [|by eauto using object_step_refl].
    destruct (_ <? 500); [by eauto using object_step_refl|].
    assert (forall h, h = <[rt := Player.set_health (Z.max 0 (Player.health tg - 10)) tg]>
                            (heap s) ->
              h !! r = Some q' -> exists q, heap s !! r = Some q /\ object_step q q') as Hins.
    { intros h -> [(<- & <- & _)|[_ ?]]%list_lookup_insert_Some.
      - exists tg. split; [done|]. left. by repeat split.
      - eauto using object_step_refl. }
    destruct (_ <=? 0); simpl; by apply Hins.
  - apply Some_fst in Hh. subst. left. revert Hq'. unfold on_catchFly.
    destruct (player_ref s sid) as [rc|]; [|by eauto using object_step_refl].
    destruct (heap s !! rc) as [pl|] eqn:Hpl; [|by eauto using object_step_refl].
    destruct (findIndex_fly flyId s); [|by eauto using object_step_refl].
    simpl. intros [(<- & <- & _)|[_ ?]]%list_lookup_insert_Some.
    + exists pl. split; [done|]. right. apply same_stats_refl.
    + eauto using object_step_refl.
  - apply Some_fst in Hh. subst. rewrite Hclose in Hq'.
    left. eauto using object_step_refl.
Qed.

Lemma step_heap_inv now sid ev s s' out r q' :
  step now sid ev s = Some (s', out) -> heap s' !! r = Some q' ->
  (exists q, heap s !! r = Some q /\ object_step q q') \/
  (r = length (heap s) /\ length (heap s') = S (length (heap s)) /\
   exists nm pad, q' = Player.fresh sid nm pad).
Proof.
  intros (o1 & o2 & Hh & _)%step_inv Hq'.
  destruct (handle_heap_inv _ _ _ _ _ _ _ _ Hh Hq')
    as [(q1 & Hq1 & Hst)|(-> & Hlen & Hfresh)].
  - left. destruct (run_timers_object _ _ _ _ Hq1) as (q & Hq & Heq).
    exists q. split; [done|].
    rewrite Heq in Hst. destruct Hst as [Hst|Hst]; [left|right];
      destruct Hst as (? & ? & ? & ? & ? & ?); repeat split; try done.
    all: unfold caught in *; simpl in *; by destruct (_ <? _).
  - right. rewrite run_timers_length in *. done.
Qed.

(** A property of objects that holds of a fresh player and that a step
    of an object keeps holds of every object of a reachable state. *)
Lemma heap_invariant (P : Player.t -> Prop) s :
  (forall sid nm pad, P (Player.fresh sid nm pad)) ->
  (forall q q', P q -> object_step q q' -> P q') ->
  reachable s -> Forall P (heap s).
Proof.
  intros Hfresh Hstep. induction 1 as [pads fl|s now sid ev s' out _ IH Hs].
  - constructor.
  - apply Forall_lookup. intros r q' Hq'.
    destruct (step_heap_inv _ _ _ _ _ _ _ _ Hs Hq')
      as [(q & Hq & Hst)|(_ & _ & nm & pad & ->)]; [|done].
    eapply Hstep; [|exact Hst]. by eapply Forall_lookup_1.
Qed.

End EvolutionFacts.

(** ** Progression along a run *)

Section ProgressionRunFacts.

Lemma level_cases L : 1 <= L <= 10 ->
  L = 1 \/ L = 2 \/ L = 3 \/ L = 4 \/ L = 5 \/ L = 6 \/ L = 7 \/ L = 8 \/ L = 9 \/ L = 10.
Proof. lia. Qed.

(** On the levels of the game, the double [0.7 + (level-1)*0.05] orders
    as the level does. *)
Lemma getSizeForLevel_ltb L1 L2 :
  1 <= L1 <= 10 -> 1 <= L2 <= 10 ->
  PrimFloat.ltb (getSizeForLevel L1) (getSizeForLevel L2) = (L1 <? L2).
Proof.
  intros H1 H2.
  destruct (level_cases L1 H1) as [->|[->|[->|[->|[->|[->|[->|[->|[->| ->]]]]]]]]];
    destruct (level_cases L2 H2) as [->|[->|[->|[->|[->|[->|[->|[->|[->| ->]]]]]]]]];
    vm_compute; reflexivity.
Qed.

Lemma progression_ok_fresh sid nm pad : progression_ok (Player.fresh sid nm pad).
Proof. unfold progression_ok. simpl. repeat split; try lia; vm_compute; reflexivity. Qed.

Lemma progression_ok_caught q : progression_ok q -> progression_ok (caught q).
Proof.
  intros (Hxp & Hlevel & Hsize & Hmax). unfold caught. simpl.
  destruct (Z.ltb_spec (Player.level q) (getLevelFromXP (Player.xp q + 1))) as [Hup|Hsame];
    unfold progression_ok; simpl.
  - repeat split; lia.
  - repeat split; try done; try lia.
    pose proof (getLevelFromXP_mono (Player.xp q) (Player.xp q + 1)). lia.
Qed.

Lemma progression_ok_step q q' : progression_ok q -> object_step q q' -> progression_ok q'.
Proof.
  intros Hq [Hst|Hst].
  - destruct Hq as (? & ? & ? & ?), Hst as (_ & _ & Hs & Hl & Hx & Hm).
    unfold progression_ok. rewrite Hs, Hl, Hx, Hm. done.
  - apply progression_ok_caught in Hq.
    destruct Hq as (? & ? & ? & ?), Hst as (_ & _ & Hs & Hl & Hx & Hm).
    unfold progression_ok. rewrite Hs, Hl, Hx, Hm. done.
Qed.

Lemma progression_reachable s id p :
  reachable s -> player_of s id = Some p -> progression_ok p.
Proof.
  intros Hs Hp. unfold player_of in Hp.
  destruct (player_ref s id) as [r|]; simpl in Hp; [|done].
  eapply Forall_lookup_1; [|exact Hp].
  apply heap_invariant; [apply progression_ok_fresh|apply progression_ok_step|done].
Qed.

End ProgressionRunFacts.

(** X1: on the levels 1..10 [getSizeForLevel] is strictly increasing as
    doubles compare ([<] on the sizes is [<] on the levels), and the size
    of level 1 is the 0.7 of a new player. *)
Theorem getSizeForLevel_strictly_increasing (L1 L2 : Z) :
  1 <= L1 <= 10 -> 1 <= L2 <= 10 ->
  PrimFloat.ltb (getSizeForLevel L1) (getSizeForLevel L2) = (L1 <? L2) /\
  getSizeForLevel 1 = 0.7%float.
Proof.
  intros H1 H2. split; [by apply getSizeForLevel_ltb|reflexivity].
Qed.

Lemma getSizeForLevel_strictly_increasing_witness :
  PrimFloat.ltb (getSizeForLevel 6) (getSizeForLevel 7) = true.
Proof. apply (getSizeForLevel_strictly_increasing 6 7); lia. Defined.

(** X2: in every reachable state the stats of a registered player are
    those of its xp: xp is not negative, the level is [getLevelFromXP xp]
    (so between 1 and 10), the size is [getSizeForLevel level] and
    maxHealth is [50 + (level-1)*10]. *)
Theorem stats_follow_xp (s : State) (id : string) (p : Player.t) :
  reachable s -> player_of s id = Some p ->
  0 <= Player.xp p /\
  Player.level p = getLevelFromXP (Player.xp p) /\
  1 <= Player.level p <= 10 /\
  Player.size p = getSizeForLevel (Player.level p) /\
  Player.maxHealth p = 50 + ((Player.level p - 1) * 10).
Proof.
  intros Hs Hp. destruct (progression_reachable s id p Hs Hp) as (Hxp & Hl & Hsz & Hm).
  repeat split; try done; rewrite Hl; apply getLevelFromXP_range.
Qed.

Lemma stats_follow_xp_witness :
  exists p, player_of Scenario.a_level2 "a" = Some p /\
            Player.level p = getLevelFromXP (Player.xp p) /\
            Player.maxHealth p = 50 + ((Player.level p - 1) * 10).
Proof.
  eexists. split; [vm_compute; reflexivity|].
  destruct (stats_follow_xp Scenario.a_level2 "a" _ reachable_a_level2 eq_refl)
    as (_ & Hl & _ & _ & Hm).
  split; [exact Hl|exact Hm].
Defined.

(** X3: between two registered players of a reachable state, the size
    test of the push loop ([otherPlayer.size < player.size]) holds exactly
    when the other player's level is strictly lower. *)
Theorem smaller_size_is_lower_level (s : State) (id1 id2 : string) (p1 p2 : Player.t) :
  reachable s -> player_of s id1 = Some p1 -> player_of s id2 = Some p2 ->
  PrimFloat.ltb (Player.size p1) (Player.size p2) = (Player.level p1 <? Player.level p2).
Proof.
  intros Hs H1 H2.
  destruct (progression_reachable s id1 p1 Hs H1) as (_ & Hl1 & -> & _).
  destruct (progression_reachable s id2 p2 Hs H2) as (_ & Hl2 & -> & _).
  apply getSizeForLevel_ltb; [rewrite Hl1|rewrite Hl2]; apply getLevelFromXP_range.
Qed.

Lemma smaller_size_is_lower_level_witness :
  exists p1 p2,
    player_of Scenario.a_level2 "b" = Some p1 /\ player_of Scenario.a_level2 "a" = Some p2 /\
    PrimFloat.ltb (Player.size p1) (Player.size p2) = (Player.level p1 <? Player.level p2).
Proof.
  eexists _, _. split; [vm_compute; reflexivity|]. split; [vm_compute; reflexivity|].
  apply (smaller_size_is_lower_level Scenario.a_level2 "b" "a");
    [apply reachable_a_level2|reflexivity|reflexivity].
Defined.

(** X4: a registered player is alive: in every reachable state its health
    is a multiple of 10 and at least 10 (a player whose health reaches 0 is
    removed by the attack that does it). *)
Theorem registered_player_alive (s : State) (id : string) (p : Player.t) :
  reachable s -> player_of s id = Some p ->
  10 <= Player.health p /\ (10 | Player.health p).
Proof.
  intros Hs Hp. apply wf_reachable in Hs. unfold player_of in Hp.
  destruct (player_ref s id) as [r|] eqn:Hr; simpl in Hp; [|done].
  pose proof (wf_alive s Hs (id, r) p (get_Some_elem_of _ _ _ Hr) Hp) as Hpos.
  destruct (Forall_lookup_1 _ _ _ _ (wf_healthy s Hs) Hp) as [_ [k Hk]].
  split; [lia|by exists k].
Qed.

Lemma registered_player_alive_witness :
  exists p, player_of Scenario.three_joined "c" = Some p /\ 10 <= Player.health p.
Proof.
  eexists. split; [vm_compute; reflexivity|].
  apply (registered_player_alive Scenario.three_joined "c" _ reachable_three_joined eq_refl).
Defined.

(** ** catchFly and tongueAttack, on a reachable state *)

Section CatchAttackFacts.

Lemma getLevelFromXP_succ xp :
  0 <= xp -> getLevelFromXP (xp + 1) <= getLevelFromXP xp + 1.
Proof.
  intros _. rewrite !getLevelFromXP_closed.
  repeat match goal with
         | |- context [?a <? ?b] => destruct (Z.ltb_spec a b)
         end; lia.
Qed.

Lemma on_catchFly_caught sid flyId generated s r p :
  player_ref s sid = Some r -> heap s !! r = Some p ->
  (exists fly, fly ∈ flies s /\ Fly.id fly = flyId) ->
  player_of (on_catchFly sid flyId generated s).1 sid = Some (caught p) /\
  (on_catchFly sid flyId generated s).2 =
    [ (to_all, flyCaught flyId sid (Player.size (caught p)) (Player.health (caught p))
                         (Player.maxHealth (caught p)) (Player.level (caught p))
                         (Player.xp (caught p))
                         (Player.level p <? getLevelFromXP (Player.xp p + 1)));
      (to_all, newFly generated) ].
Proof.
  intros Hr Hp (fly & Hin & Hid). unfold on_catchFly. rewrite Hr, Hp.
  destruct (findIndex_fly flyId s) as [i|] eqn:Hi.
  - simpl. split; [|reflexivity].
    unfold player_of, player_ref in *. simpl. rewrite Hr. simpl.
    apply list_lookup_insert_eq. eapply lookup_lt_Some; eauto.
  - rewrite findIndex_fly_None in Hi. by destruct (Hi fly Hin).
Qed.

End CatchAttackFacts.

(** X5: a catch by a registered player of a fly that is present adds
    exactly one xp and raises the level by at most one.  When the level
    does not change, health, maxHealth and size are untouched (no heal);
    when it rises, maxHealth grows by 10 and health is reset to it.  The
    [flyCaught] message carries the new stats. *)
Theorem catchFly_progress (s : State) (sid flyId : string) (generated : Fly.t)
    (p : Player.t) :
  reachable s -> player_of s sid = Some p ->
  (exists fly, fly ∈ flies s /\ Fly.id fly = flyId) ->
  exists p' didLevelUp,
    player_of (on_catchFly sid flyId generated s).1 sid = Some p' /\
    (on_catchFly sid flyId generated s).2 =
      [ (to_all, flyCaught flyId sid (Player.size p') (Player.health p')
                           (Player.maxHealth p') (Player.level p') (Player.xp p')
                           didLevelUp);
        (to_all, newFly generated) ] /\
    Player.xp p' = Player.xp p + 1 /\
    Player.name p' = Player.name p /\
    (didLevelUp = false ->
       Player.level p' = Player.level p /\ Player.health p' = Player.health p /\
       Player.maxHealth p' = Player.maxHealth p /\ Player.size p' = Player.size p) /\
    (didLevelUp = true ->
       Player.level p' = Player.level p + 1 /\
       Player.maxHealth p' = Player.maxHealth p + 10 /\
       Player.health p' = Player.maxHealth p' /\
       Player.size p' = getSizeForLevel (Player.level p')).
Proof.
  intros Hs Hp Hfly.
  destruct (progression_reachable s sid p Hs Hp) as (Hxp & Hl & Hsz & Hm).
  unfold player_of in Hp. destruct (player_ref s sid) as [r|] eqn:Hr; simpl in Hp; [|done].
  destruct (on_catchFly_caught sid flyId generated s r p Hr Hp Hfly) as [Hp' Hout].
  exists (caught p), (Player.level p <? getLevelFromXP (Player.xp p + 1)).
  split; [done|]. split; [done|].
  pose proof (getLevelFromXP_succ (Player.xp p) Hxp) as Hsucc.
  pose proof (getLevelFromXP_mono (Player.xp p) (Player.xp p + 1)) as Hmono.
  unfold caught. simpl.
  destruct (Z.ltb_spec (Player.level p) (getLevelFromXP (Player.xp p + 1))); simpl.
  - repeat split; try done; lia.
  - repeat split; try done.
Qed.

Lemma catchFly_progress_witness :
  exists p',
    player_of (on_catchFly "b" "fly-2" Scenario.fly1 Scenario.a_level2).1 "b" = Some p' /\
    Player.xp p' = 1.
Proof.
  destruct (catchFly_progress Scenario.a_level2 "b" "fly-2" Scenario.fly1
              (Player.fresh "b" "B" Scenario.pad1))
    as (p' & d & Hp' & _ & Hxp & _).
  - apply reachable_a_level2.
  - vm_compute. reflexivity.
  - exists Scenario.fly2. split; [|reflexivity]. vm_compute. left.
  - exists p'. split; [exact Hp'|exact Hxp].
Defined.

(** X6: an attack that passes the cooldown, in a reachable state.  If
    either party is not registered nothing happens, and no cooldown is
    recorded.  A target with more than 10 health stays registered with 10
    less and [playerDamaged] is broadcast.  A target with exactly 10 is
    removed from the registry and [playerDied] is broadcast; its name
    stays reserved and stored. *)
Theorem tongueAttack_outcome (s : State) (now : Z) (sid targetId : string) (sk : Socket) :
  reachable s ->
  (player_of s sid = None \/ player_of s targetId = None ->
   on_tongueAttack now sid sk targetId s = (s, [])) /\
  (forall target,
      is_Some (player_of s sid) -> player_of s targetId = Some target ->
      500 <= now - default 0 (lastAttackTime sk !! targetId) ->
      let s' := (on_tongueAttack now sid sk targetId s).1 in
      let out := (on_tongueAttack now sid sk targetId s).2 in
      takenUsernames s' = takenUsernames s /\ playerNames s' = playerNames s /\
      (10 < Player.health target \/ Player.health target = 10) /\
      (10 < Player.health target ->
         player_of s' targetId =
           Some (Player.set_health (Player.health target - 10) target) /\
         out = [(to_all, playerDamaged targetId (Player.health target - 10)
                                       (Player.maxHealth target) 10)]) /\
      (Player.health target = 10 ->
         player_of s' targetId = None /\ out = [(to_all, playerDied targetId)])).
Proof.
  intros Hs. split.
  - unfold on_tongueAttack, player_of. intros [Hn|Hn].
    + by rewrite Hn.
    + destruct (player_ref s sid ≫= _); [|done].
      destruct (player_ref s targetId) as [rt|]; [|done].
      simpl in Hn. by rewrite Hn.
  - intros target [attacker Hatt] Htarget Hpass.
    unfold on_tongueAttack. rewrite Hatt. unfold player_of in Htarget.
    destruct (player_ref s targetId) as [rt|] eqn:Hrt; simpl in Htarget; [|done].
    rewrite Htarget.
    destruct (Z.ltb_spec (now - default 0 (lastAttackTime sk !! targetId)) 500); [lia|].
    assert (rt < length (heap s))%nat as Hlt by (eapply lookup_lt_Some; eauto).
    assert (10 <= Player.health target) as Hten.
    { apply wf_reachable in Hs.
      pose proof (wf_alive s Hs (targetId, rt) target
                    (get_Some_elem_of _ _ _ Hrt) Htarget) as Hpos.
      destruct (Forall_lookup_1 _ _ _ _ (wf_healthy s Hs) Htarget) as [_ [k Hk]]. lia. }
    destruct (Z.leb_spec (Z.max 0 (Player.health target - 10)) 0) as [Hdead|Hlive];
      simpl; (split; [done|]); (split; [done|]); (split; [lia|]);
      split; intros Hh; try lia.
    + unfold player_of, player_ref. simpl. by rewrite get_delete_eq.
    + rewrite Z.max_r by lia. unfold player_of, player_ref. simpl.
      unfold player_ref in Hrt. rewrite Hrt. simpl.
      by rewrite list_lookup_insert_eq.
Qed.

Lemma tongueAttack_outcome_witness :
  (Player.health <$>
     player_of (on_tongueAttack 2000 "a" (mkSocket (Some "A") ∅) "c"
                                Scenario.three_joined).1 "c") = Some 40.
Proof.
  destruct (tongueAttack_outcome Scenario.three_joined 2000 "a" "c" (mkSocket (Some "A") ∅)
              reachable_three_joined) as (_ & Hhit).
  destruct (Hhit (Player.fresh "c" "C" centerPad)) as (_ & _ & _ & Hdamaged & _).
  - eexists. vm_compute. reflexivity.
  - vm_compute. reflexivity.
  - vm_compute. discriminate.
  - destruct Hdamaged as [Hp _]; [simpl; lia|]. rewrite Hp. reflexivity.
Defined.

(** ** The registry along a run *)

Section RegistryFacts.
Implicit Types (s : State) (p : Player.t).

(** A new object enters the registry under [sid]. *)
Lemma player_of_alloc sid p s s1 id :
  wf s -> players s1 = JsMap.set sid (length (heap s)) (players s) ->
  heap s1 = heap s ++ [p] ->
  player_of s1 id = if decide (sid = id) then Some p else player_of s id.
Proof.
  intros Hwf Hp Hh. unfold player_of, player_ref. rewrite Hp, Hh.
  case_decide as Heq.
  - subst. rewrite get_set_eq. simpl. by apply list_lookup_middle.
  - rewrite get_set_ne by done.
    destruct (JsMap.get id (players s)) as [r|] eqn:Hr; simpl; [|done].
    apply lookup_app_l. apply (wf_refs s Hwf (id, r)). by apply get_Some_elem_of.
Qed.

Lemma player_of_close sid sk s id p :
  player_of (close_socket sid sk s).1 id = Some p -> player_of s id = Some p.
Proof.
  unfold close_socket, on_disconnect.
  destruct (JsMap.has sid (players s)); simpl; [|done].
  assert (forall s0, players s0 = JsMap.delete sid (players s) -> heap s0 = heap s ->
            player_of s0 id = Some p -> player_of s id = Some p) as Hdel.
  { intros s0 Hp Hh. unfold player_of, player_ref. rewrite Hp, Hh.
    destruct (decide (sid = id)) as [->|Hne].
    - by rewrite get_delete_eq.
    - by rewrite get_delete_ne. }
  destruct (playerName sk) as [nm|]; [case_decide|]; by apply Hdel.
Qed.

(** The events that do not allocate: a registered player of the state
    after them was registered before, under the same id. *)
Lemma handle_player_of_inv now sid ev s s' out id p' :
  (forall nm rnd, ev ≠ newPlayer nm rnd) -> (forall rnd, ev ≠ respawn rnd) ->
  handle now sid ev s = Some (s', out) -> player_of s' id = Some p' ->
  exists p, player_of s id = Some p /\ object_step p p'.
Proof.
  intros Hnj Hnr Hh Hp'.
  assert (players s' = players s \/ exists k, players s' = JsMap.delete k (players s))
    as Hplayers.
  { unfold handle in Hh.
    destruct (sockets s !! sid) as [sk|], ev; simpl in Hh;
      try (injection Hh as <- _; by left);
      try (by destruct (Hnj playerName0 rnd)); try (by destruct (Hnr rnd));
      apply Some_fst in Hh; subst.
    - left. apply on_moveToLilyPad_frame.
    - unfold on_tongueAttack.
      destruct (player_of s sid); [|by left].
      destruct (player_ref s targetId) as [rt|]; [|by left].
      destruct (heap s !! rt); [|by left].
      destruct (_ <? 500); [by left|].
      destruct (_ <=? 0); simpl; [right; eauto|by left].
    - unfold on_catchFly.
      destruct (player_ref s sid) as [rc|]; [|by left].
      destruct (heap s !! rc); [|by left].
      destruct (findIndex_fly flyId s); by left.
    - unfold close_socket, on_disconnect.
      destruct (JsMap.has sid (players s)); simpl; [|by left].
      right. exists sid. destruct (playerName sk) as [nm|]; [case_decide|]; done. }
  unfold player_of, player_ref in Hp'.
  destruct (JsMap.get id (players s')) as [r|] eqn:Hr; simpl in Hp'; [|done].
  assert (JsMap.get id (players s) = Some r) as Hr0.
  { destruct Hplayers as [Heq|[k Heq]]; rewrite Heq in Hr; [done|].
    destruct (decide (k = id)) as [->|Hne].
    - by rewrite get_delete_eq in Hr.
    - by rewrite get_delete_ne in Hr. }
  destruct (handle_heap_inv _ _ _ _ _ _ _ _ Hh Hp') as [(q & Hq & Hst)|(_ & Hlen & _)].
  - exists q. split; [|done]. unfold player_of, player_ref. by rewrite Hr0.
  - exfalso. unfold handle in Hh.
    destruct (sockets s !! sid) as [sk|], ev; simpl in Hh;
      try (injection Hh as <- _; simpl in *; lia);
      try (by destruct (Hnj playerName0 rnd)); try (by destruct (Hnr rnd));
      apply Some_fst in Hh; subst.
    + destruct (on_moveToLilyPad_frame now sid padId s) as (_ & _ & _ & Hl). lia.
    + revert Hlen. unfold on_tongueAttack.
      destruct (player_of s sid); [|simpl; lia].
      destruct (player_ref s targetId) as [rt|]; [|simpl; lia].
      destruct (heap s !! rt); [|simpl; lia].
      destruct (_ <? 500); [simpl; lia|].
      destruct (_ <=? 0); simpl; rewrite length_insert; lia.
    + revert Hlen. unfold on_catchFly.
      destruct (player_ref s sid) as [rc|]; [|simpl; lia].
      destruct (heap s !! rc); [|simpl; lia].
      destruct (findIndex_fly flyId s); simpl; rewrite ?length_insert; lia.
    + revert Hlen. unfold close_socket, on_disconnect.
      destruct (JsMap.has sid (players s)); simpl; [|lia].
      destruct (playerName sk) as [nm|]; [case_decide|]; simpl; lia.
Qed.

Lemma run_timers_player_of now s id p' :
  player_of (run_timers now s).1 id = Some p' ->
  exists p, player_of s id = Some p /\ same_stats p p'.
Proof.
  unfold player_of, player_ref. rewrite run_timers_players.
  destruct (JsMap.get id (players s)) as [r|]; simpl; [|done].
  intros (p & Hp & ->)%run_timers_object. exists p. split; [done|]. by repeat split.
Qed.

End RegistryFacts.

(** ** Ids and names along a run *)

Section NameFacts.
Implicit Types (s : State) (p : Player.t).

Lemma object_step_identity q q' :
  object_step q q' -> Player.id q' = Player.id q /\ Player.name q' = Player.name q.
Proof.
  intros [(Hi & Hn & _)|(Hi & Hn & _)]; rewrite Hi, Hn; [done|].
  unfold caught. simpl. by destruct (_ <? _).
Qed.

(** What [newPlayer] makes of the registry and of the stored names when it
    accepts the name. *)
Lemma on_newPlayer_accepted sid sk nm rnd s s' out :
  on_newPlayer sid sk nm rnd s = Some (s', out) ->
  (16 <? JsString.length nm)%nat || bool_decide (nm ∈ takenUsernames s) = false ->
  exists spawnPad,
    findUnoccupiedLilyPad rnd s = Some spawnPad /\
    players s' = JsMap.set sid (length (heap s)) (players s) /\
    heap s' = heap s ++ [Player.fresh sid nm spawnPad] /\
    playerNames s' = <[sid := nm]> (playerNames s) /\
    takenUsernames s' = ({[nm]} ∪ takenUsernames s) /\
    sockets s' = <[sid := mkSocket (Some nm) (lastAttackTime sk)]> (sockets s) /\
    flies s' = flies s /\ lilyPads s' = lilyPads s /\ timers s' = timers s /\
    out = [ (to_socket sid, gameState_msg (player_values s') (flies s) (lilyPads s));
            (to_others sid, playerJoined (Player.fresh sid nm spawnPad));
            (to_all, playerHealthUpdate sid 50 50) ].
Proof.
  unfold on_newPlayer. intros Hj Hacc. rewrite Hacc in Hj.
  change (findUnoccupiedLilyPad rnd
            (set_sockets (<[sid:=mkSocket (Some nm) (lastAttackTime sk)]>
               (sockets (set_takenUsernames ({[nm]} ∪ takenUsernames s) s)))
               (set_takenUsernames ({[nm]} ∪ takenUsernames s) s)))
    with (findUnoccupiedLilyPad rnd s) in Hj.
  destruct (findUnoccupiedLilyPad rnd s) as [spawnPad|]; simpl in Hj; [|done].
  injection Hj as <- <-. exists spawnPad. done.
Qed.

Lemma on_respawn_inv sid rnd s s' out :
  on_respawn sid rnd s = Some (s', out) ->
  exists spawnPad,
    findUnoccupiedLilyPad rnd s = Some spawnPad /\
    players s' = JsMap.set sid (length (heap s)) (players s) /\
    heap s' = heap s ++
      [Player.fresh sid (or_else (Player.name <$> player_of s sid)
                                 (or_else (playerNames s !! sid) "Anonymous")) spawnPad] /\
    playerNames s' = playerNames s /\ takenUsernames s' = takenUsernames s /\
    sockets s' = sockets s.
Proof.
  unfold on_respawn. destruct (findUnoccupiedLilyPad rnd s) as [spawnPad|]; simpl; [|done].
  intros [= <- _]. exists spawnPad. done.
Qed.

Lemma close_socket_frame sid sk s :
  let s' := (close_socket sid sk s).1 in
  sockets s' = delete sid (sockets s) /\
  (playerNames s' = playerNames s \/ playerNames s' = delete sid (playerNames s)) /\
  (takenUsernames s' = takenUsernames s \/
   exists nm, playerName sk = Some nm /\ takenUsernames s' = takenUsernames s ∖ {[nm]}).
Proof.
  unfold close_socket, on_disconnect.
  destruct (JsMap.has sid (players s)); simpl; [|by auto].
  destruct (playerName sk) as [nm|]; [case_decide|]; simpl; eauto 10.
Qed.

(** Only [newPlayer] stores a name. *)
Lemma handle_playerNames_inv now sid ev s s' out id nm :
  (forall nm0 rnd, ev ≠ newPlayer nm0 rnd) ->
  handle now sid ev s = Some (s', out) ->
  playerNames s' !! id = Some nm -> playerNames s !! id = Some nm.
Proof.
  intros Hnj Hh. unfold handle in Hh.
  assert (forall sk s0, s0 = (close_socket sid sk s).1 ->
            playerNames s0 !! id = Some nm -> playerNames s !! id = Some nm) as Hclose.
  { intros sk s0 ->. destruct (close_socket_frame sid sk s) as (_ & [-> | ->] & _); [done|].
    by intros [_ ?]%lookup_delete_Some. }
  destruct (sockets s !! sid) as [sk|], ev; simpl in Hh;
    try (by injection Hh as <- _);
    try (by destruct (Hnj playerName0 rnd)).
  - apply on_respawn_inv in Hh as (_ & _ & _ & _ & -> & _). done.
  - apply Some_fst in Hh. subst. unfold on_moveToLilyPad.
    destruct (player_ref s sid) as [r|]; [|done].
    destruct (heap s !! r) as [pl|]; [|done].
    destruct (Player.isSwimming pl); [done|].
    destruct (find_pad padId s) as [pad|]; [|done].
    by destruct (push_loop _ _ _ _ _) as [[h1 ts1] o1].
  - apply Some_fst in Hh. subst. unfold on_tongueAttack.
    destruct (player_of s sid); [|done].
    destruct (player_ref s targetId) as [rt|]; [|done].
    destruct (heap s !! rt); [|done].
    destruct (_ <? 500); [done|]. by destruct (_ <=? 0).
  - apply Some_fst in Hh. subst. unfold on_catchFly.
    destruct (player_ref s sid) as [r|]; [|done].
    destruct (heap s !! r) as [pl|]; [|done].
    by destruct (findIndex_fly flyId s).
  - apply Some_fst in Hh. eauto.
Qed.

Lemma key_is_id_handle now sid ev s s' out :
  wf s -> (forall id p, player_of s id = Some p -> Player.id p = id) ->
  handle now sid ev s = Some (s', out) ->
  forall id p, player_of s' id = Some p -> Player.id p = id.
Proof.
  intros Hwf IH Hh id p' Hp'.
  assert (forall p, player_of s id = Some p -> object_step p p' -> Player.id p' = id) as Hold.
  { intros p Hp [-> _]%object_step_identity. eauto. }
  destruct (sockets s !! sid) as [sk|] eqn:Hsk.
  - destruct ev as [|nm0|playerName0 rnd|rnd|padId|targetId|flyId generated|];
      try (edestruct handle_player_of_inv as (p & Hp & Hst);
             [| |exact Hh|exact Hp'|]; [done|done|by eauto]).
    + unfold handle in Hh. rewrite Hsk in Hh. simpl in Hh.
      destruct ((16 <? JsString.length playerName0)%nat
                || bool_decide (playerName0 ∈ takenUsernames s)) eqn:Hacc.
      * unfold on_newPlayer in Hh. rewrite Hacc in Hh. apply Some_fst in Hh. subst.
        apply player_of_close in Hp'. eauto.
      * destruct (on_newPlayer_accepted _ _ _ _ _ _ _ Hh Hacc)
          as (pad & _ & Hpl & Hhp & _).
        rewrite (player_of_alloc sid _ s s' id Hwf Hpl Hhp) in Hp'.
        case_decide; [|by eauto]. by injection Hp' as <-.
    + unfold handle in Hh. rewrite Hsk in Hh. simpl in Hh.
      destruct (on_respawn_inv _ _ _ _ _ Hh) as (pad & _ & Hpl & Hhp & _).
      rewrite (player_of_alloc sid _ s s' id Hwf Hpl Hhp) in Hp'.
      case_decide; [|by eauto]. by injection Hp' as <-.
  - unfold handle in Hh. rewrite Hsk in Hh.
    destruct ev; injection Hh as <- _; eauto.
Qed.

Lemma key_is_id_reachable s id p :
  reachable s -> player_of s id = Some p -> Player.id p = id.
Proof.
  intros Hs. revert id p.
  induction Hs as [pads fl|s now sid ev s' out Hs IH Hstep]; [done|].
  apply step_inv in Hstep as (o1 & o2 & Hh & _).
  eapply key_is_id_handle; [|  |exact Hh].
  - apply wf_run_timers. by apply wf_reachable.
  - intros id p (q & Hq & (-> & _))%run_timers_player_of. eauto.
Qed.

Lemma names_ok_handle now sid ev s s' out :
  wf s -> names_ok s -> handle now sid ev s = Some (s', out) -> names_ok s'.
Proof.
  intros Hwf IH Hh id nm p' Hnm Hp'.
  assert (forall p, playerNames s !! id = Some nm -> player_of s id = Some p ->
            object_step p p' ->
            Player.name p' = nm \/ (nm = "" /\ Player.name p' = "Anonymous")) as Hold.
  { intros p Hn Hp [_ ->]%object_step_identity. eauto. }
  destruct (sockets s !! sid) as [sk|] eqn:Hsk.
  - destruct ev as [|nm0|playerName0 rnd|rnd|padId|targetId|flyId generated|];
      try (edestruct handle_player_of_inv as (p & Hp & Hst);
             [| |exact Hh|exact Hp'|]; [done|done|];
           eapply handle_playerNames_inv in Hnm; [|  |exact Hh]; [|done];
           by eauto).
    + unfold handle in Hh. rewrite Hsk in Hh. simpl in Hh.
      destruct ((16 <? JsString.length playerName0)%nat
                || bool_decide (playerName0 ∈ takenUsernames s)) eqn:Hacc.
      * unfold on_newPlayer in Hh. rewrite Hacc in Hh. apply Some_fst in Hh. subst.
        apply player_of_close in Hp'.
        destruct (close_socket_frame sid sk s) as (_ & [Heq|Heq] & _);
          rewrite Heq in Hnm; [by eauto using object_step_refl|].
        apply lookup_delete_Some in Hnm as [_ Hnm]. eauto using object_step_refl.
      * destruct (on_newPlayer_accepted _ _ _ _ _ _ _ Hh Hacc)
          as (pad & _ & Hpl & Hhp & Hn & _).
        rewrite (player_of_alloc sid _ s s' id Hwf Hpl Hhp) in Hp'.
        rewrite Hn in Hnm. case_decide as Heq.
        -- subst. rewrite lookup_insert_eq in Hnm. injection Hnm as <-.
           injection Hp' as <-. by left.
        -- rewrite lookup_insert_ne in Hnm by done. eauto using object_step_refl.
    + unfold handle in Hh. rewrite Hsk in Hh. simpl in Hh.
      destruct (on_respawn_inv _ _ _ _ _ Hh) as (pad & _ & Hpl & Hhp & Hn & _).
      rewrite (player_of_alloc sid _ s s' id Hwf Hpl Hhp) in Hp'.
      rewrite Hn in Hnm. case_decide as Heq; [|by eauto using object_step_refl].
      subst. injection Hp' as <-. simpl. rewrite Hnm.
      destruct (player_of s id) as [p|] eqn:Hp; simpl.
      * destruct (IH id nm p Hnm Hp) as [Hname|[-> Hname]]; rewrite Hname.
        -- unfold or_else. repeat case_decide; subst; eauto.
        -- right. done.
      * unfold or_else. case_decide; subst; eauto.
  - unfold handle in Hh. rewrite Hsk in Hh.
    destruct ev; injection Hh as <- _; eauto.
Qed.

Lemma names_ok_reachable s : reachable s -> names_ok s.
Proof.
  induction 1 as [pads fl|s now sid ev s' out Hs IH Hstep]; [done|].
  apply step_inv in Hstep as (o1 & o2 & Hh & _).
  eapply names_ok_handle; [| |exact Hh].
  - apply wf_run_timers. by apply wf_reachable.
  - intros id nm p' Hnm (q & Hq & (_ & Hname & _))%run_timers_player_of.
    destruct (run_timers_frame now s) as (_ & _ & _ & Hn & _). rewrite Hn in Hnm.
    rewrite Hname. eauto.
Qed.

End NameFacts.

(** X7: in every reachable state the player registered under a socket id
    carries that id in its [id] field. *)
Theorem registry_key_is_player_id (s : State) (id : string) (p : Player.t) :
  reachable s -> player_of s id = Some p -> Player.id p = id.
Proof. apply key_is_id_reachable. Qed.

Lemma registry_key_is_player_id_witness :
  (Player.id <$> player_of Scenario.joined "b") = Some "b".
Proof.
  destruct (player_of Scenario.joined "b") as [p|] eqn:Hp; [|vm_compute in Hp; discriminate].
  simpl. f_equal.
  apply (registry_key_is_player_id Scenario.joined "b" p reachable_joined Hp).
Defined.

(** X8: [respawn] keeps the name.  In a reachable state, a connection
    whose stored name is not empty (it joined, and did not disconnect)
    respawns under that name, whether its player is still registered or
    died; a registered player with a non-empty name keeps it in any
    case. *)
Theorem respawn_keeps_name (s : State) (sid : string) (rnd : nat) :
  reachable s ->
  exists s' out p',
    on_respawn sid rnd s = Some (s', out) /\ player_of s' sid = Some p' /\
    (forall nm, playerNames s !! sid = Some nm -> nm ≠ "" -> Player.name p' = nm) /\
    (forall p, player_of s sid = Some p -> Player.name p ≠ "" ->
               Player.name p' = Player.name p).
Proof.
  intros Hs.
  destruct (findUnoccupiedLilyPad_Some rnd s (reachable_lilyPads s Hs))
    as (spawnPad & Hfind & _).
  pose proof (wf_reachable s Hs) as Hwf.
  pose proof (names_ok_reachable s Hs) as Hnames.
  unfold on_respawn. rewrite Hfind. cbn [mbind option_bind].
  eexists _, _, _. split; [reflexivity|]. split.
  - erewrite player_of_alloc; [|exact Hwf|reflexivity|reflexivity].
    by rewrite decide_True.
  - simpl. split.
    + intros nm Hnm Hne. rewrite Hnm.
      destruct (player_of s sid) as [p|] eqn:Hp; simpl.
      * destruct (Hnames sid nm p Hnm Hp) as [Hname|[-> _]]; [|done].
        rewrite Hname. unfold or_else. by rewrite decide_False.
      * unfold or_else. by rewrite decide_False.
    + intros p -> Hne. simpl. unfold or_else at 1. by rewrite decide_False.
Qed.

Lemma respawn_keeps_name_witness :
  exists s' out p',
    on_respawn "a" 1 Scenario.a_dead = Some (s', out) /\ player_of s' "a" = Some p' /\
    Player.name p' = "A".
Proof.
  destruct (respawn_keeps_name Scenario.a_dead "a" 1 reachable_a_dead)
    as (s' & out & p' & Hr & Hp' & Hstored & _).
  exists s', out, p'. split; [exact Hr|]. split; [exact Hp'|].
  apply Hstored; [vm_compute; reflexivity|discriminate].
Defined.

(** ** Names and connections along a run *)

Section SocketFacts.
Implicit Types (s : State).

Lemma has_false_player_of sid s : JsMap.has sid (players s) = false -> player_of s sid = None.
Proof.
  unfold JsMap.has, player_of, player_ref.
  by destruct (JsMap.get sid (players s)).
Qed.

Lemma player_of_close_self sid sk s : player_of (close_socket sid sk s).1 sid = None.
Proof.
  unfold close_socket, on_disconnect.
  destruct (JsMap.has sid (players s)) eqn:Hhas; simpl.
  - assert (forall s0, players s0 = JsMap.delete sid (players s) ->
              player_of s0 sid = None) as Hdel.
    { intros s0 Hp. unfold player_of, player_ref. by rewrite Hp, get_delete_eq. }
    destruct (playerName sk) as [nm|]; [destruct (decide (nm = ""))|]; by apply Hdel.
  - by apply has_false_player_of.
Qed.

Lemma delete_set_fresh {V} k (v : V) m :
  JsMap.get k m = None -> JsMap.delete k (JsMap.set k v m) = m.
Proof.
  induction m as [|[k0 v0] m IH]; simpl.
  - intros _. by rewrite decide_True.
  - destruct (decide (k0 = k)) as [->|Hne]; [done|]. intros Hg. simpl.
    rewrite decide_False by done. by rewrite IH.
Qed.

(** How one event changes the open connections and the reserved names. *)
Lemma handle_sockets_cases now sid ev s s' out :
  handle now sid ev s = Some (s', out) ->
  (takenUsernames s' = takenUsernames s /\
   forall id, (playerName <$> sockets s' !! id) = (playerName <$> sockets s !! id)) \/
  (sockets s !! sid = None /\ takenUsernames s' = takenUsernames s /\
   sockets s' = <[sid := mkSocket None ∅]> (sockets s)) \/
  (exists sk nm, sockets s !! sid = Some sk /\ (nm ∉ takenUsernames s) /\
                 takenUsernames s' = ({[nm]} ∪ takenUsernames s) /\
                 sockets s' = <[sid := mkSocket (Some nm) (lastAttackTime sk)]> (sockets s)) \/
  (exists sk, sockets s !! sid = Some sk /\ sockets s' = delete sid (sockets s) /\
              (takenUsernames s' = takenUsernames s \/
               exists nm, playerName sk = Some nm /\
                          takenUsernames s' = takenUsernames s ∖ {[nm]})).
Proof.
  intros Hh. unfold handle in Hh.
  destruct (sockets s !! sid) as [sk|] eqn:Hsk;
    destruct ev as [|nm0|nm rnd|rnd|padId|targetId|flyId generated|]; simpl in Hh;
    try (injection Hh as <- _; by left).
  - destruct ((16 <? JsString.length nm)%nat || bool_decide (nm ∈ takenUsernames s)) eqn:Hacc.
    + unfold on_newPlayer in Hh. rewrite Hacc in Hh. apply Some_fst in Hh. subst.
      right. right. right. exists sk.
      destruct (close_socket_frame sid sk s) as (? & _ & ?). done.
    + destruct (on_newPlayer_accepted _ _ _ _ _ _ _ Hh Hacc)
        as (pad & _ & _ & _ & _ & Ht & Hso & _).
      right. right. left. exists sk, nm. split; [done|]. split; [|done].
      apply orb_false_iff in Hacc as [_ Hacc]. by apply bool_decide_eq_false in Hacc.
  - apply on_respawn_inv in Hh as (_ & _ & _ & _ & _ & -> & ->). by left.
  - apply Some_fst in Hh. subst. left.
    destruct (on_moveToLilyPad_frame now sid padId s) as (_ & _ & -> & _).
    split; [|done]. unfold on_moveToLilyPad.
    destruct (player_ref s sid) as [r|]; [|done].
    destruct (heap s !! r) as [pl|]; [|done].
    destruct (Player.isSwimming pl); [done|].
    destruct (find_pad padId s) as [pad|]; [|done].
    by destruct (push_loop _ _ _ _ _) as [[h1 ts1] o1].
  - apply Some_fst in Hh. subst. left. unfold on_tongueAttack.
    destruct (player_of s sid); [|done].
    destruct (player_ref s targetId) as [rt|]; [|done].
    destruct (heap s !! rt); [|done].
    destruct (_ <? 500); [done|].
    assert (forall id, (playerName <$>
                <[sid := mkSocket (playerName sk) (<[targetId := now]> (lastAttackTime sk))]>
                  (sockets s) !! id) = (playerName <$> sockets s !! id)) as Hsame.
    { intros id. destruct (decide (sid = id)) as [->|Hne].
      - by rewrite lookup_insert_eq, Hsk.
      - by rewrite lookup_insert_ne. }
    by destruct (_ <=? 0).
  - apply Some_fst in Hh. subst. left. unfold on_catchFly.
    destruct (player_ref s sid) as [r|]; [|done].
    destruct (heap s !! r) as [pl|]; [|done].
    by destruct (findIndex_fly flyId s).
  - apply Some_fst in Hh. subst. right. right. right. exists sk.
    destruct (close_socket_frame sid sk s) as (? & _ & ?). done.
  - injection Hh as <- _. right. left. done.
Qed.

Lemma sockets_ok_handle now sid ev s s' out :
  sockets_ok s -> handle now sid ev s = Some (s', out) -> sockets_ok s'.
Proof.
  intros [Hres Hdist] Hh. unfold sockets_ok.
  destruct (handle_sockets_cases _ _ _ _ _ _ Hh)
    as [[Ht Hso]|[(Hnone & Ht & Hso)|[(sk & nm & Hsk & Hfree & Ht & Hso)
       |(sk & Hsk & Hso & Ht)]]].
  - assert (forall id sk' nm, sockets s' !! id = Some sk' -> playerName sk' = Some nm ->
              exists sk0, sockets s !! id = Some sk0 /\ playerName sk0 = Some nm) as Hback.
    { intros id sk' nm Hsk' Hnm. specialize (Hso id). rewrite Hsk' in Hso. simpl in Hso.
      destruct (sockets s !! id) as [sk0|]; [|done]. injection Hso as Hso.
      exists sk0. split; [done|congruence]. }
    split.
    + intros id sk' nm Hsk' Hnm. rewrite Ht.
      destruct (Hback _ _ _ Hsk' Hnm) as (sk0 & ? & ?). eauto.
    + intros id1 id2 sk1 sk2 nm H1 H2 Hn1 Hn2.
      destruct (Hback _ _ _ H1 Hn1) as (? & ? & ?), (Hback _ _ _ H2 Hn2) as (? & ? & ?).
      eauto.
  - rewrite Hso, Ht. split.
    + intros id sk' nm [[<- <-]|[_ ?]]%lookup_insert_Some Hnm; [done|eauto].
    + intros id1 id2 sk1 sk2 nm [[<- <-]|[_ H1]]%lookup_insert_Some
             [[<- <-]|[_ H2]]%lookup_insert_Some Hn1 Hn2; try done. eauto.
  - rewrite Hso, Ht. split.
    + intros id sk' nm' [[<- <-]|[_ ?]]%lookup_insert_Some Hnm.
      * injection Hnm as <-. apply elem_of_union. left. by apply elem_of_singleton.
      * apply elem_of_union. right. eauto.
    + intros id1 id2 sk1 sk2 nm' [[<- <-]|[_ H1]]%lookup_insert_Some
             [[<- <-]|[_ H2]]%lookup_insert_Some Hn1 Hn2; try done.
      * injection Hn1 as <-. exfalso. apply Hfree. eauto.
      * injection Hn2 as <-. exfalso. apply Hfree. eauto.
      * eauto.
  - rewrite Hso. split.
    + intros id sk' nm [Hne Hsk']%lookup_delete_Some Hnm.
      destruct Ht as [->|(nm0 & Hnm0 & ->)]; [eauto|].
      apply elem_of_difference. split; [eauto|].
      intros ->%elem_of_singleton. apply Hne. eauto.
    + intros id1 id2 sk1 sk2 nm [_ H1]%lookup_delete_Some [_ H2]%lookup_delete_Some.
      eauto.
Qed.

Lemma sockets_ok_reachable s : reachable s -> sockets_ok s.
Proof.
  induction 1 as [pads fl|s now sid ev s' out Hs IH Hstep].
  - split; simpl; intros ? ?; by rewrite lookup_empty.
  - apply step_inv in Hstep as (o1 & o2 & Hh & _).
    eapply sockets_ok_handle; [|exact Hh].
    destruct (run_timers_frame now s) as (_ & _ & _ & _ & Ht & Hso).
    unfold sockets_ok. rewrite Ht, Hso. exact IH.
Qed.

End SocketFacts.

(** X9: in every reachable state, the name an open connection joined
    under is reserved ([checkName] answers false for it), and no two open
    connections joined under the same name. *)
Theorem joined_names_reserved_and_distinct (s : State) :
  reachable s ->
  (forall sid sk nm,
      sockets s !! sid = Some sk -> playerName sk = Some nm ->
      nm ∈ takenUsernames s /\
      forall asker, on_checkName asker nm s = (s, [(to_socket asker, checkName_reply false)])) /\
  (forall sid1 sid2 sk1 sk2 nm,
      sockets s !! sid1 = Some sk1 -> sockets s !! sid2 = Some sk2 ->
      playerName sk1 = Some nm -> playerName sk2 = Some nm -> sid1 = sid2).
Proof.
  intros Hs. destruct (sockets_ok_reachable s Hs) as [Hres Hdist]. split; [|exact Hdist].
  intros sid sk nm Hsk Hnm. pose proof (Hres _ _ _ Hsk Hnm) as Hin. split; [done|].
  intros asker. unfold on_checkName. by rewrite bool_decide_eq_true_2.
Qed.

Lemma joined_names_reserved_and_distinct_witness :
  on_checkName "c" "B" Scenario.joined =
    (Scenario.joined, [(to_socket "c", checkName_reply false)]).
Proof.
  destruct (joined_names_reserved_and_distinct Scenario.joined reachable_joined) as [Hres _].
  destruct (Hres "b" (mkSocket (Some "B") ∅) "B") as [_ Hreply];
    [vm_compute; reflexivity|reflexivity|].
  apply Hreply.
Defined.

(** X10: [newPlayer] in a reachable state.  A name longer than 16
    UTF-16 code units ([playerName.length > 16]) or already reserved
    closes the connection: the sender has
    no socket and no player afterwards and nothing is reserved.  Any other
    name is accepted without failure: the sender gets a level-1 player of
    that name on the pad the unoccupied-pad policy picks, the name is
    reserved and stored, every other player is untouched, and the snapshot
    sent to the sender contains the new player. *)
Theorem newPlayer_join (s : State) (sid nm : string) (sk : Socket) (rnd : nat) :
  reachable s ->
  ((16 < JsString.length nm)%nat \/ nm ∈ takenUsernames s ->
   exists s' out,
     on_newPlayer sid sk nm rnd s = Some (s', out) /\
     sockets s' !! sid = None /\ player_of s' sid = None /\
     takenUsernames s' ⊆ takenUsernames s) /\
  ((JsString.length nm <= 16)%nat -> nm ∉ takenUsernames s ->
   exists s' out spawnPad,
     on_newPlayer sid sk nm rnd s = Some (s', out) /\
     findUnoccupiedLilyPad rnd s = Some spawnPad /\
     player_of s' sid = Some (Player.fresh sid nm spawnPad) /\
     takenUsernames s' = ({[nm]} ∪ takenUsernames s) /\
     playerNames s' !! sid = Some nm /\
     (playerName <$> sockets s' !! sid) = Some (Some nm) /\
     (forall id, id ≠ sid -> player_of s' id = player_of s id) /\
     out = [ (to_socket sid, gameState_msg (player_values s') (flies s) (lilyPads s));
             (to_others sid, playerJoined (Player.fresh sid nm spawnPad));
             (to_all, playerHealthUpdate sid 50 50) ] /\
     Player.fresh sid nm spawnPad ∈ player_values s').
Proof.
  intros Hs. pose proof (wf_reachable s Hs) as Hwf. split.
  - intros Hbad.
    assert ((16 <? JsString.length nm)%nat || bool_decide (nm ∈ takenUsernames s) = true)
      as Hrej.
    { apply orb_true_iff. destruct Hbad as [Hlen|Hin].
      - left. by apply Nat.ltb_lt.
      - right. by apply bool_decide_eq_true. }
    unfold on_newPlayer. rewrite Hrej.
    exists (close_socket sid sk s).1, (close_socket sid sk s).2.
    split; [by destruct (close_socket sid sk s)|].
    destruct (close_socket_frame sid sk s) as (Hso & _ & Ht).
    split; [by rewrite Hso, lookup_delete_eq|]. split.
    + apply player_of_close_self.
    + destruct Ht as [->|(nm0 & _ & ->)]; [done|].
      by intros x [? _]%elem_of_difference.
  - intros Hlen Hfree.
    assert ((16 <? JsString.length nm)%nat || bool_decide (nm ∈ takenUsernames s) = false)
      as Hacc.
    { apply orb_false_iff. split.
      - apply Nat.ltb_ge. lia.
      - by apply bool_decide_eq_false. }
    destruct (findUnoccupiedLilyPad_Some rnd s (reachable_lilyPads s Hs))
      as (spawnPad & Hfind & _).
    destruct (on_newPlayer sid sk nm rnd s) as [[s' out]|] eqn:Hj.
    2: { unfold on_newPlayer in Hj. rewrite Hacc in Hj.
         change (findUnoccupiedLilyPad rnd _) with (findUnoccupiedLilyPad rnd s) in Hj.
         by rewrite Hfind in Hj. }
    destruct (on_newPlayer_accepted _ _ _ _ _ _ _ Hj Hacc)
      as (pad & Hfind' & Hpl & Hhp & Hn & Ht & Hso & _ & _ & _ & Hout).
    assert (pad = spawnPad) as -> by congruence.
    assert (player_of s' sid = Some (Player.fresh sid nm spawnPad)) as Hnew.
    { rewrite (player_of_alloc sid _ s s' sid Hwf Hpl Hhp). by rewrite decide_True. }
    exists s', out, spawnPad. repeat (split; [done|]).
    split; [by rewrite Hn, lookup_insert_eq|].
    split; [by rewrite Hso, lookup_insert_eq|].
    split; [|split; [done|]].
    + intros id Hne. rewrite (player_of_alloc sid _ s s' id Hwf Hpl Hhp).
      by rewrite decide_False.
    + unfold player_values. apply list_elem_of_omap.
      unfold player_of, player_ref in Hnew.
      destruct (JsMap.get sid (players s')) as [r|] eqn:Hr; simpl in Hnew; [|done].
      exists (sid, r). split; [by apply get_Some_elem_of|done].
Qed.

Lemma newPlayer_join_witness :
  (exists s' out, on_newPlayer "c" (mkSocket None ∅) "A" 0 Scenario.joined = Some (s', out) /\
                  sockets s' !! "c" = None) /\
  (exists s' out, on_newPlayer "c" (mkSocket None ∅) "seventeen letters" 0 Scenario.joined
                    = Some (s', out) /\
                  sockets s' !! "c" = None) /\
  (exists s' out spawnPad,
     on_newPlayer "c" (mkSocket None ∅) "C" 0 Scenario.joined = Some (s', out) /\
     player_of s' "c" = Some (Player.fresh "c" "C" spawnPad)) /\
  (exists s' out spawnPad,
     String.length Scenario.nine_e_acute = 18%nat /\
     on_newPlayer "c" (mkSocket None ∅) Scenario.nine_e_acute 0 Scenario.joined
       = Some (s', out) /\
     player_of s' "c" = Some (Player.fresh "c" Scenario.nine_e_acute spawnPad)).
Proof.
  destruct (newPlayer_join Scenario.joined "c" "A" (mkSocket None ∅) 0 reachable_joined)
    as [Hrej _].
  destruct (newPlayer_join Scenario.joined "c" "seventeen letters" (mkSocket None ∅) 0
              reachable_joined) as [Hlong _].
  destruct (newPlayer_join Scenario.joined "c" "C" (mkSocket None ∅) 0 reachable_joined)
    as [_ Hacc].
  destruct (newPlayer_join Scenario.joined "c" Scenario.nine_e_acute (mkSocket None ∅) 0
              reachable_joined) as [_ Hacc9].
  split; [|split; [|split]].
  - destruct Hrej as (s' & out & Hj & Hso & _).
    { right. apply (bool_decide_unpack _). vm_compute. exact I. }
    eauto.
  - destruct Hlong as (s' & out & Hj & Hso & _).
    { left. vm_compute. lia. }
    eauto.
  - destruct Hacc as (s' & out & pad & Hj & _ & Hp & _).
    { vm_compute. lia. }
    { intros Hin. apply (bool_decide_pack _) in Hin. vm_compute in Hin. exact Hin. }
    eauto.
  - destruct Hacc9 as (s' & out & pad & Hj & _ & Hp & _).
    { vm_compute. lia. }
    { intros Hin. apply (bool_decide_pack _) in Hin. vm_compute in Hin. exact Hin. }
    exists s', out, pad. split; [reflexivity|]. done.
Defined.

(** X11: joining and leaving is a round trip.  When an open connection
    without a registered player joins under a free, non-empty name of at
    most 16 UTF-16 code units and then disconnects, the registry and the
    reserved names are what they were before the join, the connection is
    closed, and the removal is broadcast.  The stored names are what they
    were without the entry of the connection: the name just stored is
    removed, and with it any name the connection had stored before (the
    name of a player of its that died). *)
Theorem join_then_disconnect (s s1 : State) (now1 now2 : Z) (sid nm : string)
    (rnd : nat) (out1 : list Out) :
  reachable s ->
  player_ref s sid = None ->
  nm ≠ "" -> nm ∉ takenUsernames s -> (JsString.length nm <= 16)%nat ->
  is_Some (sockets s !! sid) ->
  handle now1 sid (newPlayer nm rnd) s = Some (s1, out1) ->
  exists s2,
    handle now2 sid disconnect s1 = Some (s2, [(to_all, playerDisconnected sid)]) /\
    players s2 = players s /\ takenUsernames s2 = takenUsernames s /\
    playerNames s2 = delete sid (playerNames s) /\
    (playerNames s !! sid = None -> playerNames s2 = playerNames s) /\
    sockets s2 = delete sid (sockets s).
Proof.
  intros Hs Hnone Hne Hfree Hlen [sk Hsk] Hj.
  unfold handle in Hj. rewrite Hsk in Hj.
  assert ((16 <? JsString.length nm)%nat || bool_decide (nm ∈ takenUsernames s) = false)
    as Hacc.
  { apply orb_false_iff. split.
    - apply Nat.ltb_ge. lia.
    - by apply bool_decide_eq_false. }
  destruct (on_newPlayer_accepted _ _ _ _ _ _ _ Hj Hacc)
    as (pad & _ & Hpl & Hhp & Hn & Ht & Hso & _).
  unfold handle. rewrite Hso, lookup_insert_eq.
  unfold close_socket, on_disconnect, JsMap.has. rewrite Hpl, get_set_eq. simpl.
  rewrite decide_False by done. eexists. split; [reflexivity|]. simpl.
  rewrite ?Hpl, ?Hn, ?Ht, ?Hso. unfold player_ref in Hnone.
  split; [by apply delete_set_fresh|]. split.
  { apply set_eq. intros x. rewrite elem_of_difference, elem_of_union, elem_of_singleton.
    split; [by intros [[->|?] ?]|]. intros Hx. split; [by right|]. by intros ->. }
  split; [by rewrite delete_insert_eq|]. split.
  - intros Hnostored. by rewrite delete_insert_id.
  - by rewrite delete_insert_eq.
Qed.

Lemma join_then_disconnect_witness :
  (exists s1 out1 s2,
     handle 1100 "a" (newPlayer "A" 0) Scenario.connected = Some (s1, out1) /\
     handle 1200 "a" disconnect s1 = Some (s2, [(to_all, playerDisconnected "a")]) /\
     players s2 = players Scenario.connected /\
     playerNames s2 = playerNames Scenario.connected) /\
  (exists s1 out1 s2,
     playerNames Scenario.a_dead !! "a" = Some "A" /\
     handle 4100 "a" (newPlayer "Z" 0) Scenario.a_dead = Some (s1, out1) /\
     handle 4200 "a" disconnect s1 = Some (s2, [(to_all, playerDisconnected "a")]) /\
     players s2 = players Scenario.a_dead /\
     takenUsernames s2 = takenUsernames Scenario.a_dead /\
     playerNames s2 = delete "a" (playerNames Scenario.a_dead)).
Proof.
  split.
  - destruct (handle 1100 "a" (newPlayer "A" 0) Scenario.connected) as [[s1 out1]|] eqn:Hj;
      [|vm_compute in Hj; discriminate].
    destruct (join_then_disconnect Scenario.connected s1 1100 1200 "a" "A" 0 out1)
      as (s2 & Hd & Hp & _ & _ & Hn & _).
    + apply reachable_connected.
    + vm_compute. reflexivity.
    + discriminate.
    + intros Hin. apply (bool_decide_pack _) in Hin. vm_compute in Hin. exact Hin.
    + vm_compute. lia.
    + eexists. vm_compute. reflexivity.
    + exact Hj.
    + exists s1, out1, s2. repeat split; try done. apply Hn. vm_compute. reflexivity.
  - destruct (handle 4100 "a" (newPlayer "Z" 0) Scenario.a_dead) as [[s1 out1]|] eqn:Hj;
      [|vm_compute in Hj; discriminate].
    destruct (join_then_disconnect Scenario.a_dead s1 4100 4200 "a" "Z" 0 out1)
      as (s2 & Hd & Hp & Ht & Hn & _).
    + apply reachable_a_dead.
    + vm_compute. reflexivity.
    + discriminate.
    + intros Hin. apply (bool_decide_pack _) in Hin. vm_compute in Hin. exact Hin.
    + vm_compute. lia.
    + eexists. vm_compute. reflexivity.
    + exact Hj.
    + exists s1, out1, s2. repeat split; first [done | vm_compute; reflexivity].
Defined.

(** ** The world along a run *)

Section WorldFacts.

Lemma handle_world now sid ev s s' out :
  handle now sid ev s = Some (s', out) ->
  lilyPads s' = lilyPads s /\ length (flies s') = length (flies s).
Proof.
  intros Hh. unfold handle in Hh.
  assert (forall sk, lilyPads (close_socket sid sk s).1 = lilyPads s /\
                     length (flies (close_socket sid sk s).1) = length (flies s)) as Hclose.
  { intros sk. unfold close_socket, on_disconnect.
    destruct (JsMap.has sid (players s)); simpl; [|done].
    destruct (playerName sk) as [nm|]; [case_decide|]; done. }
  destruct (sockets s !! sid) as [sk|] eqn:Hsk;
    destruct ev as [|nm0|nm rnd|rnd|padId|targetId|flyId generated|]; simpl in Hh;
    try (by injection Hh as <- _).
  - unfold on_newPlayer in Hh. destruct (_ || _).
    + apply Some_fst in Hh. subst. apply Hclose.
    + destruct (findUnoccupiedLilyPad _ _); simpl in Hh; [|done]. by injection Hh as <- _.
  - unfold on_respawn in Hh.
    destruct (findUnoccupiedLilyPad _ _); simpl in Hh; [|done]. by injection Hh as <- _.
  - apply Some_fst in Hh. subst.
    destruct (on_moveToLilyPad_frame now sid padId s) as (_ & -> & _). split; [done|].
    unfold on_moveToLilyPad.
    destruct (player_ref s sid) as [r|]; [|done].
    destruct (heap s !! r) as [pl|]; [|done].
    destruct (Player.isSwimming pl); [done|].
    destruct (find_pad padId s) as [pad|]; [|done].
    by destruct (push_loop _ _ _ _ _) as [[h1 ts1] o1].
  - apply Some_fst in Hh. subst. unfold on_tongueAttack.
    destruct (player_of s sid); [|done].
    destruct (player_ref s targetId) as [rt|]; [|done].
    destruct (heap s !! rt); [|done].
    destruct (_ <? 500); [done|]. by destruct (_ <=? 0).
  - apply Some_fst in Hh. subst. unfold on_catchFly.
    destruct (player_ref s sid) as [r|]; [|done].
    destruct (heap s !! r) as [pl|]; [|done].
    destruct (findIndex_fly flyId s) as [i|] eqn:Hi; [|done]. simpl. split; [done|].
    destruct (findIndex_fly_Some _ _ _ Hi) as (fly & Hl & _).
    rewrite length_app, length_delete by eauto. simpl.
    apply lookup_lt_Some in Hl. lia.
  - apply Some_fst in Hh. subst. apply Hclose.
Qed.

Lemma step_world now sid ev s s' out :
  step now sid ev s = Some (s', out) ->
  lilyPads s' = lilyPads s /\ length (flies s') = length (flies s).
Proof.
  intros (o1 & o2 & Hh & _)%step_inv.
  destruct (handle_world _ _ _ _ _ _ Hh) as [-> ->].
  by destruct (run_timers_frame now s) as (_ & -> & -> & _).
Qed.

(** The loop pushes exactly the entries that pass the test. *)
Lemma push_loop_exact currentTime sid r targetPad s player0 :
  heap s !! r = Some player0 ->
  loop_exact currentTime sid targetPad player0 (players s) (heap s)
             (push_loop currentTime sid r targetPad s).
Proof.
  intros Hplayer. unfold push_loop. apply push_loop_invariant.
  - split.
    + intros ro q' Hq'. exists q'. split; [done|by left].
    + intros o Ho. by apply elem_of_nil in Ho.
  - intros [[h ts] out] e He [Hobj Hmsg].
    destruct (push_step_cases currentTime sid r targetPad h ts out e)
      as [->|(other & pl & Ho & Hpl & Hpush & ->)]; [done|].
    assert (h0_other : heap s !! e.2 = Some other /\
                       pushable currentTime sid targetPad player0 e.1 other = true).
    { destruct (Hobj _ _ Ho) as (q & Hq & [->|(-> & _)]).
      - split; [done|]. rewrite <- Hpush. apply pushable_size.
        destruct (Hobj _ _ Hpl) as (q0 & Hq0 & [->|(-> & _)]);
          rewrite Hplayer in Hq0; by injection Hq0 as ->.
      - by apply pushable_inv in Hpush as (_ & ? & _). }
    destruct h0_other as [Hother0 Hpush0]. split; simpl.
    + intros ro q' [(<- & <- & _)|[_ Hq']]%list_lookup_insert_Some; [|by apply Hobj].
      exists other. split; [done|]. right. split; [done|]. exists e. done.
    + intros o [Hin|Hin]%elem_of_app; [by apply Hmsg|].
      apply list_elem_of_singleton in Hin as ->. exists e, other. done.
Qed.

Lemma run_world trace s0 s out :
  run trace s0 = Some (s, out) ->
  lilyPads s = lilyPads s0 /\ length (flies s) = length (flies s0).
Proof.
  revert s0 s out.
  induction trace as [|[[now sid] ev] rest IH]; intros s0 s out; simpl.
  - by intros [= <- _].
  - destruct (step now sid ev s0) as [[s1 out1]|] eqn:Hstep; simpl; [|done].
    destruct (run rest s1) as [[s2 out2]|] eqn:Hrun; simpl; [|done].
    intros [= <- _]. destruct (IH _ _ _ Hrun) as [-> ->]. by apply step_world in Hstep.
Qed.

Lemma set_pos_health_id px py p :
  Player.set_maxHealth (Player.maxHealth p)
    (Player.set_health (Player.health p) (Player.set_pos px py p)) =
  Player.set_pos px py p.
Proof. by destruct p. Qed.

End WorldFacts.

(** X12: along every run from the start-up state the lily pads are the
    generated ones, unchanged, and the number of flies is the number the
    server started with. *)
Theorem run_keeps_world (generatedPads : list LilyPad.t) (generatedFlies : list Fly.t)
    (trace : list (Z * string * Event)) (s : State) (out : list Out) :
  run trace (init generatedPads generatedFlies) = Some (s, out) ->
  lilyPads s = centerPad :: generatedPads /\
  length (flies s) = length generatedFlies.
Proof. intros Hrun. by apply run_world in Hrun. Qed.

Lemma run_keeps_world_witness :
  exists s out,
    run (Scenario.connected_trace ++ Scenario.joined_trace ++ Scenario.a_level2_trace)
        (init [Scenario.pad1] [Scenario.fly1]) = Some (s, out) /\
    length (flies s) = 1%nat.
Proof.
  destruct (run (Scenario.connected_trace ++ Scenario.joined_trace ++ Scenario.a_level2_trace)
                (init [Scenario.pad1] [Scenario.fly1])) as [[s out]|] eqn:Hrun;
    [|vm_compute in Hrun; discriminate].
  exists s, out. split; [reflexivity|].
  apply (run_keeps_world _ _ _ _ _ Hrun).
Defined.

(** X13: in the state in which an event is handled at time [now] (every
    due timer has run), a player that is in the water was pushed less than
    one second before: nobody stays in the water. *)
Theorem swimming_less_than_a_second (s : State) (now : Z) (id : string) (q : Player.t) :
  reachable s ->
  player_of (run_timers now s).1 id = Some q -> Player.isSwimming q = true ->
  now < Player.lastPushTime q + 1000.
Proof.
  intros Hs Hq Hswim. unfold player_of in Hq.
  destruct (player_ref (run_timers now s).1 id) as [r|]; simpl in Hq; [|done].
  eapply (settled_swimming now (run_timers now s).1 r q); try done.
  - apply wf_run_timers. by apply wf_reachable.
  - apply settled_run_timers.
Qed.

Lemma swimming_less_than_a_second_witness :
  let s := (on_moveToLilyPad 5000 "a" "pad-0-0" Scenario.a_level2).1 in
  exists q, player_of (run_timers 5400 s).1 "b" = Some q /\
            5400 < Player.lastPushTime q + 1000.
Proof.
  eexists. split; [vm_compute; reflexivity|].
  eapply (swimming_less_than_a_second _ 5400 "b").
  - apply (reachable_step Scenario.a_level2 5000 "a" (moveToLilyPad "pad-0-0") _
             (on_moveToLilyPad 5000 "a" "pad-0-0" Scenario.a_level2).2
             reachable_a_level2). vm_compute. reflexivity.
  - vm_compute. reflexivity.
  - reflexivity.
Defined.

(** X14: what a successful move leaves alone.  The mover changes only its
    position.  Every other registered player that fails the push test (it
    is on another pad, or not strictly smaller, or already in the water,
    or was pushed within the last two seconds) is unchanged, and no
    [playerPushed] names it.  The registry itself is unchanged. *)
Theorem moveToLilyPad_pushes_only_eligible (s : State) (now : Z) (sid padId : string)
    (player : Player.t) (targetPad : LilyPad.t) :
  reachable s ->
  player_of s sid = Some player -> Player.isSwimming player = false ->
  find_pad padId s = Some targetPad ->
  let s' := (on_moveToLilyPad now sid padId s).1 in
  let out := (on_moveToLilyPad now sid padId s).2 in
  players s' = players s /\
  player_of s' sid =
    Some (Player.set_pos (LilyPad.x targetPad) (LilyPad.y targetPad) player) /\
  (forall x y, (to_all, playerPushed sid sid x y) ∉ out) /\
  (forall id other,
      id ≠ sid -> player_of s id = Some other ->
      pushable now sid targetPad player id other = false ->
      player_of s' id = Some other /\
      forall x y, (to_all, playerPushed id sid x y) ∉ out).
Proof.
  intros Hs Hplayer Hns Hpad s' out. apply wf_reachable in Hs.
  destruct (on_moveToLilyPad_frame now sid padId s) as (Hplayers & _).
  fold s' in Hplayers. split; [done|].
  unfold player_of in Hplayer.
  destruct (player_ref s sid) as [r|] eqn:Hr; simpl in Hplayer; [|done].
  pose proof (push_loop_exact now sid r targetPad s player Hplayer) as [Hobj Hmsg].
  pose proof (push_loop_length now sid r targetPad s) as Hlen.
  assert (forall id ro q, player_ref s id = Some ro -> heap s !! ro = Some q ->
            pushable now sid targetPad player id q = false ->
            (push_loop now sid r targetPad s).1.1 !! ro = Some q /\
            forall x y, (to_all, playerPushed id sid x y) ∉ (push_loop now sid r targetPad s).2)
    as Hkeep.
  { intros id ro q Hro Hq Hno. split.
    - destruct (lookup_lt_is_Some_2 (push_loop now sid r targetPad s).1.1 ro) as [q' Hq'].
      { rewrite Hlen. eapply lookup_lt_Some; eauto. }
      destruct (Hobj _ _ Hq') as (q0 & Hq0 & [->|(_ & e & He & He2 & Hpush)]);
        [congruence|].
      assert (q0 = q) as -> by congruence.
      assert (e = (id, ro)) as ->.
      { apply (NoDup_values_inj (players s)); try done; [apply Hs|].
        by apply get_Some_elem_of. }
      simpl in Hpush. congruence.
    - intros x y Hin. destruct (Hmsg _ Hin) as (e & q0 & He & Hq0 & Hpush & Heq).
      injection Heq as Hid _ _.
      assert (e.2 = ro) as Heq2.
      { destruct e as [k v]. apply (elem_of_get _ _ _ (wf_keys s Hs)) in He.
        simpl in *. subst k. unfold player_ref in Hro. congruence. }
      rewrite Heq2 in Hq0. assert (q0 = q) as -> by congruence.
      rewrite <- Hid in Hpush. congruence. }
  assert (pushable now sid targetPad player sid player = false) as Hself.
  { unfold pushable. by rewrite bool_decide_eq_false_2 by (by intros []). }
  destruct (Hkeep sid r player Hr Hplayer Hself) as [Hmover Hnomsg].
  assert (forall id x y,
            (forall x' y', (to_all, playerPushed id sid x' y') ∉
                           (push_loop now sid r targetPad s).2) ->
            (to_all, playerPushed id sid x y) ∉ out) as Hout.
  { intros id x y Hno. unfold out, on_moveToLilyPad. rewrite Hr, Hplayer, Hns, Hpad.
    destruct (push_loop now sid r targetPad s) as [[h1 ts1] o1]. simpl in *.
    intros [Hin|Hin]%elem_of_app; [by apply (Hno x y)|].
    apply elem_of_cons in Hin as [?|Hin]; [done|].
    by apply list_elem_of_singleton in Hin. }
  assert (heap s' = alter (fun p =>
                       Player.set_maxHealth (Player.maxHealth player)
                         (Player.set_health (Player.health player)
                            (Player.set_pos (LilyPad.x targetPad) (LilyPad.y targetPad) p)))
                      r (push_loop now sid r targetPad s).1.1) as Hheap.
  { unfold s', on_moveToLilyPad. rewrite Hr, Hplayer, Hns, Hpad.
    by destruct (push_loop now sid r targetPad s) as [[h1 ts1] o1]. }
  split; [|split].
  - unfold player_of, player_ref. rewrite Hplayers. unfold player_ref in Hr. rewrite Hr.
    simpl. rewrite Hheap, list_lookup_alter_eq, Hmover. simpl.
    by rewrite set_pos_health_id.
  - intros x y. by apply Hout.
  - intros id other Hne Hother Hno. unfold player_of in Hother.
    destruct (player_ref s id) as [ro|] eqn:Hro; simpl in Hother; [|done].
    destruct (Hkeep id ro other Hro Hother Hno) as [Hsame Hnone].
    split; [|intros x y; by apply Hout].
    unfold player_of, player_ref. rewrite Hplayers. unfold player_ref in Hro. rewrite Hro.
    simpl. rewrite Hheap, list_lookup_alter_ne; [done|].
    intros <-. apply Hne.
    pose proof (NoDup_values_inj (players s) (id, r) (sid, r) (wf_vals s Hs)
                  (get_Some_elem_of _ _ _ Hro) (get_Some_elem_of _ _ _ Hr) eq_refl).
    congruence.
Qed.

Lemma moveToLilyPad_pushes_only_eligible_witness :
  player_of (on_moveToLilyPad 5000 "b" "pad-center" Scenario.a_level2).1 "a" =
  player_of Scenario.a_level2 "a".
Proof.
  destruct (moveToLilyPad_pushes_only_eligible Scenario.a_level2 5000 "b" "pad-center"
              (Player.fresh "b" "B" Scenario.pad1) centerPad)
    as (_ & _ & _ & Hkeep).
  - apply reachable_a_level2.
  - vm_compute. reflexivity.
  - reflexivity.
  - vm_compute. reflexivity.
  - destruct (player_of Scenario.a_level2 "a") as [p|] eqn:Hp; [|vm_compute in Hp; discriminate].
    destruct (Hkeep "a" p) as [H _]; [discriminate|exact Hp| |exact H].
    vm_compute in Hp. injection Hp as <-. vm_compute. reflexivity.
Defined.

(** ** The generated world *)

Import World.

Section WorldGenFacts.

Variable Math_random : nat -> float.
Variables Math_cos Math_sin Math_sqrt : float -> float.
Variable Math_pow : float -> float -> float.

Abbreviation far x y :=
  (fun p => PrimFloat.ltb (distance Math_sqrt Math_pow x y p) minDistance = false).

Lemma check_grid_valid randX randY pads hasNearbyPad h' :
  check_grid Math_sqrt Math_pow randX randY pads hasNearbyPad = (true, h') ->
  Forall (far randX randY) pads.
Proof.
  revert hasNearbyPad. induction pads as [|pad rest IH]; intros h; simpl; [by constructor|].
  destruct (PrimFloat.ltb _ minDistance) eqn:Hlt; [done|].
  intros Hc. constructor; [done|]. by eapply IH.
Qed.

Lemma check_extra_valid x y pads :
  check_extra Math_sqrt Math_pow x y pads = true -> Forall (far x y) pads.
Proof.
  induction pads as [|pad rest IH]; simpl; [by constructor|].
  destruct (PrimFloat.ltb _ minDistance) eqn:Hlt; [done|].
  intros Hc. constructor; auto.
Qed.

Lemma spaced_snoc pads id x y sp :
  spaced Math_sqrt Math_pow pads -> Forall (far x y) pads ->
  spaced Math_sqrt Math_pow (pads ++ [LilyPad.mk id x y sp]).
Proof.
  intros Hsp Hfar i j p q Hij Hi Hj.
  destruct (decide (j < length pads)%nat) as [Hlt|Hge].
  - rewrite lookup_app_l in Hi, Hj by lia. exact (Hsp i j p q Hij Hi Hj).
  - assert (j = length pads) as ->.
    { apply lookup_lt_Some in Hj. rewrite length_app in Hj. simpl in Hj. lia. }
    rewrite lookup_app_l in Hi by lia.
    rewrite list_lookup_middle in Hj by done. injection Hj as <-. simpl.
    by eapply (Forall_lookup_1 _ _ _ _ Hfar Hi).
Qed.

Lemma generated_snoc ids pads id x y :
  generated Math_sqrt Math_pow ids pads -> Forall (far x y) pads ->
  (String.prefix "pad-extra-" id = true -> inside padding x y) ->
  generated Math_sqrt Math_pow (ids ++ [id]) (pads ++ [LilyPad.mk id x y false]).
Proof.
  intros [(rest & -> & Hrest) Hids Hsp Hin] Hfar Hinside. split.
  - exists (rest ++ [LilyPad.mk id x y false]). split; [done|].
    apply Forall_app. split; [done|]. by repeat constructor.
  - rewrite fmap_app. by apply sublist_app.
  - by apply spaced_snoc.
  - intros p [Hp|Hp]%elem_of_app; [by apply Hin|].
    apply list_elem_of_singleton in Hp as ->. done.
Qed.

Lemma generated_skip ids ids' pads :
  generated Math_sqrt Math_pow ids pads -> generated Math_sqrt Math_pow (ids ++ ids') pads.
Proof.
  intros [Hc Hids Hsp Hin]. split; try done. by apply sublist_inserts_r.
Qed.

Lemma grid_ids_not_extra cell :
  cell ∈ cells -> String.prefix "pad-extra-" (grid_id cell) = false.
Proof.
  intros Hcell.
  assert (forallb (fun cell => negb (String.prefix "pad-extra-" (grid_id cell))) cells = true)
    as Hall by (vm_compute; reflexivity).
  rewrite forallb_forall in Hall. apply negb_true_iff, Hall. by apply list_elem_of_In.
Qed.

Lemma grid_cell_generated ids acc cell :
  cell ∈ cells ->
  generated Math_sqrt Math_pow ids acc.1 ->
  generated Math_sqrt Math_pow
    (ids ++ (grid_id <$> filter (fun cell => isCenterCell cell = false) [cell]))
    (grid_cell Math_random Math_sqrt Math_pow acc cell).1.
Proof.
  intros Hcell Hgen. destruct acc as [pads k]. unfold grid_cell. simpl in Hgen.
  rewrite filter_cons, filter_nil.
  destruct (isCenterCell cell) eqn:Hcenter.
  { rewrite decide_False by done. simpl. by rewrite app_nil_r. }
  rewrite decide_True by done.
  destruct (PrimFloat.ltb (Math_random k) 0.8); [|by apply generated_skip].
  destruct (check_grid _ _ _ _ _ _) as [validPosition hasNearbyPad] eqn:Hcheck.
  destruct validPosition; simpl; [|by apply generated_skip].
  destruct (_ || _); simpl; [|by apply generated_skip].
  apply generated_snoc; [done|by eapply check_grid_valid|].
  by rewrite grid_ids_not_extra.
Qed.

Lemma grid_loop_generated cs ids acc :
  (forall cell, cell ∈ cs -> cell ∈ cells) ->
  generated Math_sqrt Math_pow ids acc.1 ->
  generated Math_sqrt Math_pow
    (ids ++ (grid_id <$> filter (fun cell => isCenterCell cell = false) cs))
    (foldl (grid_cell Math_random Math_sqrt Math_pow) acc cs).1.
Proof.
  revert ids acc. induction cs as [|cell cs IH]; intros ids acc Hcs Hgen; simpl.
  - by rewrite ?filter_nil, ?fmap_nil, app_nil_r.
  - replace (filter _ (cell :: cs)) with
      (filter (fun cell => isCenterCell cell = false) [cell] ++
       filter (fun cell => isCenterCell cell = false) cs)
      by (by rewrite <- filter_app).
    rewrite fmap_app, app_assoc. apply IH.
    + intros c Hc. apply Hcs. by right.
    + apply grid_cell_generated; [apply Hcs; by left|done].
Qed.

Lemma generated_center_only :
  generated Math_sqrt Math_pow ["pad-center"] [centerPad].
Proof.
  split.
  - exists []. by split; [|constructor].
  - done.
  - intros i j p q Hij Hi Hj. apply lookup_lt_Some in Hi, Hj. simpl in *. lia.
  - intros p Hp%list_elem_of_singleton Hpre. subst. vm_compute in Hpre. discriminate.
Qed.

Lemma place_extra_Some remaining pads k x y k' :
  place_extra Math_random Math_cos Math_sin Math_sqrt Math_pow remaining pads k
    = Some (Some (x, y), k') ->
  inside padding x y /\ Forall (far x y) pads.
Proof.
  revert k. induction remaining as [|n IH]; intros k; simpl; [done|].
  destruct (at_index pads _) as [sourcePad|]; simpl; [|done].
  set (px := (LilyPad.x sourcePad + _)%float).
  set (py := (LilyPad.y sourcePad + _)%float).
  destruct (_ || _ || _ || _) eqn:Hout; [apply IH|].
  destruct (check_extra _ _ px py pads) eqn:Hcheck; [|apply IH].
  apply orb_false_elim in Hout as [Hout H4].
  apply orb_false_elim in Hout as [Hout H3].
  apply orb_false_elim in Hout as [H1 H2].
  intros [= <- <- _]. split; [|by apply check_extra_valid].
  unfold inside. repeat split; assumption.
Qed.

#[local] Arguments place_extra : simpl never.

Lemma extra_loop_generated js ids acc pads :
  generated Math_sqrt Math_pow ids acc.1 ->
  fst <$> foldl (extra_pad Math_random Math_cos Math_sin Math_sqrt Math_pow) (Some acc) js
    = Some pads ->
  generated Math_sqrt Math_pow (ids ++ (extra_id <$> js)) pads.
Proof.
  revert ids acc. induction js as [|i js IH]; intros ids acc Hgen; simpl.
  - intros [= <-]. by rewrite app_nil_r.
  - destruct acc as [pads0 k]. simpl in *.
    destruct (place_extra _ _ _ _ _ 50 pads0 k) as [[placed k']|] eqn:Hplace; simpl.
    2:{ intros Hnone. exfalso. clear -Hnone.
        induction js as [|j js IHjs]; simpl in Hnone; [done|auto]. }
    rewrite (cons_middle (extra_id i)), app_assoc.
    destruct placed as [[x y]|]; apply IH; simpl.
    + apply place_extra_Some in Hplace as [Hin Hfar]. by apply generated_snoc.
    + by apply generated_skip.
Qed.

Lemma generateLilyPads_generated pads :
  generateLilyPads Math_random Math_cos Math_sin Math_sqrt Math_pow = Some pads ->
  generated Math_sqrt Math_pow candidate_ids pads.
Proof.
  unfold generateLilyPads, candidate_ids. intros Hgen.
  change ("pad-center" :: ?l ++ ?l') with ((["pad-center"] ++ l) ++ l').
  eapply extra_loop_generated; [|exact Hgen].
  apply grid_loop_generated; [done|apply generated_center_only].
Qed.

Lemma candidate_ids_NoDup : NoDup candidate_ids.
Proof. apply (bool_decide_unpack _). vm_compute. exact I. Qed.

Lemma bounce_x_inside fly :
  PrimFloat.ltb (Fly.x (bounce_x fly)) 50 = false /\
  PrimFloat.ltb (worldSize_width - 50) (Fly.x (bounce_x fly)) = false /\
  Fly.y (bounce_x fly) = Fly.y fly /\ Fly.id (bounce_x fly) = Fly.id fly /\
  Fly.speed (bounce_x fly) = Fly.speed fly.
Proof.
  unfold bounce_x.
  destruct (PrimFloat.ltb (Fly.x fly) 50) eqn:H1;
    [|destruct (PrimFloat.ltb (worldSize_width - 50) (Fly.x fly)) eqn:H2];
    repeat split; first [assumption | reflexivity].
Qed.

Lemma bounce_y_inside fly :
  PrimFloat.ltb (Fly.y (bounce_y fly)) 50 = false /\
  PrimFloat.ltb (worldSize_height - 50) (Fly.y (bounce_y fly)) = false /\
  Fly.x (bounce_y fly) = Fly.x fly /\ Fly.id (bounce_y fly) = Fly.id fly /\
  Fly.speed (bounce_y fly) = Fly.speed fly.
Proof.
  unfold bounce_y.
  destruct (PrimFloat.ltb (Fly.y fly) 50) eqn:H1;
    [|destruct (PrimFloat.ltb (worldSize_height - 50) (Fly.y fly)) eqn:H2];
    repeat split; first [assumption | reflexivity].
Qed.

Lemma bounce_inside fly :
  inside 50 (Fly.x (bounce_y (bounce_x fly))) (Fly.y (bounce_y (bounce_x fly))) /\
  Fly.id (bounce_y (bounce_x fly)) = Fly.id fly /\
  Fly.speed (bounce_y (bounce_x fly)) = Fly.speed fly.
Proof.
  destruct (bounce_x_inside fly) as (Hx1 & Hx2 & _ & Hid & Hsp).
  destruct (bounce_y_inside (bounce_x fly)) as (Hy1 & Hy2 & Hx & Hid' & Hsp').
  unfold inside. rewrite Hx, Hid', Hsp'. done.
Qed.

Lemma updateFly_inside currentTime fly k :
  let fly' := (updateFly Math_random Math_cos Math_sin currentTime fly k).1 in
  inside 50 (Fly.x fly') (Fly.y fly') /\ Fly.id fly' = Fly.id fly /\
  Fly.speed fly' = Fly.speed fly.
Proof.
  unfold updateFly. destruct (PrimFloat.leb _ _); simpl;
    match goal with
    | |- context [bounce_y (bounce_x ?f)] => destruct (bounce_inside f) as (H1 & H2 & H3)
    end; done.
Qed.

Lemma updateFlies_inside currentTime flies k :
  let flies' := (updateFlies Math_random Math_cos Math_sin currentTime flies k).1 in
  Forall (fun fly => inside 50 (Fly.x fly) (Fly.y fly)) flies' /\
  Fly.id <$> flies' = Fly.id <$> flies /\
  Fly.speed <$> flies' = Fly.speed <$> flies.
Proof.
  revert k. induction flies as [|fly rest IH]; intros k; simpl; [by split; [constructor|]|].
  pose proof (updateFly_inside currentTime fly k) as Hfly.
  destruct (updateFly _ _ _ currentTime fly k) as [fly' k1]. simpl in Hfly.
  specialize (IH k1).
  destruct (updateFlies _ _ _ currentTime rest k1) as [rest' k2]. simpl in *.
  destruct Hfly as (Hin & Hid & Hsp), IH as (Hall & Hids & Hsps).
  split; [by constructor|]. split; f_equal; done.
Qed.

End WorldGenFacts.

(** X15: whatever [Math.random] and the math functions return, the pads
    [generateLilyPads] returns start with the center pad, which is the
    only spawn point; their ids are pairwise distinct; there are at most
    93 of them. *)
Theorem generateLilyPads_layout (Math_random : nat -> float)
    (Math_cos Math_sin Math_sqrt : float -> float) (Math_pow : float -> float -> float)
    (pads : list LilyPad.t) :
  generateLilyPads Math_random Math_cos Math_sin Math_sqrt Math_pow = Some pads ->
  (exists rest, pads = centerPad :: rest /\
                Forall (fun p => LilyPad.isSpawnPoint p = false) rest) /\
  NoDup (LilyPad.id <$> pads) /\
  (length pads <= 93)%nat.
Proof.
  intros [Hc Hids _ _]%generateLilyPads_generated. split; [done|]. split.
  - eapply sublist_NoDup; [apply candidate_ids_NoDup|done].
  - apply sublist_length in Hids. rewrite length_fmap in Hids.
    etrans; [exact Hids|]. vm_compute. lia.
Qed.

Lemma generateLilyPads_layout_witness :
  example_pads 0.5 = Some example_grid /\ NoDup (LilyPad.id <$> example_grid).
Proof.
  split; [vm_compute; reflexivity|].
  apply (generateLilyPads_layout (fun _ => 0.5%float) (fun _ => 1%float) (fun _ => 0%float)
           PrimFloat.sqrt (fun a _ => (a * a)%float) example_grid).
  vm_compute. reflexivity.
Defined.

(** X16: no pad that [generateLilyPads] returns is closer than
    [minDistance] (240) to a pad placed before it: the distance the
    generator computes is not below 240. *)
Theorem generateLilyPads_spacing (Math_random : nat -> float)
    (Math_cos Math_sin Math_sqrt : float -> float) (Math_pow : float -> float -> float)
    (pads : list LilyPad.t) (i j : nat) (p q : LilyPad.t) :
  generateLilyPads Math_random Math_cos Math_sin Math_sqrt Math_pow = Some pads ->
  (i < j)%nat -> pads !! i = Some p -> pads !! j = Some q ->
  PrimFloat.ltb (distance Math_sqrt Math_pow (LilyPad.x q) (LilyPad.y q) p) minDistance
  = false.
Proof.
  intros [_ _ Hsp _]%generateLilyPads_generated. apply Hsp.
Qed.

Lemma generateLilyPads_spacing_witness :
  exists p q,
    example_grid !! 0%nat = Some p /\ example_grid !! 31%nat = Some q /\
    PrimFloat.ltb (distance PrimFloat.sqrt (fun a _ => (a * a)%float)
                            (LilyPad.x q) (LilyPad.y q) p) minDistance = false.
Proof.
  eexists _, _. split; [reflexivity|]. split; [reflexivity|].
  apply (generateLilyPads_spacing (fun _ => 0.5%float) (fun _ => 1%float) (fun _ => 0%float)
           PrimFloat.sqrt (fun a _ => (a * a)%float) example_grid 0 31).
  - vm_compute. reflexivity.
  - lia.
  - reflexivity.
  - reflexivity.
Defined.

(** X17: every connecting pad (id [pad-extra-i]) that [generateLilyPads]
    returns lies inside the world with a margin of [padding] (160) on
    each side: its x is neither below 160 nor above 2240, its y neither
    below 160 nor above 1640. *)
Theorem generateLilyPads_connectors_inside (Math_random : nat -> float)
    (Math_cos Math_sin Math_sqrt : float -> float) (Math_pow : float -> float -> float)
    (pads : list LilyPad.t) (p : LilyPad.t) :
  generateLilyPads Math_random Math_cos Math_sin Math_sqrt Math_pow = Some pads ->
  p ∈ pads -> String.prefix "pad-extra-" (LilyPad.id p) = true ->
  inside padding (LilyPad.x p) (LilyPad.y p).
Proof.
  intros [_ _ _ Hin]%generateLilyPads_generated. apply Hin.
Qed.

Lemma generateLilyPads_connectors_inside_witness :
  exists p,
    example_connectors !! 1%nat = Some p /\ LilyPad.id p = "pad-extra-0" /\
    inside padding (LilyPad.x p) (LilyPad.y p).
Proof.
  eexists. split; [reflexivity|]. split; [reflexivity|].
  apply (generateLilyPads_connectors_inside (fun _ => 0.9%float) (fun _ => 1%float)
           (fun _ => 0%float) PrimFloat.sqrt (fun a _ => (a * a)%float) example_connectors).
  - vm_compute. reflexivity.
  - right. left.
  - reflexivity.
Defined.

(** X18: a tick of the fly loop keeps the flies, their order, ids and
    speeds, and leaves every fly inside the world with a margin of 50: no
    x below 50 or above 2350, no y below 50 or above 1750.  It touches
    nothing but the flies, and [fliesUpdated] is emitted exactly when
    there is a fly. *)
Theorem tick_keeps_flies_inside (Math_random : nat -> float)
    (Math_cos Math_sin : float -> float) (currentTime : float) (s : State) (k : nat) :
  let s' := (tick Math_random Math_cos Math_sin currentTime s k).1.1 in
  let payload := (tick Math_random Math_cos Math_sin currentTime s k).1.2 in
  Fly.id <$> flies s' = Fly.id <$> flies s /\
  Fly.speed <$> flies s' = Fly.speed <$> flies s /\
  Forall (fun fly => inside 50 (Fly.x fly) (Fly.y fly)) (flies s') /\
  set_flies (flies s) s' = s /\
  (payload = None <-> flies s = []) /\
  (forall l, payload = Some l -> l.*1.*1.*1 = Fly.id <$> flies s).
Proof.
  unfold tick.
  pose proof (updateFlies_inside Math_random Math_cos Math_sin currentTime (flies s) k)
    as (Hin & Hid & Hsp).
  destruct (updateFlies _ _ _ currentTime (flies s) k) as [flies' k']. simpl in *.
  repeat split; try done.
  - by destruct s.
  - destruct flies'; simpl; [|done]. by destruct (flies s).
  - intros Hnil. rewrite Hnil in Hid. by destruct flies'.
  - intros l. destruct (0 <? length flies')%nat; [|done]. intros [= <-].
    rewrite <- Hid, <- !list_fmap_compose. done.
Qed.

(** ** Where the players are *)

Section PositionFacts.

Lemma findUnoccupiedLilyPad_elem_of rnd s pad :
  findUnoccupiedLilyPad rnd s = Some pad -> pad ∈ lilyPads s.
Proof.
  unfold findUnoccupiedLilyPad. destruct (_ =? _)%nat.
  - apply list_elem_of_lookup_2.
  - intros Hl%list_elem_of_lookup_2. apply list_elem_of_In, filter_In in Hl as [Hl _].
    by apply list_elem_of_In.
Qed.

Lemma on_pad_same pads q q' :
  Player.x q' = Player.x q -> Player.y q' = Player.y q -> on_pad pads q -> on_pad pads q'.
Proof. intros Hx Hy (pad & ? & ? & ?). exists pad. rewrite Hx, Hy. done. Qed.

Lemma on_pad_fresh pads sid nm pad : pad ∈ pads -> on_pad pads (Player.fresh sid nm pad).
Proof. intros Hpad. by exists pad. Qed.

Lemma on_moveToLilyPad_on_pad now sid padId s :
  Forall (on_pad (lilyPads s)) (heap s) ->
  Forall (on_pad (lilyPads s)) (heap (on_moveToLilyPad now sid padId s).1).
Proof.
  intros Hall. unfold on_moveToLilyPad.
  destruct (player_ref s sid) as [r|]; [|done].
  destruct (heap s !! r) as [pl|]; [|done].
  destruct (Player.isSwimming pl); [done|].
  destruct (find_pad padId s) as [pad|] eqn:Hpad; [|done].
  pose proof (push_loop_objects now sid r pad s) as Hobj.
  destruct (push_loop _ _ _ _ _) as [[h1 ts1] o1]. simpl in *.
  apply find_pad_Some in Hpad as [Hpad _].
  apply Forall_lookup. intros ro q'. rewrite list_lookup_alter.
  case_decide as Heq.
  - intros (q1 & _ & ->)%fmap_Some. by exists pad.
  - intros Hq'. destruct (Hobj _ _ Hq') as (q & Hq & [->|(-> & _)]).
    + by eapply Forall_lookup_1.
    + eapply on_pad_same; [| |by eapply Forall_lookup_1]; done.
Qed.

Lemma handle_on_pad now sid ev s s' out :
  handle now sid ev s = Some (s', out) ->
  Forall (on_pad (lilyPads s)) (heap s) -> Forall (on_pad (lilyPads s')) (heap s').
Proof.
  intros Hh Hall. destruct (handle_world _ _ _ _ _ _ Hh) as [-> _].
  unfold handle in Hh.
  assert (forall sk, heap (close_socket sid sk s).1 = heap s) as Hclose.
  { intros sk. unfold close_socket, on_disconnect.
    destruct (JsMap.has sid (players s)); simpl; [|done].
    destruct (playerName sk) as [nm|]; [case_decide|]; done. }
  destruct (sockets s !! sid) as [sk|], ev; simpl in Hh;
    try (by injection Hh as <- _).
  - unfold on_newPlayer in Hh. destruct (_ || _).
    + apply Some_fst in Hh. subst. by rewrite Hclose.
    + destruct (findUnoccupiedLilyPad _ _) as [pad|] eqn:Hpad; simpl in Hh; [|done].
      injection Hh as <- _. simpl. apply Forall_app. split; [done|].
      apply findUnoccupiedLilyPad_elem_of in Hpad.
      repeat constructor. by apply on_pad_fresh.
  - unfold on_respawn in Hh.
    destruct (findUnoccupiedLilyPad _ _) as [pad|] eqn:Hpad; simpl in Hh; [|done].
    injection Hh as <- _. simpl. apply Forall_app. split; [done|].
    apply findUnoccupiedLilyPad_elem_of in Hpad.
    repeat constructor. by apply on_pad_fresh.
  - apply Some_fst in Hh. subst. by apply on_moveToLilyPad_on_pad.
  - apply Some_fst in Hh. subst. unfold on_tongueAttack.
    destruct (player_of s sid); [|done].
    destruct (player_ref s targetId) as [rt|]; [|done].
    destruct (heap s !! rt) as [tg|] eqn:Htg; [|done].
    destruct (_ <? 500); [done|].
    assert (Forall (on_pad (lilyPads s))
              (<[rt := Player.set_health (Z.max 0 (Player.health tg - 10)) tg]> (heap s)))
      as Hins.
    { apply Forall_insert; [done|].
      eapply on_pad_same; [| |by eapply Forall_lookup_1]; done. }
    by destruct (_ <=? 0).
  - apply Some_fst in Hh. subst. unfold on_catchFly.
    destruct (player_ref s sid) as [rc|]; [|done].
    destruct (heap s !! rc) as [pl|] eqn:Hpl; [|done].
    destruct (findIndex_fly flyId s); [|done].
    simpl. apply Forall_insert; [done|].
    eapply on_pad_same; [| |by eapply (Forall_lookup_1 _ _ _ _ Hall Hpl)];
      by destruct (_ <? _).
  - apply Some_fst in Hh. subst. by rewrite Hclose.
Qed.

Lemma on_pad_reachable s : reachable s -> Forall (on_pad (lilyPads s)) (heap s).
Proof.
  induction 1 as [pads fl|s now sid ev s' out _ IH Hstep]; [constructor|].
  apply step_inv in Hstep as (o1 & o2 & Hh & _).
  eapply handle_on_pad; [exact Hh|].
  destruct (run_timers_frame now s) as (_ & _ & -> & _).
  apply Forall_lookup. intros r p' (p & Hp & ->)%run_timers_object.
  eapply on_pad_same; [| |by eapply Forall_lookup_1]; done.
Qed.

End PositionFacts.

(** X19: in every reachable state every registered player stands exactly
    on a lily pad of the world: its coordinates are those of a pad, also
    while it is in the water after a push. *)
Theorem player_stands_on_a_pad (s : State) (id : string) (p : Player.t) :
  reachable s -> player_of s id = Some p ->
  exists pad, pad ∈ lilyPads s /\
              Player.x p = LilyPad.x pad /\ Player.y p = LilyPad.y pad.
Proof.
  intros Hs Hp. unfold player_of in Hp.
  destruct (player_ref s id) as [r|]; simpl in Hp; [|done].
  exact (Forall_lookup_1 _ _ _ _ (on_pad_reachable s Hs) Hp).
Qed.

Lemma player_stands_on_a_pad_witness :
  exists pad, pad ∈ lilyPads Scenario.a_level2 /\
              (Player.x <$> player_of Scenario.a_level2 "b") = Some (LilyPad.x pad) /\
              (Player.y <$> player_of Scenario.a_level2 "b") = Some (LilyPad.y pad).
Proof.
  destruct (player_of Scenario.a_level2 "b") as [p|] eqn:Hp; [|vm_compute in Hp; discriminate].
  destruct (player_stands_on_a_pad Scenario.a_level2 "b" p reachable_a_level2 Hp)
    as (pad & Hpad & Hx & Hy).
  exists pad. simpl. by rewrite Hx, Hy.
Defined.

(** ** The generated pads in the running server *)

Section GeneratedWorldFacts.

Lemma find_pad_NoDup s pad :
  NoDup (LilyPad.id <$> lilyPads s) -> pad ∈ lilyPads s ->
  find_pad (LilyPad.id pad) s = Some pad.
Proof.
  intros Hnd [i Hi]%list_elem_of_lookup. unfold find_pad.
  apply fmap_Some. exists (i, pad). split; [|done].
  apply list_find_Some. split; [done|]. split; [done|].
  intros j y Hj Hlt Hid.
  assert (j = i) as ->; [|lia].
  eapply NoDup_lookup; [exact Hnd| |]; rewrite list_lookup_fmap.
  - by rewrite Hj.
  - rewrite Hi. simpl. by rewrite Hid.
Qed.

End GeneratedWorldFacts.

(** X20: the generated world in the running server.  When the server
    starts from the pads [generateLilyPads] returned, then after any run
    every generated pad is found by its id, and a registered player out of
    the water that sends [moveToLilyPad] with that id ends exactly on that
    pad. *)
Theorem generated_pad_is_found_by_id (Math_random : nat -> float)
    (Math_cos Math_sin Math_sqrt : float -> float) (Math_pow : float -> float -> float)
    (rest : list LilyPad.t) (generatedFlies : list Fly.t)
    (trace : list (Z * string * Event)) (s : State) (out : list Out) (pad : LilyPad.t) :
  generateLilyPads Math_random Math_cos Math_sin Math_sqrt Math_pow
    = Some (centerPad :: rest) ->
  run trace (init rest generatedFlies) = Some (s, out) ->
  pad ∈ centerPad :: rest ->
  find_pad (LilyPad.id pad) s = Some pad /\
  forall now sid p,
    player_of s sid = Some p -> Player.isSwimming p = false ->
    exists p',
      player_of (on_moveToLilyPad now sid (LilyPad.id pad) s).1 sid = Some p' /\
      Player.x p' = LilyPad.x pad /\ Player.y p' = LilyPad.y pad.
Proof.
  intros Hgen Hrun Hpad.
  apply generateLilyPads_generated in Hgen as [_ Hids _ _].
  apply run_world in Hrun as [Hpads _]. simpl in Hpads.
  assert (find_pad (LilyPad.id pad) s = Some pad) as Hfind.
  { apply find_pad_NoDup; rewrite Hpads; [|done].
    eapply sublist_NoDup; [apply candidate_ids_NoDup|done]. }
  split; [done|]. intros now sid p Hp Hswim.
  destruct (on_moveToLilyPad_success now sid (LilyPad.id pad) s p pad Hp Hswim Hfind)
    as (p' & Hp' & Hx & Hy & _).
  eauto.
Qed.

Lemma generated_pad_is_found_by_id_witness :
  exists rest s out pad,
    example_connectors = centerPad :: rest /\
    run (Scenario.connected_trace ++ Scenario.joined_trace) (init rest [Scenario.fly1])
      = Some (s, out) /\
    rest !! 2%nat = Some pad /\
    find_pad "pad-extra-2" s = Some pad.
Proof.
  eexists _, _, _, _. split; [reflexivity|].
  split; [vm_compute; reflexivity|]. split; [reflexivity|].
  refine (proj1 (generated_pad_is_found_by_id (fun _ => 0.9%float) (fun _ => 1%float)
           (fun _ => 0%float) PrimFloat.sqrt (fun a _ => (a * a)%float)
           _ [Scenario.fly1] (Scenario.connected_trace ++ Scenario.joined_trace) _ _
           (LilyPad.mk "pad-extra-2" _ _ false) _ _ _)).
  - vm_compute. reflexivity.
  - vm_compute. reflexivity.
  - do 3 right. left.
Defined.
